(** * dtslint [expect] rule: a shallow embedding of [src/rules/expectRule.ts]

    The rule checks [$ExpectType] / [$ExpectError] comments of a TypeScript
    test file against what a compiler reports, for one or several compiler
    versions.  The definitions below follow the source function by function
    and keep its names. *)

From Stdlib Require Import ZArith NArith List String Ascii Lia Permutation.
From stdpp Require Import base decidable option list sets sorting.
Import ListNotations.

Local Open Scope Z_scope.
Local Open Scope list_scope.
#[local] Set Warnings "-clear-no-such-hyp".

(** ** JavaScript strings

    A JavaScript string is a finite sequence of UTF-16 code units; [<] on
    strings (and hence the default [Array.prototype.sort]) compares them
    code unit by code unit. *)

Module JS.

Definition jsstring : Type := list N.

(** Literals of the source are written [js "..."] (ASCII only). *)
Definition js (s : string) : jsstring :=
  List.map N_of_ascii (list_ascii_of_string s).
Arguments js s%_string.

(** [s <= t] on strings. *)
Fixpoint js_leb (s t : jsstring) : bool :=
  match s, t with
  | [], _ => true
  | _ :: _, [] => false
  | a :: s', b :: t' =>
      match N.compare a b with
      | Lt => true
      | Eq => js_leb s' t'
      | Gt => false
      end
  end.

Definition js_le (s t : jsstring) : Prop := js_leb s t = true.

#[global] Instance js_le_dec : RelDecision js_le.
Proof. intros s t. unfold js_le. apply _. Defined.

(** [s.startsWith(p)]: when [p] is a prefix, the rest of [s] after it. *)
Fixpoint strip_prefix (p s : jsstring) : option jsstring :=
  match p, s with
  | [], _ => Some s
  | _ :: _, [] => None
  | a :: p', b :: s' => if N.eqb a b then strip_prefix p' s' else None
  end.

Definition startsWith (s p : jsstring) : bool :=
  match strip_prefix p s with Some _ => true | None => false end.

Definition endsWith (s p : jsstring) : bool :=
  startsWith (rev s) (rev p).

(** [s.slice(from, to)] for [0 <= from], [0 <= to]. *)
Definition slice (from to : nat) (s : jsstring) : jsstring :=
  firstn (to - from) (skipn from s).

(** First occurrence of [sep] in [s]: the text before it and the text after. *)
Fixpoint cut (sep s : jsstring) : option (jsstring * jsstring) :=
  match strip_prefix sep s with
  | Some rest => Some ([], rest)
  | None =>
      match s with
      | [] => None
      | c :: s' =>
          match cut sep s' with
          | Some (before, rest) => Some (c :: before, rest)
          | None => None
          end
      end
  end.

(** [s.includes(p)], which is also [/p/.test(s)] for a literal pattern. *)
Definition includes (s p : jsstring) : bool :=
  match cut p s with Some _ => true | None => false end.

(** [s.split(sep)] for a non-empty separator: cut at every occurrence, left
    to right, occurrences not overlapping.  The fuel bounds the number of
    cuts; [length s] is always enough. *)
Fixpoint split_fuel (n : nat) (sep s : jsstring) : list jsstring :=
  match n with
  | O => [s]
  | S n' =>
      match cut sep s with
      | None => [s]
      | Some (before, rest) => before :: split_fuel n' sep rest
      end
  end.

Definition split (sep s : jsstring) : list jsstring :=
  split_fuel (length s) sep s.

(** [l.join(sep)]. *)
Fixpoint join (sep : jsstring) (l : list jsstring) : jsstring :=
  match l with
  | [] => []
  | [s] => s
  | s :: l' => s ++ sep ++ join sep l'
  end.

(** [l.sort()] with the default comparison.  Strings that compare equal are
    the same string, so the result does not depend on the algorithm. *)
Definition sort (l : list jsstring) : list jsstring := merge_sort js_le l.

End JS.
Export JS.

(** ** The type normaliser ([fixupUnions], [fixupIntersections]) *)

Definition union_splitter : jsstring := js " | ".
Definition intersection_splitter : jsstring := js " & ".

(** [s.startsWith("(") && s.endsWith(")")] *)
Definition parenthesized (s : jsstring) : bool :=
  startsWith s (js "(") && endsWith s (js ")").

(** [fixupIntersections] calls itself on [s.slice(1, s.length - 1)], two
    code units shorter than [s]; the fuel counts these calls. *)
Fixpoint fixupIntersections_fuel (n : nat) (s : jsstring) : jsstring :=
  if parenthesized s then
    match n with
    | O => s
    | S n' =>
        js "(" ++ fixupIntersections_fuel n' (slice 1 (length s - 1) s) ++ js ")"
    end
  else
    join intersection_splitter (sort (split intersection_splitter s)).

Definition fixupIntersections (s : jsstring) : jsstring :=
  fixupIntersections_fuel (length s) s.

Definition fixupUnions (s : jsstring) : jsstring :=
  join union_splitter
    (sort (List.map fixupIntersections (split union_splitter s))).

(** ** Insertion-ordered containers

    A JavaScript [Map] or [Set] iterates in insertion order; the order of
    the reported failures depends on it, so both are kept as lists without
    repeated keys. *)

Section Containers.
Context {K V : Type} `{EqDecision K}.

Fixpoint map_get (k : K) (m : list (K * V)) : option V :=
  match m with
  | [] => None
  | (k', v) :: m' => if decide (k = k') then Some v else map_get k m'
  end.

(** [m.set(k, v)]: an existing key keeps its place. *)
Fixpoint map_set (k : K) (v : V) (m : list (K * V)) : list (K * V) :=
  match m with
  | [] => [(k, v)]
  | (k', v') :: m' =>
      if decide (k = k') then (k, v) :: m' else (k', v') :: map_set k v m'
  end.

(** [m.delete(k)]: the new map, and whether the key was there. *)
Fixpoint map_delete (k : K) (m : list (K * V)) : list (K * V) * bool :=
  match m with
  | [] => ([], false)
  | (k', v') :: m' =>
      if decide (k = k') then (m', true)
      else let '(m'', b) := map_delete k m' in ((k', v') :: m'', b)
  end.

Definition map_keys (m : list (K * V)) : list K := List.map fst m.

Fixpoint set_has (k : K) (s : list K) : bool :=
  match s with
  | [] => false
  | k' :: s' => if decide (k = k') then true else set_has k s'
  end.

Definition set_add (k : K) (s : list K) : list K :=
  if set_has k s then s else s ++ [k].
End Containers.

(** ** What the compiler hands to the rule

    The scanner, the syntax tree, the line map, the checker and the
    diagnostics belong to the TypeScript compiler.  The rule only reads
    them, so they enter as data. *)

Inductive SyntaxKind : Type :=
| EndOfFileToken
| SingleLineCommentTrivia
| MultiLineCommentTrivia
| NewLineTrivia
| WhitespaceTrivia
| ShebangTrivia
| ConflictMarkerTrivia
| OtherToken (code : N).

(** The compiler's own classification of the kinds above. *)
Definition isTrivia (k : SyntaxKind) : bool :=
  match k with
  | SingleLineCommentTrivia | MultiLineCommentTrivia | NewLineTrivia
  | WhitespaceTrivia | ShebangTrivia | ConflictMarkerTrivia => true
  | EndOfFileToken | OtherToken _ => false
  end.

(** One result of [scanner.scan()], with [getTokenPos()] and
    [getTokenText()]. *)
Record Token : Type := mkToken {
  tokenKind : SyntaxKind;
  tokenPos : Z;
  tokenText : jsstring
}.

(** A node of the syntax tree, with what the rule asks of it:
    [node.kind === ExpressionStatement] and [node.expression], its start,
    its width, the children [forEachChild] visits, and the text the checker
    renders for its type
    ([typeToString(getTypeAtLocation(node), undefined, NoTruncation)]).
    An expression statement starts where its expression starts. *)
#[warnings="-register-all"]
Inductive Node : Type :=
| ExpressionStatement (width : Z) (expression : Node)
| OtherNode (start width : Z) (typeText : jsstring) (children : list Node).

Fixpoint getStart (n : Node) : Z :=
  match n with
  | ExpressionStatement _ e => getStart e
  | OtherNode s _ _ _ => s
  end.

(** [addFailureAtNode] reads the start and the width of its node. *)
Definition getWidth (n : Node) : Z :=
  match n with
  | ExpressionStatement w _ => w
  | OtherNode _ w _ _ => w
  end.

(** Rendered type of a node; the rule never asks for the type of an
    expression statement itself, the compiler answers as for its
    expression there. *)
Fixpoint typeToString (n : Node) : jsstring :=
  match n with
  | ExpressionStatement _ e => typeToString e
  | OtherNode _ _ t _ => t
  end.

Definition forEachChild {S : Type} (n : Node) (cb : Node -> S -> S) (st : S) : S :=
  match n with
  | ExpressionStatement _ e => cb e st
  | OtherNode _ _ _ cs => fold_left (fun st c => cb c st) cs st
  end.

Record SourceFile : Type := mkSourceFile {
  isDeclarationFile : bool;
  text : jsstring;
  (** [getLineStarts()] *)
  lineStarts : list Z;
  (** the tokens [createScanner(Latest, false, Standard, text)] yields *)
  tokens : list Token;
  (** the children of the source file node *)
  statements : list Node
}.

(** [sourceFile.getLineAndCharacterOfPosition(pos).line]: the last line that
    starts at or before [pos]. *)
Definition lineIndex (lineStarts : list Z) (pos : Z) : nat :=
  length (List.filter (fun s => s <=? pos) (tl lineStarts)).

Definition lineOfPosition (pos : Z) (sourceFile : SourceFile) : nat :=
  lineIndex (lineStarts sourceFile) pos.

(** [sourceFile.getPositionOfLineAndCharacter(line, character)]; the
    compiler rejects a line the file does not have. *)
Definition getPositionOfLineAndCharacter
    (sourceFile : SourceFile) (line : nat) (character : Z) : option Z :=
  match nth_error (lineStarts sourceFile) line with
  | Some s => Some (s + character)
  | None => None
  end.

(** Where a diagnostic is: in the file the rule checks
    ([diagnostic.file === sourceFile]), in another file, or in no file.  A
    diagnostic of a file has a [start] and a [length]; for a diagnostic
    without file (an error in the compiler options, say) [file], [start] and
    [length] are all [undefined]. *)
Inductive DiagnosticFile : Type :=
| SameFile (start length : Z)
| OtherFile (fileName : jsstring) (start length : Z)
| NoFile.

(** A diagnostic: where it is, and its [messageText] both as
    [flattenDiagnosticMessageText(messageText, "\n")] and as the template
    literal [`${messageText}`] render it. *)
Record Diagnostic : Type := mkDiagnostic {
  diagFile : DiagnosticFile;
  flattenedMessageText : jsstring;
  messageText : jsstring
}.

(** [diagnostic.start] *)
Definition diagStart (d : Diagnostic) : option Z :=
  match diagFile d with
  | SameFile start _ | OtherFile _ start _ => Some start
  | NoFile => None
  end.

(** [lineOfPosition(diagnostic.start!, sourceFile)], whatever file the
    diagnostic is in.  With [undefined] for a position the compiler's binary
    search of the line map compares its first probe, the middle entry, with
    [undefined], finds it neither smaller nor larger and answers with that
    entry: a diagnostic without file counts for the middle line of the
    file. *)
Definition diagnosticLine (sourceFile : SourceFile) (d : Diagnostic) : nat :=
  match diagStart d with
  | Some start => lineOfPosition start sourceFile
  | None => ((length (lineStarts sourceFile) - 1) / 2)%nat
  end.

(** ** Failures: the calls on the lint context *)

Inductive Failure : Type :=
| AddFailureAt (start width : Z) (message : jsstring)
| AddFailure (start end_ : Z) (message : jsstring)
| AddFailureAtNode (node : Node) (message : jsstring).

Definition failureMessage (f : Failure) : jsstring :=
  match f with
  | AddFailureAt _ _ m | AddFailure _ _ m | AddFailureAtNode _ m => m
  end.

Definition failureStart (f : Failure) : Z :=
  match f with
  | AddFailureAt s _ _ | AddFailure s _ _ => s
  | AddFailureAtNode n _ => getStart n
  end.

(** The line feed, ["\n"]. *)
Definition LF : jsstring := [10%N].

Definition FAILURE_STRING_DUPLICATE_ASSERTION : jsstring :=
  js "This line has 2 $ExpectType assertions.".
Definition FAILURE_STRING_ASSERTION_MISSING_NODE : jsstring :=
  js "Can not match a node to this assertion.".
Definition FAILURE_STRING_EXPECTED_ERROR : jsstring :=
  js "Expected an error on this line, but found none.".

Definition FAILURE_STRING (expectedType actualType : jsstring) : jsstring :=
  js "Expected type to be:" ++ LF ++ js "  " ++ expectedType ++ LF
  ++ js "got:" ++ LF ++ js "  " ++ actualType.

(** ** The assertion scanner ([parseAssertions]) *)

Record Assertions : Type := mkAssertions {
  (** Lines with an [$ExpectError]. *)
  errorLines : list nat;
  (** Map from a line number to the expected type at that line. *)
  typeAssertions : list (nat * jsstring);
  (** Lines with more than one assertion (these are errors). *)
  duplicates : list nat
}.

(** The variables of [parseAssertions] that change while it scans. *)
Record ScanState : Type := mkScanState {
  found : Assertions;
  prevTokenPos : Z;
  curLine : nat
}.

Definition initialScanState : ScanState :=
  mkScanState (mkAssertions [] [] []) (-1) 0.

(** [while (lineStarts[curLine + 1] <= pos) curLine++]; a comparison with
    [undefined] is false, so the loop stops at the last line at the latest. *)
Fixpoint advanceLine (fuel : nat) (lineStarts : list Z) (curLine : nat) (pos : Z)
  : nat :=
  match fuel with
  | O => curLine
  | S fuel' =>
      match nth_error lineStarts (curLine + 1) with
      | Some s =>
          if s <=? pos then advanceLine fuel' lineStarts (curLine + 1) pos
          else curLine
      | None => curLine
      end
  end.

(** [getLine(pos)]: the line the comment at [pos] applies to, and the new
    [curLine]. *)
Definition getLine (lineStarts : list Z) (prevTokenPos : Z) (curLine : nat) (pos : Z)
  : nat * nat :=
  let curLine := advanceLine (length lineStarts) lineStarts curLine pos in
  let isFirstTokenOnLine :=
    match nth_error lineStarts curLine with
    | Some s => prevTokenPos <? s
    | None => false
    end in
  (if isFirstTokenOnLine then (curLine + 1)%nat else curLine, curLine).

Inductive Directive : Type :=
| ExpectType (expectedType : jsstring)
| ExpectError.

(** [.] of a regular expression matches any code unit but a line
    terminator. *)
Definition isLineTerminator (c : N) : bool :=
  (N.eqb c 10 || N.eqb c 13 || N.eqb c 8232 || N.eqb c 8233)%N.

Fixpoint dotStar (s : jsstring) : jsstring :=
  match s with
  | [] => []
  | c :: s' => if isLineTerminator c then [] else c :: dotStar s'
  end.

(** [commentText.match(...)] with the source's regular expression: anchored
    at the start of the comment only, it reads [// $Expect] and then either
    [Type], one blank and any run of code units other than line terminators
    (group 3), or [Error].  [None] when there is no match, else whether
    group 1 is [Error], and group 3. *)
Definition matchDirective (commentText : jsstring) : option Directive :=
  match strip_prefix (js "// $Expect") commentText with
  | None => None
  | Some rest =>
      match strip_prefix (js "Type ") rest with
      | Some rest' => Some (ExpectType (dotStar rest'))
      | None =>
          match strip_prefix (js "Error") rest with
          | Some _ => Some ExpectError
          | None => None
          end
      end
  end.

(** The body of [if (match) { ... }]. *)
Definition recordDirective (d : Directive) (line : nat) (a : Assertions)
  : Assertions :=
  match d with
  | ExpectError =>
      let duplicates :=
        if set_has line (errorLines a) then duplicates a ++ [line]
        else duplicates a in
      mkAssertions (set_add line (errorLines a)) (typeAssertions a) duplicates
  | ExpectType expectedType =>
      (* Don't bother with the assertion if there are 2 assertions on 1 line.
         Just fail for the duplicate. *)
      let '(deleted, wasThere) := map_delete line (typeAssertions a) in
      if wasThere then
        mkAssertions (errorLines a) deleted (duplicates a ++ [line])
      else
        mkAssertions (errorLines a) (map_set line expectedType (typeAssertions a))
          (duplicates a)
  end.

(** One turn of [loop: while (true)] on a token other than end of file. *)
Definition scanToken (lineStarts : list Z) (t : Token) (st : ScanState)
  : ScanState :=
  match tokenKind t with
  | WhitespaceTrivia => st
  | SingleLineCommentTrivia =>
      match matchDirective (tokenText t) with
      | Some d =>
          let '(line, curLine') :=
            getLine lineStarts (prevTokenPos st) (curLine st) (tokenPos t) in
          mkScanState (recordDirective d line (found st)) (prevTokenPos st) curLine'
      | None => st
      end
  | _ => mkScanState (found st) (tokenPos t) (curLine st)
  end.

(** The loop: it ends at the first end-of-file token (the scanner yields one
    when the text is used up). *)
Fixpoint scanLoop (lineStarts : list Z) (ts : list Token) (st : ScanState)
  : ScanState :=
  match ts with
  | [] => st
  | t :: ts' =>
      match tokenKind t with
      | EndOfFileToken => st
      | _ => scanLoop lineStarts ts' (scanToken lineStarts t st)
      end
  end.

Definition parseAssertions (source : SourceFile) : Assertions :=
  found (scanLoop (lineStarts source) (tokens source) initialScanState).

(** *** The scanner's view of lines and tokens

    What the compiler guarantees about its own output: the line map starts
    at 0 and increases, and the scanner yields tokens from left to right. *)

Fixpoint strictlyIncreasing (l : list Z) : bool :=
  match l with
  | [] => true
  | a :: l' =>
      match l' with
      | [] => true
      | b :: _ => (a <? b) && strictlyIncreasing l'
      end
  end.

Definition lineMapOk (lineStarts : list Z) : bool :=
  match lineStarts with
  | 0 :: _ => strictlyIncreasing lineStarts
  | _ => false
  end.

Fixpoint positionsOk (from : Z) (ts : list Token) : bool :=
  match ts with
  | [] => true
  | t :: ts' => (from <=? tokenPos t) && positionsOk (tokenPos t) ts'
  end.

Definition isEndOfFile (k : SyntaxKind) : bool :=
  match k with EndOfFileToken => true | _ => false end.

(** The kinds that reach the [default] branch of the loop, where
    [prevTokenPos] is set: all but white space, single-line comments and the
    end of file. *)
Definition countsAsToken (k : SyntaxKind) : bool :=
  match k with
  | WhitespaceTrivia | SingleLineCommentTrivia | EndOfFileToken => false
  | _ => true
  end.

(** [prevTokenPos] after the tokens [pre]. *)
Definition lastTokenPos (init : Z) (pre : list Token) : Z :=
  fold_left (fun p t => if countsAsToken (tokenKind t) then tokenPos t else p)
    pre init.

(** The line a comment at [pos] applies to, after the tokens [pre]: its own
    line when a token that counts starts on that line, else the next. *)
Definition applicableLine (source : SourceFile) (pre : list Token) (pos : Z) : nat :=
  let line := lineOfPosition pos source in
  if existsb (fun t => countsAsToken (tokenKind t)
                       && Nat.eqb (lineOfPosition (tokenPos t) source) line) pre
  then line else S line.

(** The same in the words of the specification: its own line when a token
    that is not trivia starts on that line, else the next. *)
Definition claimedApplicableLine
    (source : SourceFile) (pre : list Token) (pos : Z) : nat :=
  let line := lineOfPosition pos source in
  if existsb (fun t => negb (isTrivia (tokenKind t))
                       && Nat.eqb (lineOfPosition (tokenPos t) source) line) pre
  then line else S line.

(** *** The directives of a file

    The recognised directive comments of a scan, each with the line
    [getLine] gives it, in the order of the scan; [prev] and [cur] are
    [prevTokenPos] and [curLine]. *)
Fixpoint scanDirectives (lineStarts : list Z) (ts : list Token) (prev : Z) (cur : nat)
  : list (nat * Directive) :=
  match ts with
  | [] => []
  | t :: ts' =>
      match tokenKind t with
      | EndOfFileToken => []
      | WhitespaceTrivia => scanDirectives lineStarts ts' prev cur
      | SingleLineCommentTrivia =>
          match matchDirective (tokenText t) with
          | Some d =>
              let '(line, cur') := getLine lineStarts prev cur (tokenPos t) in
              (line, d) :: scanDirectives lineStarts ts' prev cur'
          | None => scanDirectives lineStarts ts' prev cur
          end
      | _ => scanDirectives lineStarts ts' (tokenPos t) cur
      end
  end.

Definition directives (source : SourceFile) : list (nat * Directive) :=
  scanDirectives (lineStarts source) (tokens source) (-1) 0.

Definition recordAll (ds : list (nat * Directive)) (a : Assertions) : Assertions :=
  fold_left (fun a ld => recordDirective (snd ld) (fst ld) a) ds a.

Definition isExpectType (d : Directive) : bool :=
  match d with ExpectType _ => true | ExpectError => false end.

(** How many [$ExpectError], and how many [$ExpectType], apply to a line. *)
Definition countExpectError (line : nat) (ds : list (nat * Directive)) : nat :=
  length (List.filter
            (fun ld => Nat.eqb (fst ld) line && negb (isExpectType (snd ld))) ds).

Definition countExpectType (line : nat) (ds : list (nat * Directive)) : nat :=
  length (List.filter
            (fun ld => Nat.eqb (fst ld) line && isExpectType (snd ld)) ds).

(** [typeAssertions.has(line)] *)
Definition pendingAt (line : nat) (a : Assertions) : bool :=
  match map_get line (typeAssertions a) with Some _ => true | None => false end.

(** ** The node matcher ([getExpectTypeFailures]) *)

Record UnmetExpectation : Type := mkUnmet {
  unmetNode : Node;
  unmetExpected : jsstring;
  unmetActual : jsstring
}.

(** What [iterate] changes: the pending assertions and the list it pushes
    to. *)
Record MatchState : Type := mkMatchState {
  pending : list (nat * jsstring);
  unmetExpectations : list UnmetExpectation
}.

Fixpoint iterate (sourceFile : SourceFile) (node : Node) (st : MatchState)
    {struct node} : MatchState :=
  let line := lineOfPosition (getStart node) sourceFile in
  match map_get line (pending st) with
  | Some expected =>
      (* https://github.com/Microsoft/TypeScript/issues/14077 *)
      let node :=
        match node with
        | ExpressionStatement _ expression => expression
        | OtherNode _ _ _ _ => node
        end in
      let actual := fixupUnions (typeToString node) in
      let unmet :=
        if decide (actual = expected) then unmetExpectations st
        else unmetExpectations st ++ [mkUnmet node expected actual] in
      forEachChild node (iterate sourceFile)
        (mkMatchState (fst (map_delete line (pending st))) unmet)
  | None => forEachChild node (iterate sourceFile) st
  end.

Record ExpectTypeFailures : Type := mkExpectTypeFailures {
  (** Lines with an [$ExpectType], but a different type was there. *)
  unmet : list UnmetExpectation;
  (** Lines with an [$ExpectType], but no node could be found. *)
  unusedAssertions : list nat
}.

Definition getExpectTypeFailures
    (sourceFile : SourceFile) (typeAssertions : list (nat * jsstring))
  : ExpectTypeFailures :=
  let st :=
    fold_left (fun st c => iterate sourceFile c st) (statements sourceFile)
      (mkMatchState typeAssertions []) in
  mkExpectTypeFailures (unmetExpectations st) (map_keys (pending st)).

(** *** The traversal, described

    The nodes of a subtree in the order [forEachChild] reaches them. *)
Fixpoint preorder (n : Node) : list Node :=
  n :: match n with
       | ExpressionStatement _ e => preorder e
       | OtherNode _ _ _ cs => flat_map preorder cs
       end.

Definition startsOnLine (sourceFile : SourceFile) (line : nat) (n : Node) : bool :=
  Nat.eqb (lineOfPosition (getStart n) sourceFile) line.

(** The first node of the file, in that order, that starts on [line]. *)
Definition firstOnLine (sourceFile : SourceFile) (line : nat) : option Node :=
  List.find (startsOnLine sourceFile line)
    (flat_map preorder (statements sourceFile)).

(** [if (node.kind === ExpressionStatement) node = node.expression] *)
Definition unwrap (n : Node) : Node :=
  match n with
  | ExpressionStatement _ e => e
  | OtherNode _ _ _ _ => n
  end.

(** [ts.forEachChild(node, iterate)] *)
Definition visitChildren (sourceFile : SourceFile) (n : Node) (st : MatchState)
  : MatchState :=
  forEachChild n (iterate sourceFile) st.

(** The unmet expectations whose node starts on [line]. *)
Definition unmetOnLine (sourceFile : SourceFile) (line : nat)
    (us : list UnmetExpectation) : list UnmetExpectation :=
  List.filter (fun u => startsOnLine sourceFile line (unmetNode u)) us.

(** What visiting the nodes [ns] does to a line of the state [st]: a line
    without pending assertion is left alone; a pending assertion is consumed
    by the first of the nodes that starts on its line, and an unmet
    expectation is pushed when the normalised type of that node differs from
    the expected text. *)
Definition visited (sourceFile : SourceFile) (ns : list Node)
    (st st' : MatchState) : Prop :=
  NoDup (map_keys (pending st'))
  /\ forall line,
       let before := unmetOnLine sourceFile line (unmetExpectations st) in
       let after := unmetOnLine sourceFile line (unmetExpectations st') in
       match map_get line (pending st) with
       | None => map_get line (pending st') = None /\ after = before
       | Some expected =>
           match List.find (startsOnLine sourceFile line) ns with
           | None => map_get line (pending st') = Some expected /\ after = before
           | Some n =>
               let actual := fixupUnions (typeToString (unwrap n)) in
               map_get line (pending st') = None
               /\ after = before ++ (if decide (actual = expected) then []
                                     else [mkUnmet (unwrap n) expected actual])
           end
       end.

(** ** One run of the rule at one compiler version ([walk]) *)

(** What [walk] reads from [program] and [ts]:
    [program.getSourceFile(ctx.sourceFile.fileName)] and
    [ts.getPreEmitDiagnostics(program, sourceFile)]. *)
Record ProgramView : Type := mkProgramView {
  sourceFile : SourceFile;
  diagnostics : list Diagnostic
}.

Definition getIntro (versionName : jsstring) (nextHigherVersion : option jsstring)
  : jsstring :=
  match nextHigherVersion with
  | None => js "TypeScript@" ++ versionName ++ js " compile error: "
  | Some nextHigherVersion =>
      let msg :=
        js "Compile error in typescript@" ++ versionName
        ++ js " but not in typescript@" ++ nextHigherVersion ++ js "." ++ LF in
      let explain :=
        if decide (nextHigherVersion = js "next")
        then js "TypeScript@next features not yet supported."
        else js "Fix with a comment '// TypeScript Version: " ++ nextHigherVersion
             ++ js "' just under the header." in
      msg ++ explain
  end.

Definition addDiagnosticFailure
    (versionName : jsstring) (nextHigherVersion : option jsstring)
    (diagnostic : Diagnostic) : Failure :=
  let intro := getIntro versionName nextHigherVersion in
  match diagFile diagnostic with
  | SameFile start length =>
      let msg := intro ++ LF ++ flattenedMessageText diagnostic in
      AddFailureAt start length msg
  | OtherFile fileName _ _ =>
      AddFailureAt 0 0 (intro ++ LF ++ (fileName ++ js ": ") ++ messageText diagnostic)
  | NoFile =>
      AddFailureAt 0 0 (intro ++ LF ++ js "" ++ messageText diagnostic)
  end.

(** [text[i]] *)
Definition charAt (s : jsstring) (i : Z) : option N :=
  if i <? 0 then None else nth_error s (Z.to_nat i).

(** [addFailureAtLine]; [None] when it throws: the file has no such line
    ([split("\n")[line]] is [undefined]). *)
Definition addFailureAtLine (sourceFile : SourceFile) (line : nat) (failure : jsstring)
  : option Failure :=
  start ← getPositionOfLineAndCharacter sourceFile line 0;
  lineText ← nth_error (split LF (text sourceFile)) line;
  let end_ := start + Z.of_nat (length lineText) in
  let end_ :=
    if decide (charAt (text sourceFile) (end_ - 1) = Some 13%N) then end_ - 1
    else end_ in
  Some (AddFailure start end_ failure).

(** The loop over the diagnostics: the lines seen, and the failures added. *)
Definition reconcileDiagnostics
    (sourceFile : SourceFile) (errorLines : list nat)
    (versionName : jsstring) (nextHigherVersion : option jsstring)
    (diagnostics : list Diagnostic) : list nat * list Failure :=
  fold_left
    (fun acc diagnostic =>
       let '(seenDiagnosticsOnLine, failures) := acc in
       let line := diagnosticLine sourceFile diagnostic in
       (set_add line seenDiagnosticsOnLine,
        if set_has line errorLines then failures
        else failures
             ++ [addDiagnosticFailure versionName nextHigherVersion diagnostic]))
    diagnostics ([], []).

(** [walk]: the failures added to the context, in order; [None] when a call
    of [addFailureAtLine] throws. *)
Definition walk
    (program : ProgramView) (versionName : jsstring)
    (nextHigherVersion : option jsstring) : option (list Failure) :=
  let sourceFile := sourceFile program in
  let diagnostics := diagnostics program in
  if isDeclarationFile sourceFile
     || negb (includes (text sourceFile) (js "$ExpectType")
              || includes (text sourceFile) (js "$ExpectError"))
  then
    (* Normal file. *)
    Some (List.map (addDiagnosticFailure versionName nextHigherVersion) diagnostics)
  else
    let a := parseAssertions sourceFile in
    duplicateFailures ←
      mapM (fun line =>
              addFailureAtLine sourceFile line FAILURE_STRING_DUPLICATE_ASSERTION)
           (duplicates a);
    let '(seenDiagnosticsOnLine, diagnosticFailures) :=
      reconcileDiagnostics sourceFile (errorLines a) versionName nextHigherVersion
        diagnostics in
    expectedErrorFailures ←
      mapM (fun line =>
              addFailureAtLine sourceFile line FAILURE_STRING_EXPECTED_ERROR)
           (List.filter (fun line => negb (set_has line seenDiagnosticsOnLine))
                        (errorLines a));
    let r := getExpectTypeFailures sourceFile (typeAssertions a) in
    let unmetFailures :=
      List.map (fun u => AddFailureAtNode (unmetNode u)
                           (FAILURE_STRING (unmetExpected u) (unmetActual u)))
               (unmet r) in
    unusedFailures ←
      mapM (fun line =>
              addFailureAtLine sourceFile line FAILURE_STRING_ASSERTION_MISSING_NODE)
           (unusedAssertions r);
    Some (duplicateFailures ++ diagnosticFailures ++ expectedErrorFailures
          ++ unmetFailures ++ unusedFailures).

(** *** Failures, by line and by kind

    The kinds of failure differ by their message only; a failure is for the
    line on which it starts. *)

Definition failureLine (sourceFile : SourceFile) (f : Failure) : nat :=
  lineOfPosition (failureStart f) sourceFile.

Definition countFailures (sourceFile : SourceFile) (message : jsstring) (line : nat)
    (fs : list Failure) : nat :=
  length (List.filter
            (fun f => bool_decide (failureMessage f = message)
                      && Nat.eqb (failureLine sourceFile f) line) fs).

Definition isTypeMismatch (f : Failure) : Prop :=
  exists expected actual, failureMessage f = FAILURE_STRING expected actual.

Definition diagnosticOnLine (sourceFile : SourceFile) (line : nat)
    (ds : list Diagnostic) : bool :=
  existsb (fun d => Nat.eqb (diagnosticLine sourceFile d) line) ds.

(** The test at the head of [walk], negated. *)
Definition isExpectFile (sourceFile : SourceFile) : bool :=
  negb (isDeclarationFile sourceFile
        || negb (includes (text sourceFile) (js "$ExpectType")
                 || includes (text sourceFile) (js "$ExpectError"))).

(** ** The rule over several compiler versions ([applyWithProgram]) *)

Record Install : Type := mkInstall {
  versionName : jsstring;
  path : jsstring
}.

Record Options : Type := mkOptions {
  tsconfigPath : jsstring;
  tsNextPath : jsstring;
  (** These should be sorted with oldest first. *)
  olderInstalls : list Install
}.

(** The collaborators: loading a compiler from a path ([require]), building
    a program with it ([createProgram]), what a run reads from the pair, and
    the lint run's own program and compiler. *)
Record Host : Type := mkHost {
  TsModule : Type;
  Program : Type;
  require : jsstring -> TsModule;
  createProgram : jsstring -> TsModule -> Program;
  view : Program -> TsModule -> ProgramView;
  lintProgram : Program;
  TsType : TsModule
}.

(** What outlives a call: the entry of [programCache] for the lint program,
    and the lines written by [console.log]. *)
Record Session (h : Host) : Type := mkSession {
  versionToProgram : list (jsstring * Program h);
  console : list jsstring
}.
Arguments mkSession {h}.
Arguments versionToProgram {h}.
Arguments console {h}.

Inductive Exception : Type :=
| AssertionError      (* [assert(options.olderInstalls.length)] *)
| UnreachableError    (* [throw new Error()] after the loop *)
| RuntimeError.       (* thrown inside a run, or by reading a missing entry *)

Inductive Outcome : Type :=
| Returns (failures : list Failure)
| Throws (e : Exception).

(** Maps a tslint Program to one created with the version specified in
    [options]. *)
Definition getProgram (h : Host) (configFile : jsstring) (ts : TsModule h)
    (versionName : jsstring) (s : Session h) : Program h * Session h :=
  match map_get versionName (versionToProgram s) with
  | Some newProgram => (newProgram, s)
  | None =>
      let newProgram := createProgram h configFile ts in
      (newProgram,
       mkSession (map_set versionName newProgram (versionToProgram s)) (console s))
  end.

Definition getFailures (h : Host) (options : Options)
    (versionName path : jsstring) (nextHigherVersion : option jsstring)
    (s : Session h) : option (list Failure) * Session h :=
  let ts := require h path in
  let '(program, s) := getProgram h (tsconfigPath options) ts versionName s in
  (walk (view h program ts) versionName nextHigherVersion, s).

(** [i === olderInstalls.length - 1 ? "next" : olderInstalls[i + 1].versionName];
    [None] when reading a missing entry throws. *)
Definition nextHigherVersionAt (olderInstalls : list Install) (i : nat)
  : option jsstring :=
  if decide (i = (length olderInstalls - 1)%nat)
  then Some (js "next")
  else option_map versionName (nth_error olderInstalls (i + 1)).

(** [for (let i = olderInstalls.length - 1; i >= 0; i--)], entered with
    [n = i + 1]. *)
Fixpoint scanVersions (h : Host) (options : Options) (n : nat) (s : Session h)
  : Outcome * Session h :=
  match n with
  | O => (Throws UnreachableError, s)
  | S i =>
      match nth_error (olderInstalls options) i with
      | None => (Throws RuntimeError, s)
      | Some install =>
          let s := mkSession (versionToProgram s)
                     (console s ++ [js "Test with " ++ versionName install]) in
          match nextHigherVersionAt (olderInstalls options) i with
          | None => (Throws RuntimeError, s)
          | Some nextHigherVersion =>
              match getFailures h options (versionName install) (path install)
                      (Some nextHigherVersion) s with
              | (None, s) => (Throws RuntimeError, s)
              | (Some failures, s) =>
                  match failures with
                  | _ :: _ => (Returns failures, s)
                  | [] => scanVersions h options i s
                  end
              end
          end
      end
  end.

Definition applyWithProgram (h : Host) (options : option Options) (s : Session h)
  : Outcome * Session h :=
  match options with
  | None =>
      (match walk (view h (lintProgram h) (TsType h)) (js "next") None with
       | Some failures => Returns failures
       | None => Throws RuntimeError
       end, s)
  | Some options =>
      match getFailures h options (js "next") (tsNextPath options) None s with
      | (None, s) => (Throws RuntimeError, s)
      | (Some ((_ :: _) as nextFailures), s) => (Returns nextFailures, s)
      | (Some [], s) =>
          match olderInstalls options with
          | [] => (Throws AssertionError, s)
          | minInstall :: _ =>
              (* As an optimization, check the earliest version for errors;
                 assume that if it works on min and next, it works for
                 everything in between. *)
              match getFailures h options (versionName minInstall) (path minInstall)
                      None s with
              | (None, s) => (Throws RuntimeError, s)
              | (Some [], s) => (Returns [], s)
              | (Some (_ :: _), s) =>
                  (* There are no failures in [next], but there are failures
                     in [min].  Work backward to find the newest version with
                     failures. *)
                  scanVersions h options (length (olderInstalls options)) s
              end
          end
      end
  end.

(** ** Type texts with explicit members

    A union of intersections written out: each member is a list of atoms
    joined by [" & "] and enclosed as a whole in [parens] pairs of
    parentheses; the members are joined by [" | "].  The properties of the
    normaliser are stated over the texts of this shape. *)

Record Member : Type := mkMember {
  parens : nat;
  atoms : list jsstring
}.

Definition BAR : N := 124.
Definition AMPERSAND : N := 38.
Definition LPAREN : N := 40.
Definition RPAREN : N := 41.

(** An atom has none of [|], [&], [(] and [)]. *)
Definition plain (s : jsstring) : bool :=
  forallb (fun c => negb (N.eqb c BAR || N.eqb c AMPERSAND
                          || N.eqb c LPAREN || N.eqb c RPAREN)) s.

Fixpoint wrap (k : nat) (s : jsstring) : jsstring :=
  match k with
  | O => s
  | S k' => js "(" ++ wrap k' s ++ js ")"
  end.

Definition renderMember (m : Member) : jsstring :=
  wrap (parens m) (join intersection_splitter (atoms m)).

Definition renderUnion (ms : list Member) : jsstring :=
  join union_splitter (List.map renderMember ms).

Definition wellFormedMember (m : Member) : bool :=
  match atoms m with
  | [] => false
  | _ :: _ => forallb plain (atoms m)
  end.

Definition wellFormed (ms : list Member) : bool :=
  match ms with
  | [] => false
  | _ :: _ => forallb wellFormedMember ms
  end.

(** [ms'] is [ms] with the atoms of each member and the members themselves
    put in another order. *)
Definition Reordered (ms ms' : list Member) : Prop :=
  exists mid,
    Forall2 (fun m m' => parens m = parens m' /\ atoms m ≡ₚ atoms m') ms mid
    /\ mid ≡ₚ ms'.

(** The member with its atoms sorted. *)
Definition canonicalMember (m : Member) : Member :=
  mkMember (parens m) (sort (atoms m)).

(** ** Example files *)

Module Examples.

Definition tok (k : SyntaxKind) (pos : Z) (s : string) : Token :=
  mkToken k pos (js s).
Arguments tok k pos%_Z s%_string.

(** [// $ExpectType number] on a line of its own, above [const x = 1;] *)
Definition commentAbove : SourceFile :=
  mkSourceFile false
    (js "// $ExpectType number" ++ LF ++ js "const x = 1;")
    [0; 22]
    [tok SingleLineCommentTrivia 0 "// $ExpectType number";
     mkToken NewLineTrivia 21 LF;
     tok (OtherToken 76) 22 "const"; tok WhitespaceTrivia 27 " ";
     tok (OtherToken 71) 28 "x"; tok WhitespaceTrivia 29 " ";
     tok (OtherToken 58) 30 "="; tok WhitespaceTrivia 31 " ";
     tok (OtherToken 8) 32 "1"; tok (OtherToken 25) 33 ";";
     tok EndOfFileToken 34 ""]
    [OtherNode 22 12 (js "number")
       [OtherNode 22 11 (js "number")
          [OtherNode 28 5 (js "number")
             [OtherNode 28 1 (js "number") []; OtherNode 32 1 (js "1") []]]]].

(** [const x = 1; // $ExpectType number] *)
Definition commentTrailing : SourceFile :=
  mkSourceFile false
    (js "const x = 1; // $ExpectType number")
    [0]
    [tok (OtherToken 76) 0 "const"; tok WhitespaceTrivia 5 " ";
     tok (OtherToken 71) 6 "x"; tok WhitespaceTrivia 7 " ";
     tok (OtherToken 58) 8 "="; tok WhitespaceTrivia 9 " ";
     tok (OtherToken 8) 10 "1"; tok (OtherToken 25) 11 ";";
     tok WhitespaceTrivia 12 " ";
     tok SingleLineCommentTrivia 13 "// $ExpectType number";
     tok EndOfFileToken 34 ""]
    [OtherNode 0 12 (js "number")
       [OtherNode 0 11 (js "number")
          [OtherNode 6 5 (js "number")
             [OtherNode 6 1 (js "number") []; OtherNode 10 1 (js "1") []]]]].

(** A block comment, then [// $ExpectError], above [foo();] *)
Definition afterBlockComment : SourceFile :=
  mkSourceFile false
    (js "/* c */ // $ExpectError" ++ LF ++ js "foo();")
    [0; 24]
    [tok MultiLineCommentTrivia 0 "/* c */"; tok WhitespaceTrivia 7 " ";
     tok SingleLineCommentTrivia 8 "// $ExpectError";
     mkToken NewLineTrivia 23 LF;
     tok (OtherToken 71) 24 "foo"; tok (OtherToken 19) 27 "(";
     tok (OtherToken 20) 28 ")"; tok (OtherToken 25) 29 ";";
     tok EndOfFileToken 30 ""]
    [ExpressionStatement 6
       (OtherNode 24 5 (js "any") [OtherNode 24 3 (js "any") []])].

(** [// $ExpectError] above [foo(); // $ExpectError] *)
Definition twoExpectErrors : SourceFile :=
  mkSourceFile false
    (js "// $ExpectError" ++ LF ++ js "foo(); // $ExpectError")
    [0; 16]
    [tok SingleLineCommentTrivia 0 "// $ExpectError";
     mkToken NewLineTrivia 15 LF;
     tok (OtherToken 71) 16 "foo"; tok (OtherToken 19) 19 "(";
     tok (OtherToken 20) 20 ")"; tok (OtherToken 25) 21 ";";
     tok WhitespaceTrivia 22 " ";
     tok SingleLineCommentTrivia 23 "// $ExpectError";
     tok EndOfFileToken 38 ""]
    [ExpressionStatement 6
       (OtherNode 16 5 (js "any") [OtherNode 16 3 (js "any") []])].

(** [// $ExpectType number] above [foo(); // $ExpectType string] *)
Definition twoExpectTypes : SourceFile :=
  mkSourceFile false
    (js "// $ExpectType number" ++ LF ++ js "foo(); // $ExpectType string")
    [0; 22]
    [tok SingleLineCommentTrivia 0 "// $ExpectType number";
     mkToken NewLineTrivia 21 LF;
     tok (OtherToken 71) 22 "foo"; tok (OtherToken 19) 25 "(";
     tok (OtherToken 20) 26 ")"; tok (OtherToken 25) 27 ";";
     tok WhitespaceTrivia 28 " ";
     tok SingleLineCommentTrivia 29 "// $ExpectType string";
     tok EndOfFileToken 50 ""]
    [ExpressionStatement 6
       (OtherNode 22 5 (js "boolean") [OtherNode 22 3 (js "() => boolean") []])].

(** [f(); // $ExpectType B | A], where the compiler renders [A | B] *)
Definition unionOrder : SourceFile :=
  mkSourceFile false
    (js "f(); // $ExpectType B | A")
    [0]
    [tok (OtherToken 71) 0 "f"; tok (OtherToken 19) 1 "(";
     tok (OtherToken 20) 2 ")"; tok (OtherToken 25) 3 ";";
     tok WhitespaceTrivia 4 " ";
     tok SingleLineCommentTrivia 5 "// $ExpectType B | A";
     tok EndOfFileToken 25 ""]
    [ExpressionStatement 4
       (OtherNode 0 3 (js "A | B") [OtherNode 0 1 (js "() => A | B") []])].

(** A file without directives, [foo();], and a declaration file that
  mentions one; the compiler reports [Cannot find name 'foo'.] *)
Definition cannotFindFoo : Diagnostic :=
  mkDiagnostic (SameFile 0 3) (js "Cannot find name 'foo'.")
    (js "Cannot find name 'foo'.").

Definition plainFile : SourceFile :=
  mkSourceFile false (js "foo();") [0]
    [tok (OtherToken 71) 0 "foo"; tok (OtherToken 19) 3 "(";
     tok (OtherToken 20) 4 ")"; tok (OtherToken 25) 5 ";";
     tok EndOfFileToken 6 ""]
    [ExpressionStatement 6
       (OtherNode 0 5 (js "any") [OtherNode 0 3 (js "any") []])].

Definition declarationFile : SourceFile :=
  mkSourceFile true (js "foo(); // $ExpectError") [0]
    [tok (OtherToken 71) 0 "foo"; tok (OtherToken 19) 3 "(";
     tok (OtherToken 20) 4 ")"; tok (OtherToken 25) 5 ";";
     tok WhitespaceTrivia 6 " ";
     tok SingleLineCommentTrivia 7 "// $ExpectError";
     tok EndOfFileToken 22 ""]
    [ExpressionStatement 6
       (OtherNode 0 5 (js "any") [OtherNode 0 3 (js "any") []])].

(** [const x = 1; // $ExpectType string] *)
Definition expectedString : SourceFile :=
  mkSourceFile false
    (js "const x = 1; // $ExpectType string")
    [0]
    [tok (OtherToken 76) 0 "const"; tok WhitespaceTrivia 5 " ";
     tok (OtherToken 71) 6 "x"; tok WhitespaceTrivia 7 " ";
     tok (OtherToken 58) 8 "="; tok WhitespaceTrivia 9 " ";
     tok (OtherToken 8) 10 "1"; tok (OtherToken 25) 11 ";";
     tok WhitespaceTrivia 12 " ";
     tok SingleLineCommentTrivia 13 "// $ExpectType string";
     tok EndOfFileToken 34 ""]
    (statements commentTrailing).

(** [foo(); // $ExpectError], in a file that is not a declaration file *)
Definition expectedError : SourceFile :=
  mkSourceFile false (text declarationFile) (lineStarts declarationFile)
    (tokens declarationFile) (statements declarationFile).

(** [const x = 1; // $ExpectType number] as an older compiler sees it:
    the type of the statement is rendered [1]. *)
Definition commentTrailingOld : SourceFile :=
  mkSourceFile false
    (text commentTrailing) (lineStarts commentTrailing) (tokens commentTrailing)
    [OtherNode 0 12 (js "1")
       [OtherNode 0 11 (js "1")
          [OtherNode 6 5 (js "1")
             [OtherNode 6 1 (js "1") []; OtherNode 10 1 (js "1") []]]]].

(** Three installs, oldest first; the compiler module is named by its
    path, the program by the path of the compiler that built it.  [next]
    and 2.2 accept the file; 2.0 and 2.1 see [old]. *)
Definition options : Options :=
  mkOptions (js "tsconfig.json") (js "ts-next")
    [mkInstall (js "2.0") (js "ts2.0"); mkInstall (js "2.1") (js "ts2.1");
     mkInstall (js "2.2") (js "ts2.2")].

Definition host (old : ProgramView) : Host :=
  mkHost jsstring jsstring
    (fun path => path)
    (fun configFile ts => ts)
    (fun program ts =>
       if decide (ts = js "ts2.0") then old
       else if decide (ts = js "ts2.1") then old
       else mkProgramView commentTrailing [])
    (js "ts-next") (js "ts-next").

Definition emptySession (h : Host) : Session h := mkSession [] [].

End Examples.

(** *** Runs, described

    The program a request for [install] is answered with, from the session
    [s]: the cached one, else a new one; and the run of the rule on it. *)
Definition programFor (h : Host) (options : Options) (s : Session h)
    (install : Install) : Program h :=
  match map_get (versionName install) (versionToProgram s) with
  | Some program => program
  | None => createProgram h (tsconfigPath options) (require h (path install))
  end.

Definition runAt (h : Host) (options : Options) (s : Session h)
    (install : Install) (nextHigherVersion : option jsstring)
  : option (list Failure) :=
  walk (view h (programFor h options s install) (require h (path install)))
    (versionName install) nextHigherVersion.

(** The session after a request for [install]. *)
Definition cached (h : Host) (options : Options) (s : Session h)
    (install : Install) : Session h :=
  match map_get (versionName install) (versionToProgram s) with
  | Some _ => s
  | None =>
      mkSession
        (map_set (versionName install)
           (createProgram h (tsconfigPath options) (require h (path install)))
           (versionToProgram s))
        (console s)
  end.

(** The request for the newest compiler. *)
Definition nextInstall (options : Options) : Install :=
  mkInstall (js "next") (tsNextPath options).

(** The lines [Test with ...] of a scan from the newest install down to
    install [i]. *)
Definition testedDownTo (olderInstalls : list Install) (i : nat) : list jsstring :=
  List.map (fun install => js "Test with " ++ versionName install)
    (rev (skipn i olderInstalls)).

(** *** Further descriptions

    Names for what the further properties speak of. *)

(** The expected type of the last [$ExpectType] among [ds] that applies to
    [line]. *)
Definition lastExpectType (line : nat) (ds : list (nat * Directive))
  : option jsstring :=
  fold_left
    (fun last ld =>
       match snd ld with
       | ExpectType expectedType =>
           if Nat.eqb (fst ld) line then Some expectedType else last
       | ExpectError => last
       end)
    ds None.

(** The lines the scanner has recorded, in any of its three containers. *)
Definition recordedLines (a : Assertions) : list nat :=
  errorLines a ++ map_keys (typeAssertions a) ++ duplicates a.

(** A failure added for a diagnostic of the compiler. *)
Definition isCompileError (f : Failure) : bool :=
  match f with
  | AddFailureAt _ _ _ => true
  | AddFailure _ _ _ | AddFailureAtNode _ _ => false
  end.

(** The diagnostics that do not count for a line with an [$ExpectError]. *)
Definition unexpectedDiagnostics (sourceFile : SourceFile) (errorLines : list nat)
    (diagnostics : list Diagnostic) : list Diagnostic :=
  List.filter
    (fun d => negb (set_has (diagnosticLine sourceFile d) errorLines))
    diagnostics.

(** Whether the file has line [line], for the line map and for
    [text.split("\n")]. *)
Definition hasLine (sourceFile : SourceFile) (line : nat) : bool :=
  (line <? length (lineStarts sourceFile))%nat
  && (line <? length (split LF (text sourceFile)))%nat.

(** The line map of a text whose lines end with a line feed, alone or
    after a carriage return: line 0 starts at 0, and a line starts after
    every line feed. *)
Fixpoint lineStartsFrom (pos : Z) (s : jsstring) : list Z :=
  match s with
  | [] => []
  | c :: s' =>
      if N.eqb c 10 then (pos + 1) :: lineStartsFrom (pos + 1) s'
      else lineStartsFrom (pos + 1) s'
  end.

Definition lfLineStarts (text : jsstring) : list Z := 0 :: lineStartsFrom 0 text.

(** A line of text without the carriage return at its end, when it has
    one. *)
Definition withoutCR (lineText : jsstring) : jsstring :=
  match rev lineText with
  | c :: r => if N.eqb c 13 then rev r else lineText
  | [] => lineText
  end.

(** A session only grows: the cached programs stay, and lines are only
    added to the log. *)
Definition extends {h : Host} (s s' : Session h) : Prop :=
  (forall v program,
      map_get v (versionToProgram s) = Some program ->
      map_get v (versionToProgram s') = Some program)
  /\ exists lines, console s' = console s ++ lines.

(** ** Example files at the edges *)

Module Edge.

(** A block comment that mentions a directive, before [foo();] *)
Definition blockComment : SourceFile :=
  mkSourceFile false
    (js "/* $ExpectError */ foo();")
    [0]
    [Examples.tok MultiLineCommentTrivia 0 "/* $ExpectError */";
     Examples.tok WhitespaceTrivia 18 " ";
     Examples.tok (OtherToken 71) 19 "foo"; Examples.tok (OtherToken 19) 22 "(";
     Examples.tok (OtherToken 20) 23 ")"; Examples.tok (OtherToken 25) 24 ";";
     Examples.tok EndOfFileToken 25 ""]
    [ExpressionStatement 6
       (OtherNode 19 5 (js "any") [OtherNode 19 3 (js "any") []])].

(** The compiler reports [Cannot find name 'foo'.] there. *)
Definition cannotFindFoo : Diagnostic :=
  mkDiagnostic (SameFile 19 3) (js "Cannot find name 'foo'.")
    (js "Cannot find name 'foo'.").

(** A diagnostic without file. *)
Definition unknownOption : Diagnostic :=
  mkDiagnostic NoFile (js "Unknown compiler option 'foo'.")
    (js "Unknown compiler option 'foo'.").



(** [// $ExpectError] above [b; // $ExpectError], then [c;] *)
Definition twoErrorsOnMiddleLine : SourceFile :=
  mkSourceFile false
    (js "// $ExpectError" ++ LF ++ js "b; // $ExpectError" ++ LF ++ js "c;")
    [0; 16; 35]
    [Examples.tok SingleLineCommentTrivia 0 "// $ExpectError";
     mkToken NewLineTrivia 15 LF;
     Examples.tok (OtherToken 71) 16 "b"; Examples.tok (OtherToken 25) 17 ";";
     Examples.tok WhitespaceTrivia 18 " ";
     Examples.tok SingleLineCommentTrivia 19 "// $ExpectError";
     mkToken NewLineTrivia 34 LF;
     Examples.tok (OtherToken 71) 35 "c"; Examples.tok (OtherToken 25) 36 ";";
     Examples.tok EndOfFileToken 37 ""]
    [ExpressionStatement 2 (OtherNode 16 1 (js "any") []);
     ExpressionStatement 2 (OtherNode 35 1 (js "any") [])].

(** [foo();] and, on the last line, which has no line break,
    [// $ExpectError] *)
Definition lastLineDirective : SourceFile :=
  mkSourceFile false
    (js "foo();" ++ LF ++ js "// $ExpectError")
    [0; 7]
    [Examples.tok (OtherToken 71) 0 "foo"; Examples.tok (OtherToken 19) 3 "(";
     Examples.tok (OtherToken 20) 4 ")"; Examples.tok (OtherToken 25) 5 ";";
     mkToken NewLineTrivia 6 LF;
     Examples.tok SingleLineCommentTrivia 7 "// $ExpectError";
     Examples.tok EndOfFileToken 22 ""]
    [ExpressionStatement 6
       (OtherNode 0 5 (js "any") [OtherNode 0 3 (js "any") []])].

(** Two lines, [a; // $ExpectError] and [b;], the first ending with a
    carriage return and a line feed. *)
Definition crlf : SourceFile :=
  mkSourceFile false
    (js "a; // $ExpectError" ++ [13%N] ++ LF ++ js "b;")
    [0; 20]
    [Examples.tok (OtherToken 71) 0 "a"; Examples.tok (OtherToken 25) 1 ";";
     Examples.tok WhitespaceTrivia 2 " ";
     Examples.tok SingleLineCommentTrivia 3 "// $ExpectError";
     mkToken NewLineTrivia 18 ([13%N] ++ LF);
     Examples.tok (OtherToken 71) 20 "b"; Examples.tok (OtherToken 25) 21 ";";
     Examples.tok EndOfFileToken 22 ""]
    [ExpressionStatement 2 (OtherNode 0 1 (js "any") []);
     ExpressionStatement 2 (OtherNode 20 1 (js "any") [])].

End Edge.

(** * Properties *)

(** ** The order on strings and [sort] *)

Section StringOrder.

Lemma js_leb_refl s : js_leb s s = true.
Proof. induction s as [|a s IH]; simpl; [done|]. by rewrite N.compare_refl. Qed.

Lemma js_leb_total s t : js_leb s t = true \/ js_leb t s = true.
Proof.
  revert t. induction s as [|a s IH]; intros [|b t]; simpl; auto.
  rewrite (N.compare_antisym a b).
  destruct (N.compare a b); simpl; auto.
Qed.

Lemma js_leb_antisym s t : js_leb s t = true -> js_leb t s = true -> s = t.
Proof.
  revert t. induction s as [|a s IH]; intros [|b t]; simpl; try done.
  rewrite (N.compare_antisym a b).
  destruct (N.compare_spec a b) as [->|Hlt|Hgt]; simpl; try done.
  intros H1 H2. f_equal. by apply IH.
Qed.

Lemma js_leb_trans s t u :
  js_leb s t = true -> js_leb t u = true -> js_leb s u = true.
Proof.
  revert t u. induction s as [|a s IH]; intros [|b t] [|c u]; simpl; try done.
  destruct (N.compare_spec a b) as [->|Hab|Hab]; try done.
  - destruct (N.compare_spec b c) as [->|Hbc|Hbc]; try done. apply IH.
  - destruct (N.compare_spec b c) as [->|Hbc|Hbc]; try done.
    + intros _ _. destruct (N.compare_spec a c); try done; lia.
    + intros _ _. destruct (N.compare_spec a c); try done; lia.
Qed.

#[global] Instance js_le_total : Total js_le.
Proof. intros s t. apply js_leb_total. Qed.

#[global] Instance js_le_trans : Transitive js_le.
Proof. intros s t u. apply js_leb_trans. Qed.

#[global] Instance js_le_antisym : AntiSymm (=) js_le.
Proof. intros s t. apply js_leb_antisym. Qed.

Lemma sort_Permutation l : sort l ≡ₚ l.
Proof. apply merge_sort_Permutation. Qed.

Lemma sort_Sorted l : Sorted js_le (sort l).
Proof. apply (Sorted_merge_sort js_le). Qed.

(** The sorted arrangement of a list is unique: [sort] depends on the
    members of its argument only. *)
Lemma sort_unique l l' : l ≡ₚ l' -> sort l = sort l'.
Proof.
  intros Hp. apply (Sorted_unique js_le); try apply sort_Sorted.
  by rewrite !sort_Permutation.
Qed.

Lemma sort_of_Sorted l : Sorted js_le l -> sort l = l.
Proof.
  intros Hs. apply (Sorted_unique js_le); [apply sort_Sorted|done|].
  apply sort_Permutation.
Qed.

Lemma sort_idempotent l : sort (sort l) = sort l.
Proof. apply sort_of_Sorted, sort_Sorted. Qed.

Lemma sort_nil_inv l : sort l = [] -> l = [].
Proof.
  intros H. apply Permutation_nil_r. rewrite <- H. symmetry. apply sort_Permutation.
Qed.

End StringOrder.

(** ** Cutting and joining *)

Section SplitJoin.

Lemma strip_prefix_app p r : strip_prefix p (p ++ r) = Some r.
Proof. induction p as [|a p IH]; simpl; [done|]. by rewrite N.eqb_refl. Qed.

Lemma strip_prefix_Some p s r : strip_prefix p s = Some r -> s = p ++ r.
Proof.
  revert s. induction p as [|a p IH]; intros [|b s]; simpl; try congruence.
  destruct (N.eqb_spec a b) as [->|]; [|done].
  intros H. f_equal. by apply IH.
Qed.

(** A separator [a :: m :: tl] with [m <> a] cannot begin inside a piece
    that has no [m], nor at its last code unit. *)
Lemma strip_prefix_piece a m tl c p r :
  m <> a -> m ∉ c :: p ->
  strip_prefix (a :: m :: tl) ((c :: p) ++ (a :: m :: tl) ++ r) = None.
Proof.
  intros Hma Hp. simpl. destruct (N.eqb_spec a c) as [->|]; [|done].
  destruct p as [|d p]; simpl.
  - destruct (N.eqb_spec m c); [congruence|done].
  - destruct (N.eqb_spec m d) as [->|]; [|done].
    exfalso. apply Hp. set_solver.
Qed.

Lemma strip_prefix_free a m tl p :
  m ∉ p -> strip_prefix (a :: m :: tl) p = None.
Proof.
  intros Hp. destruct p as [|c [|d p]]; simpl; try done.
  - by destruct (N.eqb a c).
  - destruct (N.eqb a c); [|done].
    destruct (N.eqb_spec m d) as [->|]; [|done].
    exfalso. apply Hp. set_solver.
Qed.

Lemma cut_eq sep s :
  cut sep s =
  match strip_prefix sep s with
  | Some rest => Some ([], rest)
  | None =>
      match s with
      | [] => None
      | c :: s' =>
          match cut sep s' with
          | Some (before, rest) => Some (c :: before, rest)
          | None => None
          end
      end
  end.
Proof. by destruct s. Qed.

Lemma cut_piece a m tl p r :
  m <> a -> m ∉ p ->
  cut (a :: m :: tl) (p ++ (a :: m :: tl) ++ r) = Some (p, r).
Proof.
  intros Hma. induction p as [|c p IH]; intros Hp.
  - rewrite cut_eq. change ([] ++ ?x) with x. by rewrite strip_prefix_app.
  - rewrite cut_eq, strip_prefix_piece by done.
    rewrite <- app_comm_cons, IH by set_solver. done.
Qed.

Lemma cut_free a m tl p : m ∉ p -> cut (a :: m :: tl) p = None.
Proof.
  induction p as [|c p IH]; intros Hp; [done|].
  rewrite cut_eq, strip_prefix_free by done.
  rewrite IH by set_solver. done.
Qed.

Lemma join_cons sep s t l : join sep (s :: t :: l) = s ++ sep ++ join sep (t :: l).
Proof. done. Qed.

Lemma split_fuel_join a m tl l n :
  m <> a -> l <> [] -> Forall (fun p => m ∉ p) l ->
  (length (join (a :: m :: tl) l) <= n)%nat ->
  split_fuel n (a :: m :: tl) (join (a :: m :: tl) l) = l.
Proof.
  intros Hma. revert n. induction l as [|p l IH]; intros n Hne Hl Hn; [done|].
  apply Forall_cons in Hl as [Hp Hl].
  destruct l as [|q l].
  - simpl. destruct n; [done|]. simpl. by rewrite cut_free.
  - rewrite join_cons in *. destruct n as [|n].
    + rewrite !length_app in Hn. simpl in Hn. lia.
    + cbn [split_fuel]. rewrite cut_piece by done. f_equal.
      apply IH; [done|done|].
      rewrite !length_app in Hn. cbn [length] in Hn. lia.
Qed.

(** Splitting undoes joining, for pieces that have no [m]. *)
Lemma split_join a m tl l :
  m <> a -> l <> [] -> Forall (fun p => m ∉ p) l ->
  split (a :: m :: tl) (join (a :: m :: tl) l) = l.
Proof. intros. by apply split_fuel_join. Qed.

Lemma elem_of_join c sep l :
  c ∈ join sep l -> c ∈ sep \/ exists p, p ∈ l /\ c ∈ p.
Proof.
  induction l as [|p [|q l] IH]; simpl.
  - set_solver.
  - intros H. right. exists p. set_solver.
  - rewrite !elem_of_app. intros [H|[H|H]].
    + right. exists p. set_solver.
    + by left.
    + destruct (IH H) as [?|(p' & ? & ?)]; [by left|].
      right. exists p'. split; [by apply list_elem_of_further|done].
Qed.

End SplitJoin.

(** ** [fixupIntersections] *)

Section FixupIntersections.

Lemma parenthesized_wrap y : parenthesized (js "(" ++ y ++ js ")") = true.
Proof.
  unfold parenthesized, startsWith, endsWith.
  change (js "(" ++ y ++ js ")") with (LPAREN :: (y ++ [RPAREN])).
  change (js "(") with [LPAREN]. change (js ")") with [RPAREN].
  cbn [strip_prefix]. rewrite N.eqb_refl. cbn [rev].
  rewrite rev_app_distr. cbn. done.
Qed.

Lemma slice_wrap y :
  slice 1 (length (js "(" ++ y ++ js ")") - 1) (js "(" ++ y ++ js ")") = y.
Proof.
  unfold slice.
  change (js "(" ++ y ++ js ")") with (LPAREN :: (y ++ [RPAREN])).
  cbn [length skipn]. rewrite length_app. cbn [length].
  replace (S (length y + 1) - 1 - 1)%nat with (length y) by lia.
  change (drop 0 (y ++ [RPAREN])) with (y ++ [RPAREN]).
  apply take_app_length.
Qed.

Lemma parenthesized_length s :
  parenthesized s = true -> (length (slice 1 (length s - 1) s) + 2 <= length s)%nat.
Proof.
  unfold parenthesized, startsWith, endsWith, slice.
  change (js "(") with [LPAREN]. change (js ")") with [RPAREN].
  destruct s as [|a [|b s]]; cbn [strip_prefix rev app]; try done.
  - destruct (N.eqb_spec LPAREN a) as [<-|]; done.
  - intros _. rewrite length_take, length_drop. cbn [length]. lia.
Qed.

Lemma no_lparen_not_parenthesized s : LPAREN ∉ s -> parenthesized s = false.
Proof.
  intros H. unfold parenthesized, startsWith.
  destruct s as [|a s]; [done|]. change (js "(") with [LPAREN].
  cbn [strip_prefix]. destruct (N.eqb_spec LPAREN a) as [<-|]; [|done].
  exfalso. apply H. by left.
Qed.

Lemma fixupIntersections_fuel_enough n m s :
  (length s <= n)%nat -> (length s <= m)%nat ->
  fixupIntersections_fuel n s = fixupIntersections_fuel m s.
Proof.
  revert m s. induction n as [|n IH]; intros m s Hn Hm.
  - destruct s; [|simpl in Hn; lia]. by destruct m.
  - destruct m as [|m].
    + destruct s; [done|simpl in Hm; lia].
    + cbn [fixupIntersections_fuel].
      destruct (parenthesized s) eqn:Hp; [|done].
      apply parenthesized_length in Hp.
      f_equal. f_equal. apply IH; lia.
Qed.

(** The two branches of [fixupIntersections]. *)
Lemma fixupIntersections_parenthesized s :
  parenthesized s = true ->
  fixupIntersections s
  = js "(" ++ fixupIntersections (slice 1 (length s - 1) s) ++ js ")".
Proof.
  intros Hp. pose proof (parenthesized_length s Hp) as Hl.
  unfold fixupIntersections.
  rewrite (fixupIntersections_fuel_enough (length s) (S (length s)) s) by lia.
  cbn [fixupIntersections_fuel]. rewrite Hp. f_equal. f_equal.
  apply fixupIntersections_fuel_enough; lia.
Qed.

Lemma fixupIntersections_flat s :
  parenthesized s = false ->
  fixupIntersections s
  = join intersection_splitter (sort (split intersection_splitter s)).
Proof.
  intros Hp. unfold fixupIntersections.
  destruct (length s); cbn [fixupIntersections_fuel]; by rewrite Hp.
Qed.

(** Surrounding parentheses are kept, at any depth. *)
Lemma fixupIntersections_wrap k s :
  fixupIntersections (wrap k s) = wrap k (fixupIntersections s).
Proof.
  induction k as [|k IH]; [done|]. cbn [wrap].
  rewrite fixupIntersections_parenthesized by apply parenthesized_wrap.
  by rewrite slice_wrap, IH.
Qed.

End FixupIntersections.

(** ** The normaliser on texts with explicit members *)

Section Normaliser.

Lemma plain_spec s c :
  plain s = true -> c ∈ s ->
  c <> BAR /\ c <> AMPERSAND /\ c <> LPAREN /\ c <> RPAREN.
Proof.
  unfold plain. rewrite forallb_forall. intros H Hc.
  apply list_elem_of_In, H in Hc.
  rewrite negb_true_iff, !orb_false_iff, !N.eqb_neq in Hc. tauto.
Qed.

Lemma wellFormedMember_spec m :
  wellFormedMember m = true ->
  atoms m <> [] /\ Forall (fun a => plain a = true) (atoms m).
Proof.
  unfold wellFormedMember. destruct (atoms m) as [|a l] eqn:E; [done|].
  intros H. split; [done|].
  apply Forall_forall. intros x Hx.
  rewrite forallb_forall in H. by apply H, list_elem_of_In.
Qed.

Lemma wellFormedMember_intro m :
  atoms m <> [] -> Forall (fun a => plain a = true) (atoms m) ->
  wellFormedMember m = true.
Proof.
  unfold wellFormedMember. destruct (atoms m) as [|a l] eqn:E; [done|].
  intros _ H. apply forallb_forall. intros x Hx.
  rewrite Forall_forall in H. by apply H, list_elem_of_In.
Qed.

Lemma wellFormed_spec ms :
  wellFormed ms = true ->
  ms <> [] /\ Forall (fun m => wellFormedMember m = true) ms.
Proof.
  unfold wellFormed. destruct ms as [|m l]; [done|].
  intros H. split; [done|].
  apply Forall_forall. intros x Hx.
  rewrite forallb_forall in H. by apply H, list_elem_of_In.
Qed.

Lemma elem_of_wrap c k s : c ∈ wrap k s -> c = LPAREN \/ c = RPAREN \/ c ∈ s.
Proof.
  induction k as [|k IH]; [by auto|]. cbn [wrap].
  change (js "(") with [LPAREN]. change (js ")") with [RPAREN].
  rewrite !elem_of_app, !list_elem_of_singleton. naive_solver.
Qed.

(** In the text of a member, [|] and [(] can only come from its
    parentheses and atoms. *)
Lemma elem_of_core c l :
  Forall (fun a => plain a = true) l ->
  c ∈ join intersection_splitter l -> c <> BAR /\ c <> LPAREN.
Proof.
  intros Hl Hc. apply elem_of_join in Hc as [Hc|(p & Hp & Hc)].
  - change intersection_splitter with [32%N; AMPERSAND; 32%N] in Hc.
    rewrite !elem_of_cons, elem_of_nil in Hc.
    unfold BAR, LPAREN, AMPERSAND in *. split; intros ->; naive_solver.
  - rewrite Forall_forall in Hl.
    destruct (plain_spec p c (Hl p Hp) Hc) as (? & ? & ? & ?). done.
Qed.

Lemma renderMember_no_bar m :
  wellFormedMember m = true -> BAR ∉ renderMember m.
Proof.
  intros [_ Hm]%wellFormedMember_spec Hc. unfold renderMember in Hc.
  apply elem_of_wrap in Hc as [Hc|[Hc|Hc]]; [done|done|].
  by destruct (elem_of_core _ _ Hm Hc).
Qed.

Lemma wellFormed_canonicalMember m :
  wellFormedMember m = true -> wellFormedMember (canonicalMember m) = true.
Proof.
  intros [Hne Hm]%wellFormedMember_spec. apply wellFormedMember_intro; cbn.
  - intros H. by apply sort_nil_inv in H.
  - by rewrite sort_Permutation.
Qed.

Lemma canonicalMember_idempotent m :
  canonicalMember (canonicalMember m) = canonicalMember m.
Proof. unfold canonicalMember. cbn. by rewrite sort_idempotent. Qed.

(** [fixupIntersections] sorts the atoms of a member. *)
Lemma fixupIntersections_member m :
  wellFormedMember m = true ->
  fixupIntersections (renderMember m) = renderMember (canonicalMember m).
Proof.
  intros [Hne Hm]%wellFormedMember_spec. unfold renderMember.
  cbn [parens atoms canonicalMember].
  rewrite fixupIntersections_wrap. f_equal.
  rewrite fixupIntersections_flat.
  - change intersection_splitter with [32%N; AMPERSAND; 32%N].
    rewrite split_join; [done|done|done|].
    eapply Forall_impl; [exact Hm|]. intros a Ha Hc.
    by destruct (plain_spec a _ Ha Hc) as (? & ? & ? & ?).
  - apply no_lparen_not_parenthesized. intros Hc.
    by destruct (elem_of_core _ _ Hm Hc).
Qed.

(** [fixupUnions] sorts the atoms of every member, then the members. *)
Lemma fixupUnions_renderUnion ms :
  wellFormed ms = true ->
  fixupUnions (renderUnion ms)
  = join union_splitter (sort (List.map renderMember (List.map canonicalMember ms))).
Proof.
  intros [Hne Hms]%wellFormed_spec. unfold fixupUnions, renderUnion.
  change union_splitter with [32%N; BAR; 32%N].
  rewrite split_join; [|done| |].
  - f_equal. f_equal. rewrite !List.map_map. apply map_ext_Forall.
    eapply Forall_impl; [exact Hms|]. intros m Hm. by apply fixupIntersections_member.
  - by destruct ms.
  - apply Forall_forall. intros p Hp.
    apply list_elem_of_In, in_map_iff in Hp as (m & <- & Hm).
    apply renderMember_no_bar. rewrite Forall_forall in Hms.
    by apply Hms, list_elem_of_In.
Qed.

End Normaliser.

Section NormaliserCanonical.

Lemma wellFormed_intro ms :
  ms <> [] -> Forall (fun m => wellFormedMember m = true) ms ->
  wellFormed ms = true.
Proof.
  unfold wellFormed. destruct ms as [|m l]; [done|].
  intros _ H. apply forallb_forall. intros x Hx.
  rewrite Forall_forall in H. by apply H, list_elem_of_In.
Qed.

Lemma fixupUnions_idempotent_renderUnion ms :
  wellFormed ms = true ->
  fixupUnions (fixupUnions (renderUnion ms)) = fixupUnions (renderUnion ms).
Proof.
  intros Hwf. rewrite fixupUnions_renderUnion by done.
  destruct (wellFormed_spec ms Hwf) as [Hne Hms].
  set (cms := List.map canonicalMember ms).
  pose proof (sort_Permutation (List.map renderMember cms)) as HP.
  apply Permutation_map_inv in HP as (ms2 & HL & Hperm).
  assert (Hcms : Forall (fun m => wellFormedMember m = true
                                  /\ canonicalMember m = m) cms).
  { subst cms. apply Forall_fmap. eapply Forall_impl; [exact Hms|].
    intros m Hm. cbn. split; [by apply wellFormed_canonicalMember|].
    apply canonicalMember_idempotent. }
  rewrite Hperm in Hcms.
  rewrite HL. change (join union_splitter (List.map renderMember ms2))
    with (renderUnion ms2).
  rewrite fixupUnions_renderUnion.
  - unfold renderUnion. f_equal.
    replace (List.map canonicalMember ms2) with ms2.
    + rewrite <- HL. apply sort_idempotent.
    + symmetry. rewrite <- (map_id ms2) at 2. apply map_ext_Forall.
      eapply Forall_impl; [exact Hcms|]. by intros m [_ ?].
  - apply wellFormed_intro.
    + intros ->. apply Permutation_nil_r in Hperm. subst cms.
      by destruct ms.
    + eapply Forall_impl; [exact Hcms|]. by intros m [? _].
Qed.

Lemma canonicalMember_Permutation m m' :
  parens m = parens m' -> atoms m ≡ₚ atoms m' ->
  canonicalMember m = canonicalMember m'.
Proof.
  intros Hp Ha. unfold canonicalMember. rewrite Hp. f_equal.
  by apply sort_unique.
Qed.

Lemma Reordered_canonical ms ms' :
  Reordered ms ms' ->
  List.map canonicalMember ms ≡ₚ List.map canonicalMember ms'.
Proof.
  intros (mid & Hmid & Hperm). rewrite <- Hperm.
  replace (List.map canonicalMember mid) with (List.map canonicalMember ms);
    [reflexivity|].
  clear Hperm. induction Hmid as [|m m' l l' [Hp Ha] _ IH]; [reflexivity|].
  cbn [List.map]. f_equal; [|exact IH].
  by apply canonicalMember_Permutation.
Qed.

Lemma Reordered_wellFormed ms ms' :
  wellFormed ms = true -> Reordered ms ms' -> wellFormed ms' = true.
Proof.
  intros [Hne Hms]%wellFormed_spec (mid & Hmid & Hperm).
  apply wellFormed_intro.
  - intros ->. apply Permutation_nil_r in Hperm. subst mid.
    inversion Hmid; by subst.
  - rewrite <- Hperm. clear Hperm Hne.
    induction Hmid as [|m m' l l' [Hp Ha] _ IH]; [done|].
    apply Forall_cons in Hms as [Hm Hms].
    apply Forall_cons. split; [|by apply IH].
    apply wellFormedMember_spec in Hm as [Hm1 Hm2].
    apply wellFormedMember_intro.
    + intros E. rewrite E in Ha. by apply Permutation_nil_r in Ha.
    + by rewrite <- Ha.
Qed.

Lemma fixupUnions_Reordered ms ms' :
  wellFormed ms = true -> Reordered ms ms' ->
  fixupUnions (renderUnion ms') = fixupUnions (renderUnion ms).
Proof.
  intros Hwf Hre.
  rewrite !fixupUnions_renderUnion by eauto using Reordered_wellFormed.
  f_equal. apply sort_unique. apply Permutation_map.
  symmetry. by apply Reordered_canonical.
Qed.

End NormaliserCanonical.

(** C2, as the code has it.  On a type text that is a list of members joined
    by [" | "], each member a list of atoms without [|], [&], [(] and [)]
    joined by [" & "] and enclosed as a whole in any number of pairs of
    parentheses, the normaliser is idempotent, and putting the members, or
    the atoms inside a member, in another order does not change its result;
    so [normalize("B | A") = normalize("A | B")] and
    [normalize("(A & B) | C") = normalize("C | (B & A)")]. *)
Theorem fixupUnions_canonical (ms ms' : list Member) :
  wellFormed ms = true ->
  Reordered ms ms' ->
  fixupUnions (fixupUnions (renderUnion ms)) = fixupUnions (renderUnion ms)
  /\ fixupUnions (renderUnion ms') = fixupUnions (renderUnion ms)
  /\ fixupUnions (js "B | A") = fixupUnions (js "A | B")
  /\ fixupUnions (js "(A & B) | C") = fixupUnions (js "C | (B & A)").
Proof.
  intros Hwf Hre. split; [|split; [|split]].
  - by apply fixupUnions_idempotent_renderUnion.
  - by apply fixupUnions_Reordered.
  - vm_compute. reflexivity.
  - vm_compute. reflexivity.
Qed.

Lemma fixupUnions_canonical_witness :
  let ms := [mkMember 1 [js "A"; js "B"]; mkMember 0 [js "C"]] in
  let ms' := [mkMember 0 [js "C"]; mkMember 1 [js "B"; js "A"]] in
  renderUnion ms = js "(A & B) | C"
  /\ renderUnion ms' = js "C | (B & A)"
  /\ fixupUnions (fixupUnions (renderUnion ms)) = fixupUnions (renderUnion ms)
  /\ fixupUnions (renderUnion ms') = fixupUnions (renderUnion ms).
Proof.
  intros ms ms'.
  split; [reflexivity|]. split; [reflexivity|].
  assert (Hwf : wellFormed ms = true) by reflexivity.
  assert (Hre : Reordered ms ms').
  { exists [mkMember 1 [js "B"; js "A"]; mkMember 0 [js "C"]]. split.
    - repeat constructor.
    - apply perm_swap. }
  destruct (fixupUnions_canonical ms ms' Hwf Hre) as (H1 & H2 & _).
  exact (conj H1 H2).
Defined.

(** C2, as stated, fails: the normaliser is not idempotent on every string.
    Sorting the pieces of ["(B | A) & (D | C)"] yields ["(B | (D & A) | C)"],
    whose second piece is now enclosed in parentheses and gets its own
    members sorted by the next pass. *)
Lemma fixupUnions_not_idempotent :
  fixupUnions (js "(B | A) & (D | C)") = js "(B | (D & A) | C)"
  /\ fixupUnions (fixupUnions (js "(B | A) & (D | C)")) = js "(A & D) | (B | C)"
  /\ fixupUnions (fixupUnions (js "(B | A) & (D | C)"))
     <> fixupUnions (js "(B | A) & (D | C)").
Proof. vm_compute. repeat split; congruence. Qed.

(** ** The directive grammar *)

Section DirectiveGrammar.

Lemma dotStar_verbatim s :
  forallb (fun u => negb (isLineTerminator u)) s = true -> dotStar s = s.
Proof.
  induction s as [|c s IH]; [done|]. cbn [forallb dotStar].
  rewrite andb_true_iff, negb_true_iff. intros [-> H]. by rewrite IH.
Qed.

Lemma matchDirective_Error c :
  matchDirective c = Some ExpectError <-> exists rest, c = js "// $ExpectError" ++ rest.
Proof.
  split.
  - unfold matchDirective.
    destruct (strip_prefix (js "// $Expect") c) as [r|] eqn:E1; [|done].
    destruct (strip_prefix (js "Type ") r) as [r'|] eqn:E2; [done|].
    destruct (strip_prefix (js "Error") r) as [r'|] eqn:E3; [|done].
    intros _. apply strip_prefix_Some in E1, E3. subst. by exists r'.
  - intros [rest ->]. reflexivity.
Qed.

Lemma matchDirective_Type c t :
  matchDirective c = Some (ExpectType t)
  <-> exists rest, c = js "// $ExpectType " ++ rest /\ t = dotStar rest.
Proof.
  split.
  - unfold matchDirective.
    destruct (strip_prefix (js "// $Expect") c) as [r|] eqn:E1; [|done].
    destruct (strip_prefix (js "Type ") r) as [r'|] eqn:E2.
    + intros [= <-]. apply strip_prefix_Some in E1, E2. subst. by exists r'.
    + by destruct (strip_prefix (js "Error") r).
  - intros (rest & -> & ->). reflexivity.
Qed.

Lemma matchDirective_None c :
  matchDirective c = None
  <-> startsWith c (js "// $ExpectType ") = false
      /\ startsWith c (js "// $ExpectError") = false.
Proof.
  destruct (matchDirective c) as [[t|]|] eqn:E.
  - apply matchDirective_Type in E as (rest & -> & _). split; [done|]. by intros [? _].
  - apply matchDirective_Error in E as (rest & ->). split; [done|]. by intros [_ ?].
  - split; [intros _|done]. unfold startsWith. split.
    + destruct (strip_prefix (js "// $ExpectType ") c) as [r|] eqn:E1; [|done].
      apply strip_prefix_Some in E1. subst c. done.
    + destruct (strip_prefix (js "// $ExpectError") c) as [r|] eqn:E1; [|done].
      apply strip_prefix_Some in E1. subst c. done.
Qed.

End DirectiveGrammar.

(** C8, as the code has it.  A single-line comment (its text has no line
    terminator) is recognised as a directive if and only if its text begins
    with [// $ExpectType ] or with [// $ExpectError]: the pattern is anchored
    at the start of the comment only.  For [$ExpectType] the expected type is
    all of the text after [// $ExpectType ], up to the end of the comment;
    whatever follows [// $ExpectError] is ignored.  A comment that begins
    with neither, so any with something before [// $Expect], is not a
    directive and leaves the scanner's state as it is. *)
Theorem matchDirective_grammar (c : jsstring) :
  forallb (fun u => negb (isLineTerminator u)) c = true ->
  (matchDirective c = Some ExpectError
     <-> exists rest, c = js "// $ExpectError" ++ rest)
  /\ (forall t, matchDirective c = Some (ExpectType t)
                <-> c = js "// $ExpectType " ++ t)
  /\ (matchDirective c = None
      <-> startsWith c (js "// $ExpectType ") = false
          /\ startsWith c (js "// $ExpectError") = false)
  /\ (matchDirective c = None ->
      forall lineStarts pos st,
        scanToken lineStarts (mkToken SingleLineCommentTrivia pos c) st = st).
Proof.
  intros Hc. split; [apply matchDirective_Error|]. split; [|split].
  - intros t. rewrite matchDirective_Type. split.
    + intros (rest & -> & ->).
      change (js "// $ExpectType " ++ rest)
        with (js "// $ExpectType" ++ 32%N :: rest) in Hc.
      rewrite forallb_app in Hc. apply andb_true_iff in Hc as [_ Hc].
      apply andb_true_iff in Hc as [_ Hc]. by rewrite dotStar_verbatim.
    + intros ->. exists t. split; [done|].
      change (js "// $ExpectType " ++ t)
        with (js "// $ExpectType" ++ 32%N :: t) in Hc.
      rewrite forallb_app in Hc. apply andb_true_iff in Hc as [_ Hc].
      apply andb_true_iff in Hc as [_ Hc]. by rewrite dotStar_verbatim.
  - apply matchDirective_None.
  - intros E lineStarts pos st. unfold scanToken. cbn. by rewrite E.
Qed.

Lemma matchDirective_grammar_witness :
  matchDirective (js "// $ExpectType number") = Some (ExpectType (js "number"))
  /\ matchDirective (js "// $ExpectError") = Some ExpectError
  /\ matchDirective (js "/// $ExpectError") = None.
Proof.
  assert (H1 : forallb (fun u => negb (isLineTerminator u))
                 (js "// $ExpectType number") = true) by reflexivity.
  assert (H2 : forallb (fun u => negb (isLineTerminator u))
                 (js "// $ExpectError") = true) by reflexivity.
  assert (H3 : forallb (fun u => negb (isLineTerminator u))
                 (js "/// $ExpectError") = true) by reflexivity.
  split; [|split].
  - apply (proj1 (proj2 (matchDirective_grammar _ H1))). reflexivity.
  - apply (proj1 (matchDirective_grammar _ H2)). exists []. reflexivity.
  - apply (proj1 (proj2 (proj2 (matchDirective_grammar _ H3)))). split; reflexivity.
Defined.

(** C8, as stated, fails: a comment with more text after [$ExpectError] is
    recognised, although it is neither exactly [// $ExpectError] nor of the
    form [// $ExpectType <text>]. *)
Lemma matchDirective_suffix_recognised :
  matchDirective (js "// $ExpectError foo") = Some ExpectError
  /\ js "// $ExpectError foo" <> js "// $ExpectError"
  /\ ~ (exists t, js "// $ExpectError foo" = js "// $ExpectType " ++ t).
Proof.
  split; [reflexivity|]. split; [discriminate|]. intros [t H]. discriminate H.
Qed.

(** ** The line map *)

Section LineMap.

Lemma strictlyIncreasing_tail a l :
  strictlyIncreasing (a :: l) = true -> strictlyIncreasing l = true.
Proof.
  destruct l as [|b l]; [done|]. cbn [strictlyIncreasing].
  by intros [_ ?]%andb_true_iff.
Qed.

Lemma strictlyIncreasing_lt a l s :
  strictlyIncreasing (a :: l) = true -> In s l -> a < s.
Proof.
  revert a. induction l as [|b l IH]; intros a H Hs; [done|].
  cbn [strictlyIncreasing] in H. apply andb_true_iff in H as [Hab H].
  apply Z.ltb_lt in Hab. destruct Hs as [->|Hs]; [done|].
  specialize (IH b H Hs). lia.
Qed.

Lemma filter_le_index l p k s :
  strictlyIncreasing l = true -> nth_error l k = Some s ->
  s <= p <-> (k < length (List.filter (fun s => (s <=? p)%Z) l))%nat.
Proof.
  revert k. induction l as [|x l IH]; intros k Hl Hk; [by destruct k|].
  pose proof (strictlyIncreasing_tail _ _ Hl) as Hl'.
  cbn [List.filter]. destruct (Z.leb_spec x p) as [Hx|Hx].
  - destruct k as [|k]; cbn in *.
    + injection Hk as <-. split; [lia|done].
    + rewrite (IH k Hl' Hk). lia.
  - assert (E : List.filter (fun s => s <=? p) l = []).
    { clear IH Hk. induction l as [|y l IH]; [done|].
      cbn [List.filter].
      pose proof (strictlyIncreasing_lt _ _ y Hl (or_introl eq_refl)).
      destruct (Z.leb_spec y p); [lia|].
      apply IH.
      - destruct l as [|z l]; [done|]. cbn [strictlyIncreasing] in *.
        apply andb_true_iff in Hl as [_ Hl].
        apply andb_true_iff in Hl as [Hyz Hl]. apply andb_true_iff in Hl' as [_ Hl'].
        apply andb_true_iff. split; [|done].
        apply Z.ltb_lt. apply Z.ltb_lt in Hyz. lia.
      - by apply strictlyIncreasing_tail in Hl'. }
    rewrite E. cbn [length]. split; [|lia].
    destruct k as [|k]; cbn in Hk.
    + injection Hk as <-. lia.
    + apply nth_error_In in Hk.
      pose proof (strictlyIncreasing_lt _ _ s Hl Hk). lia.
Qed.

(** The entry after line [k] is at or before [p] exactly when [k] is
    before the line of [p]. *)
Lemma lineIndex_lt ls p k s :
  strictlyIncreasing ls = true -> nth_error ls (S k) = Some s ->
  s <= p <-> (k < lineIndex ls p)%nat.
Proof.
  intros Hls Hk. unfold lineIndex. destruct ls as [|a l]; [done|].
  apply filter_le_index; [|done]. by apply strictlyIncreasing_tail in Hls.
Qed.

Lemma lineIndex_bound ls p : (lineIndex ls p <= length ls - 1)%nat.
Proof.
  unfold lineIndex. destruct ls as [|a l]; [done|]. cbn [tl length].
  pose proof (filter_length_le (fun s => s <=? p) l). lia.
Qed.

Lemma lineIndex_mono ls p q : p <= q -> (lineIndex ls p <= lineIndex ls q)%nat.
Proof.
  intros Hpq. unfold lineIndex. induction (tl ls) as [|x l IH]; [done|].
  cbn [List.filter].
  destruct (Z.leb_spec x p), (Z.leb_spec x q); cbn [length]; lia.
Qed.

Lemma lineIndex_start ls p :
  lineMapOk ls = true -> 0 <= p ->
  exists s, nth_error ls (lineIndex ls p) = Some s /\ s <= p.
Proof.
  intros Hok Hp. unfold lineMapOk in Hok.
  destruct ls as [|z l]; [done|]. destruct z; try done.
  destruct (lineIndex (0 :: l) p) as [|k] eqn:E.
  - exists 0. done.
  - pose proof (lineIndex_bound (0 :: l) p) as Hb. rewrite E in Hb.
    destruct (nth_error (0 :: l) (S k)) as [s|] eqn:Hs.
    + exists s. split; [done|]. apply (lineIndex_lt _ _ _ _ Hok Hs). lia.
    + apply nth_error_None in Hs. lia.
Qed.

(** A position at or before [q] is on the line of [q] exactly when it is
    at or after the start of that line. *)
Lemma lineIndex_same_line ls p q s :
  lineMapOk ls = true -> 0 <= p -> p <= q ->
  nth_error ls (lineIndex ls q) = Some s ->
  lineIndex ls p = lineIndex ls q <-> s <= p.
Proof.
  intros Hok Hp Hpq Hs. pose proof (lineIndex_mono ls p q Hpq) as Hm.
  assert (Hinc : strictlyIncreasing ls = true).
  { unfold lineMapOk in Hok. destruct ls as [|[] ?]; done. }
  destruct (lineIndex ls q) as [|k] eqn:E.
  - assert (s = 0) as ->.
    { unfold lineMapOk in Hok. destruct ls as [|[] ?]; try done.
      cbn in Hs. congruence. }
    split; [done|lia].
  - rewrite (lineIndex_lt _ p _ _ Hinc Hs). lia.
Qed.

Lemma advanceLine_lineIndex fuel ls cur p :
  strictlyIncreasing ls = true ->
  (cur <= lineIndex ls p)%nat -> (lineIndex ls p - cur <= fuel)%nat ->
  advanceLine fuel ls cur p = lineIndex ls p.
Proof.
  intros Hls. revert cur. induction fuel as [|fuel IH]; intros cur Hc Hf.
  - cbn. lia.
  - cbn [advanceLine]. replace (cur + 1)%nat with (S cur) by lia.
    destruct (nth_error ls (S cur)) as [s|] eqn:Hs.
    + pose proof (lineIndex_lt _ p _ _ Hls Hs) as Hlt.
      destruct (Z.leb_spec s p).
      * apply IH; lia.
      * lia.
    + apply nth_error_None in Hs.
      pose proof (lineIndex_bound ls p). lia.
Qed.

End LineMap.

(** ** The scanner loop *)

Section ScanLoop.

#[local] Arguments getLine : simpl never.

Lemma scanLoop_app ls pre post st :
  forallb (fun t => negb (isEndOfFile (tokenKind t))) pre = true ->
  scanLoop ls (pre ++ post) st = scanLoop ls post (scanLoop ls pre st).
Proof.
  revert st. induction pre as [|t pre IH]; intros st H; [done|].
  cbn [forallb] in H. apply andb_true_iff in H as [Ht H].
  cbn [app scanLoop]. destruct (tokenKind t); try done; by apply IH.
Qed.

Lemma scanToken_prevTokenPos ls t st :
  prevTokenPos (scanToken ls t st)
  = if countsAsToken (tokenKind t) || isEndOfFile (tokenKind t)
    then tokenPos t else prevTokenPos st.
Proof.
  unfold scanToken. destruct (tokenKind t); try done.
  destruct (matchDirective (tokenText t)); [|done].
  match goal with |- context [getLine ?a ?b ?c ?d] => by destruct (getLine a b c d) end.
Qed.

Lemma scanToken_curLine ls t st :
  curLine (scanToken ls t st) = curLine st
  \/ curLine (scanToken ls t st)
     = snd (getLine ls (prevTokenPos st) (curLine st) (tokenPos t)).
Proof.
  unfold scanToken. destruct (tokenKind t); try by left.
  destruct (matchDirective (tokenText t)); [|by left].
  match goal with |- context [getLine ?a ?b ?c ?d] => destruct (getLine a b c d) end.
  by right.
Qed.

Lemma scanLoop_prevTokenPos ls pre st :
  forallb (fun t => negb (isEndOfFile (tokenKind t))) pre = true ->
  prevTokenPos (scanLoop ls pre st) = lastTokenPos (prevTokenPos st) pre.
Proof.
  unfold lastTokenPos.
  revert st. induction pre as [|t pre IH]; intros st H; [done|].
  cbn [forallb] in H. apply andb_true_iff in H as [Ht H].
  cbn [scanLoop fold_left].
  destruct (isEndOfFile (tokenKind t)) eqn:Eeof; [done|].
  assert (E : scanLoop ls pre (scanToken ls t st)
              = match tokenKind t with
                | EndOfFileToken => st
                | _ => scanLoop ls pre (scanToken ls t st)
                end) by (by destruct (tokenKind t)).
  rewrite <- E, (IH _ H), scanToken_prevTokenPos, Eeof, orb_false_r. done.
Qed.

(** [getLine] on a line map in order, when [curLine] has not passed the
    line of [pos]. *)
Lemma getLine_lineIndex ls prev cur p s :
  lineMapOk ls = true -> (cur <= lineIndex ls p)%nat ->
  nth_error ls (lineIndex ls p) = Some s ->
  getLine ls prev cur p
  = (if prev <? s then S (lineIndex ls p) else lineIndex ls p, lineIndex ls p).
Proof.
  intros Hok Hc Hs. unfold getLine.
  assert (Hinc : strictlyIncreasing ls = true).
  { unfold lineMapOk in Hok. destruct ls as [|[] ?]; done. }
  rewrite advanceLine_lineIndex; [|done|done|].
  - rewrite Hs. destruct (prev <? s); f_equal; lia.
  - pose proof (lineIndex_bound ls p). lia.
Qed.

Lemma scanLoop_curLine ls pre t st lo :
  lineMapOk ls = true ->
  positionsOk lo (pre ++ [t]) = true -> 0 <= lo ->
  (curLine st <= lineIndex ls lo)%nat ->
  (curLine (scanLoop ls pre st) <= lineIndex ls (tokenPos t))%nat.
Proof.
  intros Hok. revert st lo. induction pre as [|t0 pre IH]; intros st lo Hp Hlo Hc.
  - cbn in *. apply andb_true_iff in Hp as [Hp _]. apply Z.leb_le in Hp.
    pose proof (lineIndex_mono ls lo (tokenPos t) Hp). lia.
  - cbn [app positionsOk] in Hp. apply andb_true_iff in Hp as [H0 Hp].
    apply Z.leb_le in H0.
    pose proof (lineIndex_mono ls lo (tokenPos t0) H0) as Hm.
    cbn [scanLoop].
    assert (Hstep : (curLine (scanToken ls t0 st) <= lineIndex ls (tokenPos t0))%nat).
    { destruct (scanToken_curLine ls t0 st) as [->| ->]; [lia|].
      destruct (lineIndex_start ls (tokenPos t0) Hok) as (s & Hs & _); [lia|].
      rewrite (getLine_lineIndex _ _ _ _ s Hok) by (done || lia). cbn. lia. }
    destruct (tokenKind t0) eqn:Ek;
      try (apply (IH _ (tokenPos t0)); [done|lia|done]).
    (* end of file: the loop stops, [st] is the result *)
    clear IH Hstep.
    assert (tokenPos t0 <= tokenPos t).
    { clear -Hp. revert Hp. generalize (tokenPos t0).
      induction pre as [|t1 pre IH]; intros z Hp; cbn in Hp;
        apply andb_true_iff in Hp as [H1 Hp]; apply Z.leb_le in H1; [done|].
      specialize (IH _ Hp). lia. }
    pose proof (lineIndex_mono ls (tokenPos t0) (tokenPos t) H). lia.
Qed.

Lemma lastTokenPos_ge pre s init lo :
  positionsOk lo pre = true -> init <= lo ->
  s <= lastTokenPos init pre
  <-> s <= init
      \/ existsb (fun t => countsAsToken (tokenKind t) && (s <=? tokenPos t)) pre = true.
Proof.
  unfold lastTokenPos.
  revert init lo. induction pre as [|t pre IH]; intros init lo Hp Hi.
  - cbn. split; [by left|]. by intros [?|?].
  - cbn [positionsOk] in Hp. apply andb_true_iff in Hp as [H0 Hp].
    apply Z.leb_le in H0. cbn [fold_left existsb].
    destruct (countsAsToken (tokenKind t)); cbn [andb].
    + rewrite (IH (tokenPos t) (tokenPos t) Hp) by lia.
      rewrite orb_true_iff, Z.leb_le. split; [tauto|].
      intros [?|[?|?]]; auto. left. lia.
    + rewrite (IH init (tokenPos t) Hp) by lia. done.
Qed.

Lemma positionsOk_bounds lo pre t t' :
  positionsOk lo (pre ++ [t]) = true -> In t' pre ->
  lo <= tokenPos t' <= tokenPos t.
Proof.
  revert lo. induction pre as [|t0 pre IH]; intros lo Hp Hin; [done|].
  cbn [app positionsOk] in Hp. apply andb_true_iff in Hp as [H0 Hp].
  apply Z.leb_le in H0. destruct Hin as [->|Hin].
  - split; [done|]. clear -Hp. revert Hp. generalize (tokenPos t').
    induction pre as [|t1 pre IH]; intros z Hp; cbn in Hp;
      apply andb_true_iff in Hp as [H1 Hp]; apply Z.leb_le in H1; [done|].
    specialize (IH _ Hp). lia.
  - specialize (IH _ Hp Hin). lia.
Qed.

Lemma positionsOk_prefix lo pre post :
  positionsOk lo (pre ++ post) = true -> positionsOk lo pre = true.
Proof.
  revert lo. induction pre as [|t0 pre IH]; intros lo Hp; [done|].
  cbn [app positionsOk] in *. apply andb_true_iff in Hp as [H0 Hp].
  apply andb_true_iff. split; [done|]. by apply IH.
Qed.

(** The line [getLine] returns, in terms of the tokens before the
    comment. *)
Lemma getLine_applicableLine source pre t :
  lineMapOk (lineStarts source) = true ->
  positionsOk 0 (pre ++ [t]) = true ->
  forallb (fun t' => negb (isEndOfFile (tokenKind t'))) pre = true ->
  let before := scanLoop (lineStarts source) pre initialScanState in
  getLine (lineStarts source) (prevTokenPos before) (curLine before) (tokenPos t)
  = (applicableLine source pre (tokenPos t), lineOfPosition (tokenPos t) source).
Proof.
  intros Hok Hp Heof before.
  assert (Ht : 0 <= tokenPos t).
  { clear -Hp. revert Hp. generalize 0.
    induction pre as [|t1 pre IH]; intros z Hp; cbn in Hp;
      apply andb_true_iff in Hp as [H1 Hp]; apply Z.leb_le in H1; [done|].
    specialize (IH _ Hp). lia. }
  destruct (lineIndex_start _ _ Hok Ht) as (s & Hs & Hsp).
  rewrite (getLine_lineIndex _ _ _ _ s Hok); [| |done].
  2:{ apply (scanLoop_curLine _ _ _ _ 0); [done|done|lia|cbn; lia]. }
  unfold applicableLine, lineOfPosition. f_equal.
  subst before. rewrite scanLoop_prevTokenPos by done.
  cbn [prevTokenPos initialScanState].
  assert (Hs0 : 0 <= s).
  { destruct (lineIndex (lineStarts source) (tokenPos t)) as [|k] eqn:E.
    - unfold lineMapOk in Hok. destruct (lineStarts source) as [|[] ?]; try done.
      cbn in Hs. injection Hs as <-. lia.
    - assert (Hinc : strictlyIncreasing (lineStarts source) = true).
      { unfold lineMapOk in Hok. destruct (lineStarts source) as [|[] ?]; done. }
      unfold lineMapOk in Hok. destruct (lineStarts source) as [|[] l]; try done.
      cbn in Hs. apply nth_error_In in Hs.
      pose proof (strictlyIncreasing_lt _ _ _ Hinc Hs). lia. }
  pose proof (lastTokenPos_ge pre s (-1) 0 (positionsOk_prefix _ _ _ Hp) ltac:(lia))
    as Hge.
  match goal with |- context [existsb ?f pre] => set (onLine := f) end.
  assert (Hex : existsb onLine pre
                = existsb (fun t' => countsAsToken (tokenKind t') && (s <=? tokenPos t')) pre).
  { clear Hge. apply eq_true_iff_eq. rewrite !existsb_exists.
    split; intros (t' & Hin & Ht'); exists t'; (split; [done|]);
      destruct (positionsOk_bounds _ _ _ _ Hp Hin) as [Hl Hu];
      pose proof (lineIndex_same_line _ _ _ _ Hok Hl Hu Hs) as Hsame;
      subst onLine; cbn in *;
      apply andb_true_iff in Ht' as [Hc Hline]; apply andb_true_iff; (split; [done|]).
    - apply Nat.eqb_eq in Hline. apply Z.leb_le. by apply Hsame.
    - apply Z.leb_le in Hline. apply Nat.eqb_eq. by apply Hsame. }
  rewrite Hex.
  destruct (existsb _ pre) eqn:Eex.
  - destruct (Z.ltb_spec (lastTokenPos (-1) pre) s) as [Hlt|Hle]; [|done].
    exfalso. assert (s <= lastTokenPos (-1) pre) by (apply Hge; by right). lia.
  - destruct (Z.ltb_spec (lastTokenPos (-1) pre) s) as [Hlt|Hle]; [done|].
    apply Hge in Hle as [?|?]; [lia|congruence].
Qed.

End ScanLoop.

(** C7, as the code has it.  The scanner gives a recognised directive
    comment its applicable line as follows: if no token other than white
    space and single-line comments starts before it on its own line (block
    comments and line breaks are tokens here), the assertion applies to the
    next line; otherwise it applies to the comment's own line, where the
    preceding such token starts.  In particular [// $ExpectType number] on
    its own line directly above [const x = 1;] applies to the line of
    [const x = 1;]. *)
Theorem comment_applicable_line
    (source : SourceFile) (pre post : list Token) (t : Token) (d : Directive) :
  lineMapOk (lineStarts source) = true ->
  tokens source = pre ++ t :: post ->
  positionsOk 0 (pre ++ [t]) = true ->
  forallb (fun t' => negb (isEndOfFile (tokenKind t'))) pre = true ->
  tokenKind t = SingleLineCommentTrivia ->
  matchDirective (tokenText t) = Some d ->
  let before := scanLoop (lineStarts source) pre initialScanState in
  parseAssertions source
  = found (scanLoop (lineStarts source) post
             (mkScanState
                (recordDirective d (applicableLine source pre (tokenPos t))
                   (found before))
                (prevTokenPos before)
                (lineOfPosition (tokenPos t) source)))
  /\ typeAssertions (parseAssertions Examples.commentAbove) = [(1%nat, js "number")].
Proof.
  intros Hok Htokens Hpos Heof Hkind Hmatch before. split; [|reflexivity].
  unfold parseAssertions. rewrite Htokens, scanLoop_app by done.
  fold before. cbn [scanLoop]. rewrite Hkind. do 2 f_equal.
  unfold scanToken. rewrite Hkind, Hmatch.
  subst before. by rewrite getLine_applicableLine.
Qed.

Lemma comment_applicable_line_witness :
  typeAssertions (parseAssertions Examples.commentTrailing) = [(0%nat, js "number")].
Proof.
  set (source := Examples.commentTrailing).
  pose (pre := firstn 9 (tokens source)).
  pose (t := Examples.tok SingleLineCommentTrivia 13 "// $ExpectType number").
  pose (post := [Examples.tok EndOfFileToken 34 ""]).
  assert (H1 : lineMapOk (lineStarts source) = true) by reflexivity.
  assert (H2 : tokens source = pre ++ t :: post) by reflexivity.
  assert (H3 : positionsOk 0 (pre ++ [t]) = true) by reflexivity.
  assert (H4 : forallb (fun t' => negb (isEndOfFile (tokenKind t'))) pre = true)
    by reflexivity.
  assert (H5 : tokenKind t = SingleLineCommentTrivia) by reflexivity.
  assert (H6 : matchDirective (tokenText t) = Some (ExpectType (js "number")))
    by reflexivity.
  destruct (comment_applicable_line source pre post t _ H1 H2 H3 H4 H5 H6) as [H _].
  rewrite H. reflexivity.
Defined.

(** C7, as stated, fails: in [/* c */ // $ExpectError] no token that is not
    trivia comes before the directive on its line, so the assertion should
    apply to the next line, line 1; the scanner counts the block comment as
    a token and applies it to line 0. *)
Lemma comment_after_block_comment :
  let source := Examples.afterBlockComment in
  let pre := firstn 2 (tokens source) in
  forallb (fun t => isTrivia (tokenKind t)) pre = true
  /\ claimedApplicableLine source pre 8 = 1%nat
  /\ errorLines (parseAssertions source) = [0%nat].
Proof. repeat split. Qed.

(** ** Maps and sets in insertion order *)

Section ContainerFacts.
Context {K V : Type} `{EqDecision K}.
Implicit Types (m : list (K * V)) (s : list K).

Lemma map_get_set k k' v m :
  map_get k (map_set k' v m) = if decide (k = k') then Some v else map_get k m.
Proof.
  induction m as [|[k0 v0] m IH]; cbn.
  - by destruct (decide (k = k')).
  - destruct (decide (k' = k0)) as [->|Hne]; cbn.
    + destruct (decide (k = k0)); done.
    + destruct (decide (k = k0)) as [->|]; [|done].
      destruct (decide (k0 = k')); [congruence|done].
Qed.

Lemma map_get_None_keys k m : map_get k m = None <-> ~ In k (map_keys m).
Proof.
  induction m as [|[k0 v0] m IH]; cbn; [tauto|].
  destruct (decide (k = k0)) as [->|Hne].
  - split; [done|]. intros H. exfalso. apply H. by left.
  - rewrite IH. split; [intros H [?|?]; [congruence|done]|]. tauto.
Qed.

Lemma map_delete_there k m :
  snd (map_delete k m) = match map_get k m with Some _ => true | None => false end.
Proof.
  induction m as [|[k0 v0] m IH]; cbn; [done|].
  destruct (decide (k = k0)); [done|].
  destruct (map_delete k m). done.
Qed.

Lemma map_delete_keys k k' m :
  In k (map_keys (fst (map_delete k' m))) -> In k (map_keys m).
Proof.
  induction m as [|[k0 v0] m IH]; cbn; [done|].
  destruct (decide (k' = k0)); [by right|].
  destruct (map_delete k' m). cbn in *. intros [?|?]; [by left|right; auto].
Qed.

Lemma map_delete_NoDup k m :
  NoDup (map_keys m) -> NoDup (map_keys (fst (map_delete k m))).
Proof.
  induction m as [|[k0 v0] m IH]; cbn; [done|].
  rewrite NoDup_cons. intros [Hk0 Hm].
  destruct (decide (k = k0)); [done|].
  pose proof (map_delete_keys k0 k m) as Hsub.
  destruct (map_delete k m). cbn in *.
  apply NoDup_cons. rewrite <- list_elem_of_In in *. split; [|by apply IH].
  rewrite list_elem_of_In in *. auto.
Qed.

Lemma map_get_delete k k' m :
  NoDup (map_keys m) ->
  map_get k (fst (map_delete k' m))
  = if decide (k = k') then None else map_get k m.
Proof.
  induction m as [|[k0 v0] m IH]; cbn.
  - by destruct (decide (k = k')).
  - rewrite NoDup_cons. intros [Hk0 Hm].
    destruct (decide (k' = k0)) as [->|Hne].
    + cbn. destruct (decide (k = k0)) as [->|]; [|done].
      apply map_get_None_keys. by rewrite <- list_elem_of_In.
    + specialize (IH Hm). destruct (map_delete k' m). cbn in *.
      destruct (decide (k = k0)) as [->|]; [|done].
      destruct (decide (k0 = k')); [congruence|done].
Qed.

Lemma map_set_keys k k' v m :
  In k (map_keys (map_set k' v m)) <-> k = k' \/ In k (map_keys m).
Proof.
  induction m as [|[k0 v0] m IH]; cbn; [naive_solver|].
  destruct (decide (k' = k0)) as [->|]; cbn; [naive_solver|].
  rewrite IH. naive_solver.
Qed.

Lemma map_set_NoDup k v m :
  NoDup (map_keys m) -> NoDup (map_keys (map_set k v m)).
Proof.
  induction m as [|[k0 v0] m IH]; cbn.
  - intros _. apply NoDup_singleton.
  - rewrite NoDup_cons, list_elem_of_In. intros [Hk0 Hm].
    destruct (decide (k = k0)) as [->|Hne]; cbn.
    + apply NoDup_cons. by rewrite list_elem_of_In.
    + apply NoDup_cons. rewrite list_elem_of_In. split; [|by apply IH].
      intros Hin. apply (map_set_keys k0 k v m) in Hin. naive_solver.
Qed.

Lemma set_has_In k s : set_has k s = true <-> In k s.
Proof.
  induction s as [|k0 s IH]; cbn; [done|].
  destruct (decide (k = k0)) as [->|]; [naive_solver|].
  rewrite IH. naive_solver.
Qed.

Lemma set_add_In k k' s : In k (set_add k' s) <-> k = k' \/ In k s.
Proof.
  unfold set_add. destruct (set_has k' s) eqn:E.
  - apply set_has_In in E. naive_solver.
  - rewrite in_app_iff. cbn. naive_solver.
Qed.

Lemma set_has_add k k' s :
  set_has k (set_add k' s) = if decide (k = k') then true else set_has k s.
Proof.
  apply eq_true_iff_eq. rewrite set_has_In, set_add_In.
  destruct (decide (k = k')).
  - naive_solver.
  - rewrite set_has_In. naive_solver.
Qed.


End ContainerFacts.

(** ** What the scanner records *)

Section Recorded.

#[local] Arguments getLine : simpl never.

(** The scanner records the directives of the file, one after the other. *)
Lemma scanLoop_directives ls ts st :
  found (scanLoop ls ts st)
  = recordAll (scanDirectives ls ts (prevTokenPos st) (curLine st)) (found st).
Proof.
  revert st. induction ts as [|t ts IH]; intros st; [done|].
  cbn [scanLoop scanDirectives]. unfold scanToken.
  destruct (tokenKind t); try done; try (rewrite IH; done).
  destruct (matchDirective (tokenText t)) as [d|]; [|by rewrite IH].
  destruct (getLine ls (prevTokenPos st) (curLine st) (tokenPos t)) as [line cur'].
  by rewrite IH.
Qed.

Lemma parseAssertions_directives source :
  parseAssertions source = recordAll (directives source) (mkAssertions [] [] []).
Proof. unfold parseAssertions. by rewrite scanLoop_directives. Qed.

Lemma map_get_delete_ne {V} (k k' : nat) (m : list (nat * V)) :
  k <> k' -> map_get k (fst (map_delete k' m)) = map_get k m.
Proof.
  intros Hne. induction m as [|[k0 v0] m IH]; cbn; [done|].
  destruct (decide (k' = k0)) as [->|].
  - cbn. destruct (decide (k = k0)); [congruence|done].
  - destruct (map_delete k' m). cbn in *. by rewrite IH.
Qed.

Lemma count_occ_snoc (l : list nat) x y :
  count_occ Nat.eq_dec (l ++ [x]) y
  = (count_occ Nat.eq_dec l y + if decide (x = y) then 1 else 0)%nat.
Proof.
  rewrite count_occ_app. cbn.
  destruct (Nat.eq_dec x y), (decide (x = y)); done.
Qed.

Lemma recordDirective_NoDup d l a :
  NoDup (map_keys (typeAssertions a)) ->
  NoDup (map_keys (typeAssertions (recordDirective d l a))).
Proof.
  intros Ha. destruct d as [t|]; cbn [recordDirective]; [|done].
  pose proof (map_delete_NoDup l _ Ha) as Hd.
  destruct (map_delete l (typeAssertions a)) as [deleted []]; cbn in *; [done|].
  by apply map_set_NoDup.
Qed.

(** One directive, seen from a line. *)
Lemma recordDirective_line d l line a :
  NoDup (map_keys (typeAssertions a)) ->
  let a' := recordDirective d l a in
  let here := bool_decide (l = line) in
  set_has line (errorLines a')
  = set_has line (errorLines a) || (here && negb (isExpectType d))
  /\ pendingAt line a' = xorb (pendingAt line a) (here && isExpectType d)
  /\ count_occ Nat.eq_dec (duplicates a') line
     = (count_occ Nat.eq_dec (duplicates a) line
        + if here && (if isExpectType d then pendingAt line a
                      else set_has line (errorLines a))
          then 1 else 0)%nat.
Proof.
  intros Ha a' here. subst a' here. unfold pendingAt.
  destruct d as [t|]; cbn [recordDirective isExpectType negb].
  - pose proof (map_delete_there l (typeAssertions a)) as Hthere.
    pose proof (map_get_delete line l _ Ha) as Hget.
    destruct (map_delete l (typeAssertions a)) as [deleted there]. cbn in Hthere, Hget.
    rewrite andb_false_r, orb_false_r, andb_true_r.
    destruct there; cbn [errorLines typeAssertions duplicates].
    + rewrite Hget, count_occ_snoc.
      case_bool_decide as Hl; [subst l|].
      * rewrite !decide_True by done.
        destruct (map_get line (typeAssertions a)); done.
      * rewrite !decide_False by congruence. cbn.
        rewrite xorb_false_r. split; [done|]. split; [done|lia].
    + rewrite map_get_set.
      case_bool_decide as Hl; [subst l|].
      * rewrite !decide_True by done.
        destruct (map_get line (typeAssertions a)); [done|]. cbn. repeat split; lia.
      * rewrite decide_False by congruence. cbn.
        rewrite xorb_false_r. repeat split; lia.
  - cbn [errorLines typeAssertions duplicates].
    rewrite andb_false_r, xorb_false_r, andb_true_r, set_has_add.
    case_bool_decide as Hl; [subst l|].
    + rewrite decide_True by done. rewrite orb_true_r. cbn [andb].
      destruct (set_has line (errorLines a)).
      * rewrite count_occ_snoc, decide_True by done. done.
      * repeat split; lia.
    + rewrite decide_False by congruence. rewrite orb_false_r. cbn [andb].
      destruct (set_has l (errorLines a)).
      * rewrite count_occ_snoc, decide_False by done. repeat split; lia.
      * repeat split; lia.
Qed.

Lemma countExpectError_cons line l d ds :
  countExpectError line ((l, d) :: ds)
  = ((if bool_decide (l = line) && negb (isExpectType d) then 1 else 0)
     + countExpectError line ds)%nat.
Proof.
  unfold countExpectError. cbn [List.filter fst snd].
  destruct (Nat.eqb_spec l line); case_bool_decide; try done;
    by destruct (isExpectType d).
Qed.

Lemma countExpectType_cons line l d ds :
  countExpectType line ((l, d) :: ds)
  = ((if bool_decide (l = line) && isExpectType d then 1 else 0)
     + countExpectType line ds)%nat.
Proof.
  unfold countExpectType. cbn [List.filter fst snd].
  destruct (Nat.eqb_spec l line); case_bool_decide; try done;
    by destruct (isExpectType d).
Qed.

(** All the directives, seen from a line. *)
Lemma recordAll_line ds a line :
  NoDup (map_keys (typeAssertions a)) ->
  let a' := recordAll ds a in
  let nE := countExpectError line ds in
  let nT := countExpectType line ds in
  set_has line (errorLines a') = set_has line (errorLines a) || (0 <? nE)%nat
  /\ pendingAt line a' = xorb (pendingAt line a) (Nat.odd nT)
  /\ count_occ Nat.eq_dec (duplicates a') line
     = (count_occ Nat.eq_dec (duplicates a) line
        + (if set_has line (errorLines a) then nE else pred nE)
        + (if pendingAt line a then (nT + 1) / 2 else nT / 2))%nat.
Proof.
  revert a. induction ds as [|[l d] ds IH]; intros a Ha; cbn zeta.
  - cbn. rewrite orb_false_r, xorb_false_r.
    destruct (set_has line (errorLines a)), (pendingAt line a); cbn; repeat split; lia.
  - cbn [recordAll fold_left fst snd].
    change (fold_left _ ds ?x) with (recordAll ds x).
    destruct (IH _ (recordDirective_NoDup d l a Ha)) as (IH1 & IH2 & IH3).
    destruct (recordDirective_line d l line a Ha) as (S1 & S2 & S3).
    rewrite IH1, IH2, IH3, S1, S2, S3.
    rewrite countExpectError_cons, countExpectType_cons.
    set (nE := countExpectError line ds). set (nT := countExpectType line ds).
    destruct (bool_decide (l = line)), (isExpectType d); cbn [andb negb];
      rewrite ?orb_false_r, ?xorb_false_r, ?Nat.add_0_l, ?Nat.add_0_r.
    + (* an [$ExpectType] on the line *)
      split; [done|]. split.
      * change (1 + nT)%nat with (S nT). rewrite Nat.odd_succ, <- Nat.negb_odd.
        destruct (pendingAt line a), (Nat.odd nT); done.
      * destruct (set_has line (errorLines a)), (pendingAt line a); cbn [xorb negb];
          change (1 + nT)%nat with (S nT).
        all: try (replace ((S nT + 1) / 2)%nat with (S (nT / 2))
                    by (replace (S nT + 1)%nat with (nT + 1 * 2)%nat by lia;
                        rewrite Nat.div_add by lia; lia)).
        all: replace (S nT)%nat with (nT + 1)%nat by lia; lia.
    + (* an [$ExpectError] on the line *)
      split; [by destruct (set_has line (errorLines a)), (0 <? nE)%nat|].
      split; [done|].
      destruct (set_has line (errorLines a)); cbn [orb]; lia.
    + done.
    + done.
Qed.

End Recorded.


(** C6, as the code has it.  After the scanner finishes, for every line:
    the line is in the pending type-assertion map exactly when an odd number
    of [$ExpectType] directives apply to it; it is in the error-line set
    exactly when at least one [$ExpectError] applies to it; and it occurs in
    the list of duplicates once for every [$ExpectError] after the first and
    once for every second [$ExpectType].  So, with at most two [$ExpectType]
    on a line, the line is never both pending and a duplicate for
    [$ExpectType], and the second occurrence voids the expectation; but a
    line with two or more [$ExpectError] is a duplicate and stays in the
    error-line set.  The two kinds do not affect each other. *)
Theorem parseAssertions_lines (source : SourceFile) (line : nat) :
  let a := parseAssertions source in
  let nE := countExpectError line (directives source) in
  let nT := countExpectType line (directives source) in
  (set_has line (errorLines a) = true <-> (1 <= nE)%nat)
  /\ (pendingAt line a = true <-> Nat.odd nT = true)
  /\ count_occ Nat.eq_dec (duplicates a) line = (pred nE + nT / 2)%nat
  /\ ((nT <= 2)%nat -> pendingAt line a = true -> (nT / 2 = 0)%nat)
  /\ (nT = 2%nat -> pendingAt line a = false)
  /\ ((2 <= nE)%nat ->
      set_has line (errorLines a) = true /\ In line (duplicates a)).
Proof.
  intros a nE nT. subst a. rewrite parseAssertions_directives.
  destruct (recordAll_line (directives source) (mkAssertions [] [] []) line)
    as (H1 & H2 & H3); [apply NoDup_nil_2|].
  fold nE nT in H1, H2, H3.
  cbn [errorLines typeAssertions duplicates set_has pendingAt map_get orb xorb
       count_occ Nat.add] in H1, H2, H3.
  assert (Hpending : pendingAt line (recordAll (directives source) (mkAssertions [] [] []))
                     = true <-> Nat.odd nT = true) by (by rewrite H2).
  assert (Herr : set_has line (errorLines (recordAll (directives source)
                                             (mkAssertions [] [] []))) = true
                 <-> (1 <= nE)%nat).
  { rewrite H1, Nat.ltb_lt. lia. }
  split; [done|]. split; [done|]. split; [done|]. split; [|split].
  - intros Hle Hp. apply Hpending in Hp. clearbody nT.
    destruct nT as [|[|[|n]]]; [reflexivity|reflexivity|discriminate Hp|lia].
  - intros E. rewrite H2, E. done.
  - intros Hge. split; [apply Herr; lia|].
    apply (count_occ_In Nat.eq_dec). rewrite H3. lia.
Qed.

Lemma parseAssertions_lines_witness :
  let a := parseAssertions Examples.twoExpectTypes in
  let b := parseAssertions Examples.twoExpectErrors in
  pendingAt 1 a = false
  /\ count_occ Nat.eq_dec (duplicates a) 1%nat = 1%nat
  /\ set_has 1%nat (errorLines b) = true
  /\ In 1%nat (duplicates b).
Proof.
  intros a b.
  destruct (parseAssertions_lines Examples.twoExpectTypes 1) as (_ & _ & H3 & _ & H5 & _).
  destruct (parseAssertions_lines Examples.twoExpectErrors 1) as (_ & _ & _ & _ & _ & H6).
  split; [apply H5; reflexivity|]. split; [exact H3|].
  apply H6. vm_compute. lia.
Defined.

(** C6, as stated, fails for [$ExpectError]: in a file with
    [// $ExpectError] above [foo(); // $ExpectError], and no [$ExpectType]
    anywhere, line 1 is recorded as a duplicate and is still in the
    error-line set; the second occurrence does not void the expectation. *)
Lemma duplicate_error_line_kept :
  let a := parseAssertions Examples.twoExpectErrors in
  directives Examples.twoExpectErrors = [(1%nat, ExpectError); (1%nat, ExpectError)]
  /\ errorLines a = [1%nat]
  /\ duplicates a = [1%nat]
  /\ ~ (In 1%nat (errorLines a) -> ~ In 1%nat (duplicates a)).
Proof.
  cbn zeta. split; [reflexivity|]. split; [reflexivity|]. split; [reflexivity|].
  intros H. apply H; vm_compute; by left.
Qed.

(** ** The node matcher *)

Section NodeMatcher.
Variable sourceFile : SourceFile.

Lemma Node_nested_ind (P : Node -> Prop) :
  (forall w e, P e -> P (ExpressionStatement w e)) ->
  (forall s w t cs, Forall P cs -> P (OtherNode s w t cs)) ->
  forall n, P n.
Proof.
  intros HE HO. fix IH 1. intros [w e|s w t cs].
  - apply HE, IH.
  - apply HO.
    refine ((fix go (l : list Node) : Forall P l :=
               match l with
               | [] => List.Forall_nil P
               | c :: l' => @List.Forall_cons _ P c l' (IH c) (go l')
               end) cs).
Qed.

Lemma find_app {A} (f : A -> bool) (l1 l2 : list A) :
  List.find f (l1 ++ l2)
  = match List.find f l1 with Some x => Some x | None => List.find f l2 end.
Proof.
  induction l1 as [|a l1 IH]; [done|]. cbn. by destruct (f a).
Qed.

Lemma getStart_unwrap n : getStart (unwrap n) = getStart n.
Proof. by destruct n. Qed.

Lemma startsOnLine_unwrap line n :
  startsOnLine sourceFile line (unwrap n) = startsOnLine sourceFile line n.
Proof. unfold startsOnLine. by rewrite getStart_unwrap. Qed.

(** The two branches of [iterate]. *)
Lemma iterate_pending n st expected :
  map_get (lineOfPosition (getStart n) sourceFile) (pending st) = Some expected ->
  iterate sourceFile n st
  = visitChildren sourceFile (unwrap n)
      (mkMatchState
         (fst (map_delete (lineOfPosition (getStart n) sourceFile) (pending st)))
         (if decide (fixupUnions (typeToString (unwrap n)) = expected)
          then unmetExpectations st
          else unmetExpectations st
               ++ [mkUnmet (unwrap n) expected
                     (fixupUnions (typeToString (unwrap n)))])).
Proof.
  intros H. unfold visitChildren.
  destruct n as [w e|s w t cs]; cbn [iterate unwrap]; by rewrite H.
Qed.

Lemma iterate_not_pending n st :
  map_get (lineOfPosition (getStart n) sourceFile) (pending st) = None ->
  iterate sourceFile n st = visitChildren sourceFile n st.
Proof.
  intros H. unfold visitChildren.
  destruct n as [w e|s w t cs]; cbn [iterate]; by rewrite H.
Qed.

Lemma visited_refl st :
  NoDup (map_keys (pending st)) -> visited sourceFile [] st st.
Proof.
  intros Hst. split; [done|]. intros line. cbn.
  by destruct (map_get line (pending st)).
Qed.

Lemma visited_app ns1 ns2 st st1 st2 :
  visited sourceFile ns1 st st1 -> visited sourceFile ns2 st1 st2 ->
  visited sourceFile (ns1 ++ ns2) st st2.
Proof.
  intros [_ H1] [Hnd H2]. split; [done|]. intros line.
  specialize (H1 line). specialize (H2 line). cbn zeta in *.
  rewrite find_app.
  destruct (map_get line (pending st)) as [expected|].
  - destruct (List.find (startsOnLine sourceFile line) ns1) as [n|].
    + destruct H1 as [E1 E1']. rewrite E1 in H2. destruct H2 as [E2 E2'].
      split; [done|]. by rewrite E2', E1'.
    + destruct H1 as [E1 E1']. rewrite E1 in H2.
      destruct (List.find (startsOnLine sourceFile line) ns2) as [n|];
        destruct H2 as [E2 E2']; (split; [done|]); by rewrite E2', E1'.
  - destruct H1 as [E1 E1']. rewrite E1 in H2. destruct H2 as [E2 E2'].
    split; [done|]. by rewrite E2', E1'.
Qed.

(** What [iterate] does at the node itself. *)
Lemma visited_node n st expected :
  NoDup (map_keys (pending st)) ->
  map_get (lineOfPosition (getStart n) sourceFile) (pending st) = Some expected ->
  visited sourceFile [n] st
    (mkMatchState
       (fst (map_delete (lineOfPosition (getStart n) sourceFile) (pending st)))
       (if decide (fixupUnions (typeToString (unwrap n)) = expected)
        then unmetExpectations st
        else unmetExpectations st
             ++ [mkUnmet (unwrap n) expected
                   (fixupUnions (typeToString (unwrap n)))])).
Proof.
  intros Hst Hn. split; [by apply map_delete_NoDup|].
  intros line. cbn zeta. cbn [pending unmetExpectations List.find].
  unfold startsOnLine at 1.
  set (here := lineOfPosition (getStart n) sourceFile) in *.
  assert (Hu : unmetOnLine sourceFile line
                 (if decide (fixupUnions (typeToString (unwrap n)) = expected)
                  then unmetExpectations st
                  else unmetExpectations st
                       ++ [mkUnmet (unwrap n) expected
                             (fixupUnions (typeToString (unwrap n)))])
               = unmetOnLine sourceFile line (unmetExpectations st)
                 ++ if Nat.eqb here line
                    then (if decide (fixupUnions (typeToString (unwrap n)) = expected)
                          then []
                          else [mkUnmet (unwrap n) expected
                                  (fixupUnions (typeToString (unwrap n)))])
                    else []).
  { destruct (decide (fixupUnions (typeToString (unwrap n)) = expected)).
    - destruct (Nat.eqb here line); by rewrite app_nil_r.
    - unfold unmetOnLine. rewrite List.filter_app. cbn [List.filter unmetNode].
      rewrite startsOnLine_unwrap. unfold startsOnLine. fold here.
      by destruct (Nat.eqb here line). }
  rewrite Hu. clear Hu.
  destruct (Nat.eqb_spec here line) as [<-|Hne].
  - rewrite Hn. rewrite map_get_delete by done. by rewrite decide_True.
  - rewrite map_get_delete_ne by done. rewrite app_nil_r.
    by destruct (map_get line (pending st)).
Qed.

Lemma visited_skip n st :
  NoDup (map_keys (pending st)) ->
  map_get (lineOfPosition (getStart n) sourceFile) (pending st) = None ->
  visited sourceFile [n] st st.
Proof.
  intros Hst Hn. split; [done|]. intros line. cbn zeta. cbn [List.find].
  unfold startsOnLine.
  destruct (Nat.eqb_spec (lineOfPosition (getStart n) sourceFile) line) as [<-|Hne].
  - by rewrite Hn.
  - by destruct (map_get line (pending st)).
Qed.

Lemma visited_NoDup ns st st' :
  visited sourceFile ns st st' -> NoDup (map_keys (pending st')).
Proof. by intros [? _]. Qed.

Lemma iterate_visited n :
  forall st, NoDup (map_keys (pending st)) ->
             visited sourceFile (preorder n) st (iterate sourceFile n st).
Proof.
  induction n as [w e IH|s w t cs IH] using Node_nested_ind; intros st Hst.
  - set (n := ExpressionStatement w e).
    destruct (map_get (lineOfPosition (getStart n) sourceFile) (pending st))
      as [expected|] eqn:Hn.
    + rewrite (iterate_pending n st expected Hn).
      pose proof (visited_node n st expected Hst Hn) as Hstep.
      set (st1 := mkMatchState _ _) in *.
      change (preorder n) with ([n] ++ preorder e).
      apply (visited_app _ _ _ st1); [done|].
      cbn [unwrap n].
      rewrite <- iterate_not_pending.
      * apply IH. by apply visited_NoDup in Hstep.
      * subst st1. cbn [pending]. change (getStart e) with (getStart n).
        by rewrite map_get_delete, decide_True.
    + rewrite (iterate_not_pending n st Hn).
      change (preorder n) with ([n] ++ preorder e).
      apply (visited_app _ _ _ st); [by apply visited_skip|].
      apply IH, Hst.
  - set (n := OtherNode s w t cs).
    assert (Hcs : forall st, NoDup (map_keys (pending st)) ->
              visited sourceFile (flat_map preorder cs) st
                (fold_left (fun st c => iterate sourceFile c st) cs st)).
    { clear -IH. induction cs as [|c cs IHcs]; intros st Hst.
      - by apply visited_refl.
      - apply Forall_cons in IH as [Hc Hcs]. cbn [flat_map fold_left].
        apply (visited_app _ _ _ (iterate sourceFile c st)); [by apply Hc|].
        apply IHcs; [done|]. by apply (visited_NoDup _ _ _ (Hc st Hst)). }
    destruct (map_get (lineOfPosition (getStart n) sourceFile) (pending st))
      as [expected|] eqn:Hn.
    + rewrite (iterate_pending n st expected Hn).
      pose proof (visited_node n st expected Hst Hn) as Hstep.
      set (st1 := mkMatchState _ _) in *.
      change (preorder n) with ([n] ++ flat_map preorder cs).
      apply (visited_app _ _ _ st1); [done|].
      apply Hcs. by apply visited_NoDup in Hstep.
    + rewrite (iterate_not_pending n st Hn).
      change (preorder n) with ([n] ++ flat_map preorder cs).
      apply (visited_app _ _ _ st); [by apply visited_skip|].
      by apply Hcs.
Qed.

Lemma statements_visited st :
  NoDup (map_keys (pending st)) ->
  visited sourceFile (flat_map preorder (statements sourceFile)) st
    (fold_left (fun st c => iterate sourceFile c st) (statements sourceFile) st).
Proof.
  revert st. induction (statements sourceFile) as [|c cs IH]; intros st Hst.
  - by apply visited_refl.
  - cbn [flat_map fold_left].
    pose proof (iterate_visited c st Hst) as Hc.
    apply (visited_app _ _ _ (iterate sourceFile c st)); [done|].
    apply IH. by apply visited_NoDup in Hc.
Qed.

End NodeMatcher.

Lemma recordAll_NoDup ds a :
  NoDup (map_keys (typeAssertions a)) ->
  NoDup (map_keys (typeAssertions (recordAll ds a))).
Proof.
  revert a. induction ds as [|[l d] ds IH]; intros a Ha; [done|].
  cbn [recordAll fold_left]. apply IH. by apply recordDirective_NoDup.
Qed.

Lemma parseAssertions_NoDup source :
  NoDup (map_keys (typeAssertions (parseAssertions source))).
Proof.
  rewrite parseAssertions_directives. apply recordAll_NoDup. apply NoDup_nil_2.
Qed.

(** C1, as the code has it.  For every line with a pending [$ExpectType]
    assertion that is matched to a node, the first node in pre-order that
    starts on the line (an expression statement standing for its
    expression), the node matcher normalises the rendered type of that node
    only, and compares it with the expected text as it is written in the
    comment: it records a type mismatch for the line exactly when the two
    differ.  In particular, when the expected text equals the normalised
    rendered type, no unmet expectation and no unused assertion is reported
    for that line. *)
Theorem getExpectTypeFailures_matched
    (sourceFile : SourceFile) (line : nat) (expected : jsstring) (node : Node) :
  map_get line (typeAssertions (parseAssertions sourceFile)) = Some expected ->
  firstOnLine sourceFile line = Some node ->
  let r := getExpectTypeFailures sourceFile
             (typeAssertions (parseAssertions sourceFile)) in
  let actual := fixupUnions (typeToString (unwrap node)) in
  unmetOnLine sourceFile line (unmet r)
  = (if decide (actual = expected) then []
     else [mkUnmet (unwrap node) expected actual])
  /\ ~ In line (unusedAssertions r).
Proof.
  intros Hget Hfirst r actual. subst r. unfold getExpectTypeFailures.
  cbn [unmet unusedAssertions].
  destruct (statements_visited sourceFile
              (mkMatchState (typeAssertions (parseAssertions sourceFile)) []))
    as [_ H]; [apply parseAssertions_NoDup|].
  specialize (H line). cbn zeta in H. cbn [pending unmetExpectations] in H.
  unfold firstOnLine in Hfirst. rewrite Hget, Hfirst in H.
  destruct H as [Hnone Hunmet]. split; [exact Hunmet|].
  by apply map_get_None_keys.
Qed.

Lemma getExpectTypeFailures_matched_witness :
  let sourceFile := Examples.commentTrailing in
  let r := getExpectTypeFailures sourceFile
             (typeAssertions (parseAssertions sourceFile)) in
  unmetOnLine sourceFile 0 (unmet r) = [] /\ ~ In 0%nat (unusedAssertions r).
Proof.
  intros sourceFile r.
  assert (H1 : map_get 0%nat (typeAssertions (parseAssertions sourceFile))
               = Some (js "number")) by reflexivity.
  assert (H2 : firstOnLine sourceFile 0
               = Some (OtherNode 0 12 (js "number")
                  [OtherNode 0 11 (js "number")
                     [OtherNode 6 5 (js "number")
                        [OtherNode 6 1 (js "number") []; OtherNode 10 1 (js "1") []]]]))
    by reflexivity.
  exact (getExpectTypeFailures_matched sourceFile 0 _ _ H1 H2).
Defined.

(** C1, as stated, fails: the expected text is not normalised.  For
    [f(); // $ExpectType B | A], where the compiler renders the type as
    [A | B], expected and actual text have the same normal form, and an
    unmet expectation is recorded all the same. *)
Lemma expected_text_not_normalised :
  let sourceFile := Examples.unionOrder in
  let node := OtherNode 0 3 (js "A | B") [OtherNode 0 1 (js "() => A | B") []] in
  map_get 0%nat (typeAssertions (parseAssertions sourceFile)) = Some (js "B | A")
  /\ firstOnLine sourceFile 0 = Some (ExpressionStatement 4 node)
  /\ fixupUnions (js "B | A") = fixupUnions (typeToString node)
  /\ unmet (getExpectTypeFailures sourceFile
              (typeAssertions (parseAssertions sourceFile)))
     = [mkUnmet node (js "B | A") (js "A | B")].
Proof. repeat split. Qed.

(** ** Substrings *)

Section Includes.

Lemma cut_Some sep s before rest :
  cut sep s = Some (before, rest) -> s = before ++ sep ++ rest.
Proof.
  revert before. induction s as [|c s IH]; intros before; rewrite cut_eq.
  - destruct (strip_prefix sep []) as [r|] eqn:E; [|done].
    intros [= <- <-]. by apply strip_prefix_Some in E.
  - destruct (strip_prefix sep (c :: s)) as [r|] eqn:E.
    + intros [= <- <-]. by apply strip_prefix_Some in E.
    + destruct (cut sep s) as [[b r]|]; [|done].
      intros [= <- <-]. cbn. f_equal. by apply IH.
Qed.

Lemma cut_None sep s a b : cut sep s = None -> s <> a ++ sep ++ b.
Proof.
  revert a. induction s as [|c s IH]; intros a; rewrite cut_eq.
  - destruct (strip_prefix sep []) as [r|] eqn:E; [done|]. intros _ H.
    destruct a; [|done]. cbn in H. rewrite H, strip_prefix_app in E. done.
  - destruct (strip_prefix sep (c :: s)) as [r|] eqn:E; [done|].
    destruct (cut sep s) as [[b' r]|] eqn:Ec; [done|]. intros _ H.
    destruct a as [|c' a].
    + cbn in H. rewrite H, strip_prefix_app in E. done.
    + injection H as -> H. by apply (IH a).
Qed.

(** [includes] finds a substring exactly when there is one. *)
Lemma includes_spec s p :
  includes s p = true <-> exists a b, s = a ++ p ++ b.
Proof.
  unfold includes. destruct (cut p s) as [[a b]|] eqn:E.
  - split; [|done]. intros _. exists a, b. by apply cut_Some.
  - split; [done|]. intros (a & b & H). by apply cut_None in H.
Qed.

End Includes.

(** What is added for a diagnostic, written out. *)
Lemma addDiagnosticFailure_eq v nh d :
  addDiagnosticFailure v nh d
  = match diagFile d with
    | SameFile start length =>
        AddFailureAt start length (getIntro v nh ++ LF ++ flattenedMessageText d)
    | OtherFile fileName _ _ =>
        AddFailureAt 0 0 (getIntro v nh ++ LF ++ fileName ++ js ": " ++ messageText d)
    | NoFile => AddFailureAt 0 0 (getIntro v nh ++ LF ++ messageText d)
    end.
Proof.
  unfold addDiagnosticFailure.
  destruct (diagFile d); [done|by rewrite <- app_assoc|done].
Qed.

(** C10.  For every declaration file, and for every file whose text has no
    [$ExpectType] and no [$ExpectError] in it, a run reports every
    diagnostic of the program as a failure, one for one and in order, and
    nothing else: the tokens, the line map and the syntax tree of the file
    play no part, so nothing is scanned, matched or reconciled.  The failure
    for a diagnostic of the file is at the diagnostic's start, of its
    length, with the introduction, a line feed and the flattened message
    text of the diagnostic for a message; the failure for any other
    diagnostic is at position 0 with length 0, with the introduction, a line
    feed, the name of the diagnostic's file and a colon when it has a file,
    and its message text.  With no next-higher version the introduction
    names the version alone.  With no diagnostics such a file produces no
    failures. *)
Theorem walk_normal_file
    (program : ProgramView) (versionName : jsstring)
    (nextHigherVersion : option jsstring) :
  isDeclarationFile (sourceFile program) = true
  \/ ((forall a b, text (sourceFile program) <> a ++ js "$ExpectType" ++ b)
      /\ (forall a b, text (sourceFile program) <> a ++ js "$ExpectError" ++ b)) ->
  let intro := getIntro versionName nextHigherVersion in
  walk program versionName nextHigherVersion
  = Some (List.map
            (fun d =>
               match diagFile d with
               | SameFile start length =>
                   AddFailureAt start length (intro ++ LF ++ flattenedMessageText d)
               | OtherFile fileName _ _ =>
                   AddFailureAt 0 0
                     (intro ++ LF ++ fileName ++ js ": " ++ messageText d)
               | NoFile => AddFailureAt 0 0 (intro ++ LF ++ messageText d)
               end)
            (diagnostics program))
  /\ (nextHigherVersion = None ->
      intro = js "TypeScript@" ++ versionName ++ js " compile error: ")
  /\ (diagnostics program = [] ->
      walk program versionName nextHigherVersion = Some [])
  /\ (forall lineStarts' tokens' statements',
        walk (mkProgramView
                (mkSourceFile (isDeclarationFile (sourceFile program))
                   (text (sourceFile program)) lineStarts' tokens' statements')
                (diagnostics program))
          versionName nextHigherVersion
        = walk program versionName nextHigherVersion).
Proof.
  intros H intro.
  assert (Hnormal :
    isDeclarationFile (sourceFile program)
    || negb (includes (text (sourceFile program)) (js "$ExpectType")
             || includes (text (sourceFile program)) (js "$ExpectError")) = true).
  { destruct H as [->|[HT HE]]; [done|]. apply orb_true_iff. right.
    apply negb_true_iff, orb_false_iff. split; apply not_true_iff_false;
      rewrite includes_spec; intros (a & b & E);
      [by apply (HT a b)|by apply (HE a b)]. }
  assert (Hwalk : walk program versionName nextHigherVersion
                  = Some (List.map (addDiagnosticFailure versionName nextHigherVersion)
                            (diagnostics program))).
  { unfold walk. by rewrite Hnormal. }
  split; [|split; [by intros ->|split]].
  - rewrite Hwalk. f_equal. apply map_ext. intros d.
    apply addDiagnosticFailure_eq.
  - intros E. by rewrite Hwalk, E.
  - intros ls' ts' ss'. rewrite Hwalk. unfold walk.
    cbn [sourceFile isDeclarationFile text diagnostics]. by rewrite Hnormal.
Qed.

Lemma walk_normal_file_witness :
  walk (mkProgramView Examples.plainFile [Examples.cannotFindFoo]) (js "2.0") None
  = Some [AddFailureAt 0 3
            (js "TypeScript@2.0 compile error: " ++ LF
             ++ js "Cannot find name 'foo'.")]
  /\ walk (mkProgramView Examples.declarationFile []) (js "next") None = Some [].
Proof.
  split.
  - refine (proj1 (walk_normal_file
                     (mkProgramView Examples.plainFile [Examples.cannotFindFoo])
                     (js "2.0") None _)).
    right. split; intros a b E; apply (cut_None _ _ a b) in E;
      [done|reflexivity|done|reflexivity].
  - refine (proj1 (proj2 (proj2 (walk_normal_file
                     (mkProgramView Examples.declarationFile []) (js "next") None _))) _).
    + left. reflexivity.
    + reflexivity.
Defined.

(** ** One run *)

Section Walk.
Variable program : ProgramView.
Let source := sourceFile program.

Lemma reconcileDiagnostics_fold el v nh ds seen0 fs0 :
  let step := fun (acc : list nat * list Failure) diagnostic =>
    let '(seenDiagnosticsOnLine, failures) := acc in
    let line := diagnosticLine source diagnostic in
    (set_add line seenDiagnosticsOnLine,
     if set_has line el then failures
     else failures ++ [addDiagnosticFailure v nh diagnostic]) in
  let r := fold_left step ds (seen0, fs0) in
  snd r = fs0 ++ List.map (addDiagnosticFailure v nh)
                   (List.filter (fun d => negb (set_has (diagnosticLine source d) el)) ds)
  /\ forall line, set_has line (fst r) = set_has line seen0 || diagnosticOnLine source line ds.
Proof.
  cbn zeta. revert seen0 fs0. induction ds as [|d ds IH]; intros seen0 fs0.
  - cbn. split; [by rewrite app_nil_r|]. intros line. by rewrite orb_false_r.
  - cbn [fold_left List.filter diagnosticOnLine existsb].
    match goal with |- context [fold_left ?f ds (?a, ?b)] =>
      destruct (IH a b) as [IH1 IH2] end.
    split.
    + rewrite IH1. destruct (set_has (diagnosticLine source d) el); cbn [negb].
      * done.
      * by rewrite <- app_assoc.
    + intros line. rewrite IH2, set_has_add. unfold diagnosticOnLine.
      destruct (decide (line = diagnosticLine source d)) as [->|Hne].
      * by rewrite Nat.eqb_refl, orb_true_r.
      * destruct (Nat.eqb_spec (diagnosticLine source d) line); [congruence|done].
Qed.

Lemma reconcileDiagnostics_spec el v nh :
  snd (reconcileDiagnostics source el v nh (diagnostics program))
  = List.map (addDiagnosticFailure v nh)
      (List.filter (fun d => negb (set_has (diagnosticLine source d) el))
         (diagnostics program))
  /\ forall line,
       set_has line (fst (reconcileDiagnostics source el v nh (diagnostics program)))
       = diagnosticOnLine source line (diagnostics program).
Proof.
  destruct (reconcileDiagnostics_fold el v nh (diagnostics program) [] []) as [H1 H2].
  split; [exact H1|]. intros line. exact (H2 line).
Qed.

(** The failures of a file with directives, part by part. *)
Lemma walk_expect_file v nh :
  isExpectFile source = true ->
  let a := parseAssertions source in
  let r := getExpectTypeFailures source (typeAssertions a) in
  walk program v nh
  = (duplicateFailures ←
       mapM (fun line => addFailureAtLine source line FAILURE_STRING_DUPLICATE_ASSERTION)
         (duplicates a);
     expectedErrorFailures ←
       mapM (fun line => addFailureAtLine source line FAILURE_STRING_EXPECTED_ERROR)
         (List.filter (fun line => negb (diagnosticOnLine source line (diagnostics program)))
            (errorLines a));
     unusedFailures ←
       mapM (fun line => addFailureAtLine source line FAILURE_STRING_ASSERTION_MISSING_NODE)
         (unusedAssertions r);
     Some (duplicateFailures
           ++ List.map (addDiagnosticFailure v nh)
                (List.filter
                   (fun d => negb (set_has (diagnosticLine source d)
                                     (errorLines a)))
                   (diagnostics program))
           ++ expectedErrorFailures
           ++ List.map (fun u => AddFailureAtNode (unmetNode u)
                                   (FAILURE_STRING (unmetExpected u) (unmetActual u)))
                (unmet r)
           ++ unusedFailures)).
Proof.
  intros Hexpect a r. unfold walk. fold source.
  unfold isExpectFile in Hexpect. apply negb_true_iff in Hexpect. rewrite Hexpect.
  fold a. fold r.
  destruct (mapM _ (duplicates a)) as [dupF|]; [|done]. cbn [mbind option_bind].
  destruct (reconcileDiagnostics_spec (errorLines a) v nh) as [H1 H2].
  destruct (reconcileDiagnostics source (errorLines a) v nh (diagnostics program))
    as [seen diagF]. cbn [fst snd] in H1, H2. subst diagF.
  rewrite (filter_ext _ (fun line => negb (diagnosticOnLine source line (diagnostics program))))
    by (intros line; by rewrite H2).
  done.
Qed.

End Walk.

(** ** Failures by line *)

Section FailuresByLine.
Variable source : SourceFile.

Lemma strictlyIncreasing_nth ls i j a b :
  strictlyIncreasing ls = true -> (i < j)%nat ->
  nth_error ls i = Some a -> nth_error ls j = Some b -> a < b.
Proof.
  revert i j. induction ls as [|x ls IH]; intros i j Hls Hij Hi Hj; [by destruct i|].
  destruct j as [|j]; [lia|]. cbn in Hj.
  destruct i as [|i]; cbn in Hi.
  - injection Hi as <-. apply nth_error_In in Hj.
    by apply (strictlyIncreasing_lt _ _ _ Hls).
  - apply (IH i j); [by apply strictlyIncreasing_tail in Hls|lia|done|done].
Qed.

(** The start of a line is on that line. *)
Lemma lineIndex_of_start ls l s :
  strictlyIncreasing ls = true -> nth_error ls l = Some s -> lineIndex ls s = l.
Proof.
  intros Hls Hl.
  assert (Hge : (l <= lineIndex ls s)%nat).
  { destruct l as [|k]; [lia|]. apply (lineIndex_lt _ s _ _ Hls Hl). lia. }
  destruct (decide (lineIndex ls s = l)) as [|Hne]; [done|]. exfalso.
  destruct (lineIndex ls s) as [|j] eqn:E; [lia|].
  pose proof (lineIndex_bound ls s) as Hb. rewrite E in Hb.
  destruct (nth_error ls (S j)) as [s'|] eqn:Hs'.
  - assert (s' <= s) by (apply (lineIndex_lt _ s _ _ Hls Hs'); lia).
    assert (s < s') by (apply (strictlyIncreasing_nth ls l (S j)); (done || lia)).
    lia.
  - apply nth_error_None in Hs'. lia.
Qed.

Lemma addFailureAtLine_Some l msg f :
  addFailureAtLine source l msg = Some f ->
  failureMessage f = msg /\ nth_error (lineStarts source) l = Some (failureStart f).
Proof.
  unfold addFailureAtLine, getPositionOfLineAndCharacter.
  destruct (nth_error (lineStarts source) l) as [s|]; [|done]. cbn.
  destruct (nth_error (split LF (text source)) l) as [t|]; [|done]. cbn.
  intros [= <-]. cbn. split; [done|]. f_equal. lia.
Qed.

Lemma countFailures_app msg line fs1 fs2 :
  countFailures source msg line (fs1 ++ fs2)
  = (countFailures source msg line fs1 + countFailures source msg line fs2)%nat.
Proof. unfold countFailures. by rewrite List.filter_app, length_app. Qed.

Lemma countFailures_other msg line fs :
  Forall (fun f => failureMessage f <> msg) fs -> countFailures source msg line fs = 0%nat.
Proof.
  unfold countFailures. induction 1 as [|f fs Hf _ IH]; [done|].
  cbn [List.filter]. by rewrite bool_decide_eq_false_2.
Qed.

Lemma countFailures_lines msg line ls fs :
  lineMapOk (lineStarts source) = true ->
  Forall2 (fun l f => addFailureAtLine source l msg = Some f) ls fs ->
  countFailures source msg line fs = count_occ Nat.eq_dec ls line.
Proof.
  intros Hok. assert (Hinc : strictlyIncreasing (lineStarts source) = true).
  { unfold lineMapOk in Hok. destruct (lineStarts source) as [|[] ?]; done. }
  unfold countFailures. induction 1 as [|l f ls fs Hf _ IH]; [done|].
  apply addFailureAtLine_Some in Hf as [Hmsg Hstart].
  cbn [List.filter count_occ]. rewrite bool_decide_eq_true_2 by done. cbn [andb].
  unfold failureLine at 1, lineOfPosition.
  rewrite (lineIndex_of_start _ _ _ Hinc Hstart).
  destruct (Nat.eqb_spec l line), (Nat.eq_dec l line); try done. cbn. by rewrite IH.
Qed.

Lemma mapM_addFailureAtLine_messages msg ls fs :
  mapM (fun line => addFailureAtLine source line msg) ls = Some fs ->
  Forall (fun f => failureMessage f = msg) fs.
Proof.
  intros H%mapM_Some. induction H as [|l f ls fs Hf _ IH]; [done|].
  apply Forall_cons. split; [|done]. by apply addFailureAtLine_Some in Hf as [? _].
Qed.


End FailuresByLine.

(** ** The messages *)

Section Messages.

Lemma getIntro_head v nh rest :
  firstn 2 (getIntro v nh ++ rest) = js "Ty"
  \/ firstn 2 (getIntro v nh ++ rest) = js "Co".
Proof. destruct nh; [right|left]; reflexivity. Qed.

Lemma addDiagnosticFailure_message v nh d :
  exists rest, failureMessage (addDiagnosticFailure v nh d) = getIntro v nh ++ LF ++ rest.
Proof.
  unfold addDiagnosticFailure. destruct (diagFile d); cbn [failureMessage]; eauto.
Qed.

Lemma addDiagnosticFailure_not_fixed v nh d msg :
  In msg [FAILURE_STRING_DUPLICATE_ASSERTION; FAILURE_STRING_EXPECTED_ERROR;
          FAILURE_STRING_ASSERTION_MISSING_NODE]
  \/ (exists e a, msg = FAILURE_STRING e a) ->
  failureMessage (addDiagnosticFailure v nh d) <> msg.
Proof.
  destruct (addDiagnosticFailure_message v nh d) as [rest ->].
  intros Hmsg E. apply (f_equal (firstn 2)) in E.
  destruct (getIntro_head v nh (LF ++ rest)) as [H|H]; rewrite H in E; clear H.
  all: destruct Hmsg as [[<-|[<-|[<-|[]]]]|(e & a & ->)]; discriminate E.
Qed.

Lemma FAILURE_STRING_not_fixed e a msg :
  In msg [FAILURE_STRING_DUPLICATE_ASSERTION; FAILURE_STRING_EXPECTED_ERROR;
          FAILURE_STRING_ASSERTION_MISSING_NODE] ->
  FAILURE_STRING e a <> msg.
Proof.
  intros Hmsg E. apply (f_equal (firstn 10)) in E.
  destruct Hmsg as [<-|[<-|[<-|[]]]]; discriminate E.
Qed.

End Messages.







(** ** A run does not depend on the version names for its shape *)

Section WalkShape.
Variable program : ProgramView.

Lemma walk_same_shape v nh v' nh' :
  match walk program v nh, walk program v' nh' with
  | Some fs, Some fs' => length fs = length fs'
  | None, None => True
  | _, _ => False
  end.
Proof.
  destruct (isExpectFile (sourceFile program)) eqn:E.
  - rewrite !walk_expect_file by done. cbn zeta.
    destruct (mapM _ (duplicates _)) as [dupF|]; [|done]. cbn [mbind option_bind].
    destruct (mapM _ (List.filter _ _)) as [errF|]; [|done]. cbn [mbind option_bind].
    destruct (mapM _ (unusedAssertions _)) as [unusedF|]; [|done]. cbn [mbind option_bind].
    by rewrite !length_app, !length_map.
  - unfold isExpectFile in E. apply negb_false_iff in E.
    unfold walk. rewrite E. by rewrite !length_map.
Qed.

Lemma walk_nonempty v nh v' nh' f fs :
  walk program v nh = Some (f :: fs) ->
  exists f' fs', walk program v' nh' = Some (f' :: fs').
Proof.
  intros H. pose proof (walk_same_shape v nh v' nh') as Hs. rewrite H in Hs.
  destruct (walk program v' nh') as [[|f' fs']|]; [done| |done]. eauto.
Qed.

Lemma addFailureAtLine_AddFailure l msg f :
  addFailureAtLine (sourceFile program) l msg = Some f ->
  exists start end_, f = AddFailure start end_ msg.
Proof.
  unfold addFailureAtLine, getPositionOfLineAndCharacter.
  destruct (nth_error (lineStarts _) l) as [s|]; [|done]. cbn.
  destruct (nth_error (split LF _) l) as [t|]; [|done]. cbn.
  intros [= <-]. eauto.
Qed.

Lemma mapM_addFailureAtLine_AddFailure msg ls fs f :
  mapM (fun line => addFailureAtLine (sourceFile program) line msg) ls = Some fs ->
  In f fs -> exists start end_, f = AddFailure start end_ msg.
Proof.
  intros H%mapM_Some. induction H as [|l f0 ls fs Hf _ IH]; [done|].
  intros [<-|Hin]; [by apply addFailureAtLine_AddFailure in Hf|by apply IH].
Qed.

(** The failures added with [addFailureAt] are the compile errors; their
    message starts with the introduction. *)
Lemma walk_AddFailureAt v nh fs start width message :
  walk program v nh = Some fs -> In (AddFailureAt start width message) fs ->
  exists rest, message = getIntro v nh ++ LF ++ rest.
Proof.
  intros Hwalk Hin.
  assert (Hdiag : forall ds, In (AddFailureAt start width message)
                               (List.map (addDiagnosticFailure v nh) ds) ->
                             exists rest, message = getIntro v nh ++ LF ++ rest).
  { intros ds (d & Hd & _)%in_map_iff.
    destruct (addDiagnosticFailure_message v nh d) as [rest Hrest].
    rewrite Hd in Hrest. cbn [failureMessage] in Hrest. by exists rest. }
  destruct (isExpectFile (sourceFile program)) eqn:E.
  - rewrite walk_expect_file in Hwalk by done. cbn zeta in Hwalk.
    destruct (mapM _ (duplicates _)) as [dupF|] eqn:Hdup; [|done].
    cbn [mbind option_bind] in Hwalk.
    destruct (mapM _ (List.filter _ _)) as [errF|] eqn:Herr; [|done].
    cbn [mbind option_bind] in Hwalk.
    destruct (mapM _ (unusedAssertions _)) as [unusedF|] eqn:Hunused; [|done].
    cbn [mbind option_bind] in Hwalk. injection Hwalk as <-.
    rewrite !in_app_iff in Hin. destruct Hin as [Hin|[Hin|[Hin|[Hin|Hin]]]].
    + by destruct (mapM_addFailureAtLine_AddFailure _ _ _ _ Hdup Hin) as (? & ? & ?).
    + by apply Hdiag in Hin.
    + by destruct (mapM_addFailureAtLine_AddFailure _ _ _ _ Herr Hin) as (? & ? & ?).
    + by apply in_map_iff in Hin as (u & ? & _).
    + by destruct (mapM_addFailureAtLine_AddFailure _ _ _ _ Hunused Hin) as (? & ? & ?).
  - unfold isExpectFile in E. apply negb_false_iff in E.
    unfold walk in Hwalk. rewrite E in Hwalk. injection Hwalk as <-.
    by apply Hdiag in Hin.
Qed.

(** The failures other than compile errors are the same for all version
    names. *)
Lemma walk_other_failures v nh v' nh' fs fs' :
  walk program v nh = Some fs -> walk program v' nh' = Some fs' ->
  List.filter (fun f => negb (isCompileError f)) fs
  = List.filter (fun f => negb (isCompileError f)) fs'.
Proof.
  assert (Hdiag : forall w wh ds,
    List.filter (fun f => negb (isCompileError f))
      (List.map (addDiagnosticFailure w wh) ds) = []).
  { intros w wh ds. induction ds as [|d ds IH]; [done|].
    cbn [List.map List.filter]. rewrite addDiagnosticFailure_eq at 1.
    by destruct (diagFile d). }
  intros Hwalk Hwalk'.
  destruct (isExpectFile (sourceFile program)) eqn:E.
  - rewrite walk_expect_file in Hwalk, Hwalk' by done. cbn zeta in Hwalk, Hwalk'.
    destruct (mapM _ (duplicates _)) as [dupF|]; [|done].
    cbn [mbind option_bind] in Hwalk, Hwalk'.
    destruct (mapM _ (List.filter _ _)) as [errF|]; [|done].
    cbn [mbind option_bind] in Hwalk, Hwalk'.
    destruct (mapM _ (unusedAssertions _)) as [unusedF|]; [|done].
    cbn [mbind option_bind] in Hwalk, Hwalk'.
    injection Hwalk as <-. injection Hwalk' as <-.
    by rewrite !List.filter_app, !Hdiag.
  - unfold isExpectFile in E. apply negb_false_iff in E.
    unfold walk in Hwalk, Hwalk'. rewrite E in Hwalk, Hwalk'.
    injection Hwalk as <-. injection Hwalk' as <-. by rewrite !Hdiag.
Qed.

(** Their messages are the three fixed texts and the text of a type
    mismatch. *)
Lemma walk_other_messages v nh fs f :
  walk program v nh = Some fs -> In f fs -> isCompileError f = false ->
  In (failureMessage f)
    [FAILURE_STRING_DUPLICATE_ASSERTION; FAILURE_STRING_EXPECTED_ERROR;
     FAILURE_STRING_ASSERTION_MISSING_NODE]
  \/ isTypeMismatch f.
Proof.
  intros Hwalk Hin Hf.
  assert (Hdiag : forall ds, In f (List.map (addDiagnosticFailure v nh) ds) -> False).
  { intros ds (d & Hd & _)%in_map_iff. rewrite addDiagnosticFailure_eq in Hd.
    destruct (diagFile d); by subst f. }
  destruct (isExpectFile (sourceFile program)) eqn:E.
  - rewrite walk_expect_file in Hwalk by done. cbn zeta in Hwalk.
    destruct (mapM _ (duplicates _)) as [dupF|] eqn:Hdup; [|done].
    cbn [mbind option_bind] in Hwalk.
    destruct (mapM _ (List.filter _ _)) as [errF|] eqn:Herr; [|done].
    cbn [mbind option_bind] in Hwalk.
    destruct (mapM _ (unusedAssertions _)) as [unusedF|] eqn:Hunused; [|done].
    cbn [mbind option_bind] in Hwalk. injection Hwalk as <-.
    rewrite !in_app_iff in Hin. destruct Hin as [Hin|[Hin|[Hin|[Hin|Hin]]]].
    + destruct (mapM_addFailureAtLine_AddFailure _ _ _ _ Hdup Hin) as (? & ? & ->).
      left. cbn. auto.
    + by apply Hdiag in Hin.
    + destruct (mapM_addFailureAtLine_AddFailure _ _ _ _ Herr Hin) as (? & ? & ->).
      left. cbn. auto.
    + apply in_map_iff in Hin as (u & <- & _). right.
      by exists (unmetExpected u), (unmetActual u).
    + destruct (mapM_addFailureAtLine_AddFailure _ _ _ _ Hunused Hin) as (? & ? & ->).
      left. cbn. auto.
  - unfold isExpectFile in E. apply negb_false_iff in E.
    unfold walk in Hwalk. rewrite E in Hwalk. injection Hwalk as <-.
    by apply Hdiag in Hin.
Qed.

End WalkShape.

(** ** The runs of a search *)

Section Coordinator.
Variable h : Host.
Variable options : Options.

Lemma getFailures_runAt install nh s :
  getFailures h options (versionName install) (path install) nh s
  = (runAt h options s install nh, cached h options s install).
Proof.
  unfold getFailures, getProgram, runAt, programFor, cached.
  by destruct (map_get (versionName install) (versionToProgram s)).
Qed.

Lemma cached_console s install : console (cached h options s install) = console s.
Proof.
  unfold cached. by destruct (map_get (versionName install) (versionToProgram s)).
Qed.

(** A cached program stays. *)
Lemma cached_keeps s install v program :
  map_get v (versionToProgram s) = Some program ->
  map_get v (versionToProgram (cached h options s install)) = Some program.
Proof.
  intros Hv. unfold cached.
  destruct (map_get (versionName install) (versionToProgram s)) eqn:E; [done|].
  cbn [versionToProgram]. rewrite map_get_set.
  destruct (decide (v = versionName install)) as [->|]; [congruence|done].
Qed.

Lemma cached_caches s install :
  map_get (versionName install) (versionToProgram (cached h options s install))
  = Some (programFor h options s install).
Proof.
  unfold cached, programFor.
  destruct (map_get (versionName install) (versionToProgram s)) eqn:E; [done|].
  cbn [versionToProgram]. rewrite map_get_set. by rewrite decide_True.
Qed.

Lemma programFor_console s lines install :
  programFor h options (mkSession (versionToProgram s) lines) install
  = programFor h options s install.
Proof. done. Qed.

(** With distinct version names, a request does not change the program of
    any install. *)
Lemma programFor_cached (all : list Install) s i j :
  NoDup (List.map versionName all) -> In i all -> In j all ->
  programFor h options (cached h options s i) j = programFor h options s j.
Proof.
  intros Hnd Hi Hj. unfold cached, programFor at 1.
  destruct (map_get (versionName i) (versionToProgram s)) eqn:E; [done|].
  cbn [versionToProgram]. rewrite map_get_set.
  destruct (decide (versionName j = versionName i)) as [Heq|Hne]; [|done].
  assert (j = i) as ->.
  { clear E. induction all as [|a all IH]; [done|].
    cbn in Hnd. apply NoDup_cons in Hnd as [Ha Hnd].
    rewrite list_elem_of_In in Ha.
    destruct Hi as [->|Hi], Hj as [->|Hj]; try done.
    - exfalso. apply Ha. rewrite <- Heq. by apply in_map.
    - exfalso. apply Ha. rewrite Heq. by apply in_map.
    - by apply IH. }
  unfold programFor. by rewrite E.
Qed.

Lemma nextHigherVersionAt_Some i :
  (i < length (olderInstalls options))%nat ->
  exists nh, nextHigherVersionAt (olderInstalls options) i = Some nh.
Proof.
  intros Hi. unfold nextHigherVersionAt. case_decide; [eauto|].
  destruct (nth_error (olderInstalls options) (i + 1)) as [up|] eqn:E; [cbn; eauto|].
  apply nth_error_None in E. lia.
Qed.

(** The loop does not run off its end when the oldest install, whose
    program is cached, has failures. *)
Lemma scanVersions_reaches minInstall program f fs n s :
  nth_error (olderInstalls options) 0 = Some minInstall ->
  map_get (versionName minInstall) (versionToProgram s) = Some program ->
  walk (view h program (require h (path minInstall))) (versionName minInstall) None
  = Some (f :: fs) ->
  (1 <= n <= length (olderInstalls options))%nat ->
  fst (scanVersions h options n s) <> Throws UnreachableError.
Proof.
  intros Hmin Hcache Hwalk. revert s Hcache.
  induction n as [|i IH]; intros s Hcache Hn; [lia|].
  cbn [scanVersions].
  destruct (nth_error (olderInstalls options) i) as [install|] eqn:Hi; [|done].
  destruct (nextHigherVersionAt (olderInstalls options) i) as [nh|]; [|done].
  rewrite getFailures_runAt.
  set (s1 := mkSession (versionToProgram s) _).
  destruct (runAt h options s1 install (Some nh)) as [[|f' fs']|] eqn:Hrun; [|done|done].
  destruct i as [|i].
  - exfalso. rewrite Hmin in Hi. injection Hi as <-.
    unfold runAt, programFor in Hrun. cbn [versionToProgram s1] in Hrun.
    rewrite Hcache in Hrun.
    destruct (walk_nonempty _ _ None (versionName minInstall) (Some nh) _ _ Hwalk)
      as (f' & fs' & Hne). congruence.
  - apply IH; [|lia]. by apply cached_keeps.
Qed.

End Coordinator.

(** C9.  A run of the pipeline is a function of the program and the compiler
    it is given, so a repeated run yields the same failures, whatever
    version names the messages carry.  Then the [throw] after the backward
    scan is never reached: the scan is entered only when the oldest
    configured version has reported failures, the program of that version
    is in the cache from then on, and the scan, which visits the oldest
    version last, finds its failures again and returns them, unless an
    earlier iteration has returned or thrown already. *)
Theorem unreachable_throw (h : Host) (options : option Options) (s : Session h) :
  fst (applyWithProgram h options s) <> Throws UnreachableError.
Proof.
  destruct options as [options|]; cbn [applyWithProgram].
  - rewrite (getFailures_runAt h options (nextInstall options)).
    destruct (runAt h options s (nextInstall options) None) as [[|f fs]|]; [|done|done].
    destruct (olderInstalls options) as [|minInstall rest] eqn:Hinstalls; [done|].
    rewrite getFailures_runAt.
    set (s1 := cached h options s (nextInstall options)).
    destruct (runAt h options s1 minInstall None) as [[|f fs]|] eqn:Hmin; [done| |done].
    rewrite <- Hinstalls.
    apply (scanVersions_reaches h options minInstall (programFor h options s1 minInstall) f fs).
    + by rewrite Hinstalls.
    + apply cached_caches.
    + exact Hmin.
    + rewrite Hinstalls. cbn. lia.
  - by destruct (walk _ _ _).
Qed.

Section Search.
Variable h : Host.
Variable options : Options.

Lemma scanVersions_not_empty n s : fst (scanVersions h options n s) <> Returns [].
Proof.
  revert s. induction n as [|i IH]; intros s; [done|]. cbn [scanVersions].
  destruct (nth_error (olderInstalls options) i) as [install|]; [|done].
  destruct (nextHigherVersionAt (olderInstalls options) i) as [nh|]; [|done].
  destruct (getFailures h options _ _ _ _) as [[[|f fs]|] s']; [apply IH|done|done].
Qed.

Lemma runAt_programFor s s0 install nh :
  programFor h options s install = programFor h options s0 install ->
  runAt h options s install nh = runAt h options s0 install nh.
Proof. unfold runAt. by intros ->. Qed.

Lemma firstn_snoc {A} (l : list A) m x :
  nth_error l m = Some x -> firstn (S m) l = firstn m l ++ [x].
Proof.
  revert m. induction l as [|a l IH]; intros m Hm; [by destruct m|].
  destruct m as [|m]; cbn in *; [by injection Hm as ->|].
  f_equal. by apply IH.
Qed.

(** The backward scan returns the failures of the newest install that has
    any, and logs the installs it tried. *)
Lemma scanVersions_boundary s0 i boundary f fs :
  let installs := olderInstalls options in
  let all := nextInstall options :: installs in
  NoDup (List.map versionName all) ->
  nth_error installs i = Some boundary ->
  (forall j install,
      (i < j)%nat -> nth_error installs j = Some install ->
      runAt h options s0 install (nextHigherVersionAt installs j) = Some []) ->
  runAt h options s0 boundary (nextHigherVersionAt installs i) = Some (f :: fs) ->
  forall n s,
    (i < n <= length installs)%nat ->
    (forall j, In j all -> programFor h options s j = programFor h options s0 j) ->
    exists s',
      scanVersions h options n s = (Returns (f :: fs), s')
      /\ console s'
         = console s
           ++ List.map (fun install => js "Test with " ++ versionName install)
                (rev (firstn (n - i) (skipn i installs))).
Proof.
  intros installs all Hnd Hb Habove Hrun n.
  induction n as [|k IH]; intros s Hn Hagree; [lia|].
  cbn [scanVersions]. fold installs.
  destruct (nth_error installs k) as [install|] eqn:Hk;
    [|apply nth_error_None in Hk; lia].
  destruct (nextHigherVersionAt_Some options k) as [nh Hnh]; [fold installs; lia|].
  fold installs in Hnh. rewrite Hnh, getFailures_runAt.
  set (s1 := mkSession (versionToProgram s) _).
  assert (Hin : In install all) by (right; by apply nth_error_In in Hk).
  assert (Hagree1 : forall j, In j all ->
            programFor h options (cached h options s1 install) j
            = programFor h options s0 j).
  { intros j Hj. rewrite (programFor_cached h options all) by done.
    by apply Hagree. }
  rewrite (runAt_programFor s1 s0) by (by apply Hagree).
  assert (Hlog : firstn (S k - i) (skipn i installs)
                 = firstn (k - i) (skipn i installs) ++ [install]).
  { replace (S k - i)%nat with (S (k - i)) by lia. apply firstn_snoc.
    rewrite nth_error_skipn. by replace (i + (k - i))%nat with k by lia. }
  destruct (decide (k = i)) as [->|Hne].
  - rewrite Hb in Hk. injection Hk as <-. rewrite <- Hnh, Hrun.
    eexists. split; [done|]. rewrite cached_console. subst s1. cbn [console].
    rewrite Hlog, Nat.sub_diag. by cbn.
  - rewrite <- Hnh, (Habove k install) by (done || lia).
    destruct (IH (cached h options s1 install)) as (s' & Hscan & Hconsole);
      [lia|done|].
    exists s'. split; [done|]. rewrite Hconsole, cached_console. subst s1.
    cbn [console]. rewrite Hlog, rev_app_distr, <- app_assoc. by cbn.
Qed.

End Search.

(** C4, as the code has it.  In the multi-version configuration, failures
    of the run against [next] are returned at once.  When that run yields no
    failures, the coordinator goes on to the oldest configured version: it
    returns an empty failure list, with no version in between run, exactly
    when that run yields no failures either; when the oldest version has
    failures the result is never an empty list. *)
Theorem applyWithProgram_next
    (h : Host) (options : Options) (s s1 : Session h) (nextFailures : list Failure) :
  getFailures h options (js "next") (tsNextPath options) None s
  = (Some nextFailures, s1) ->
  (nextFailures <> [] ->
   applyWithProgram h (Some options) s = (Returns nextFailures, s1))
  /\ (nextFailures = [] ->
      forall minInstall rest minFailures s2,
        olderInstalls options = minInstall :: rest ->
        getFailures h options (versionName minInstall) (path minInstall) None s1
        = (Some minFailures, s2) ->
        (minFailures = [] ->
         applyWithProgram h (Some options) s = (Returns [], s2)
         /\ console s2 = console s)
        /\ (minFailures <> [] ->
            fst (applyWithProgram h (Some options) s) <> Returns [])).
Proof.
  intros Hnext. split.
  - intros Hne. cbn [applyWithProgram]. rewrite Hnext.
    destruct nextFailures; [by destruct Hne|reflexivity].
  - intros -> minInstall rest minFailures s2 Hinstalls Hmin. split.
    + intros ->. cbn [applyWithProgram]. rewrite Hnext, Hinstalls, Hmin.
      split; [done|].
      rewrite (getFailures_runAt h options (nextInstall options)) in Hnext.
      rewrite getFailures_runAt in Hmin.
      injection Hnext as _ <-. injection Hmin as _ <-.
      by rewrite !cached_console.
    + intros Hne. cbn [applyWithProgram]. rewrite Hnext, Hinstalls, Hmin.
      destruct minFailures; [done|]. apply scanVersions_not_empty.
Qed.

Lemma applyWithProgram_next_witness :
  let h := Examples.host (mkProgramView Examples.commentTrailing []) in
  fst (applyWithProgram h (Some Examples.options) (Examples.emptySession h))
  = Returns [].
Proof.
  intros h.
  pose (s1 := snd (getFailures h Examples.options (js "next")
                     (tsNextPath Examples.options) None (Examples.emptySession h))).
  pose (s2 := snd (getFailures h Examples.options (js "2.0") (js "ts2.0") None s1)).
  assert (Hnext : getFailures h Examples.options (js "next")
                    (tsNextPath Examples.options) None (Examples.emptySession h)
                  = (Some [], s1)) by reflexivity.
  destruct (applyWithProgram_next h Examples.options _ _ _ Hnext) as [_ H].
  destruct (H eq_refl (mkInstall (js "2.0") (js "ts2.0"))
              [mkInstall (js "2.1") (js "ts2.1"); mkInstall (js "2.2") (js "ts2.2")]
              [] s2 eq_refl eq_refl) as [H1 _].
  destruct (H1 eq_refl) as [-> _]. reflexivity.
Defined.

(** C4, as stated, fails: with [next] reporting no failures and the oldest
    configured version reporting a type mismatch, the coordinator does not
    stop with an empty list; it scans backward and returns the failures of
    version 2.1. *)
Lemma next_passes_older_fails :
  let h := Examples.host (mkProgramView Examples.commentTrailingOld []) in
  fst (getFailures h Examples.options (js "next") (tsNextPath Examples.options) None
         (Examples.emptySession h)) = Some []
  /\ exists f,
       fst (applyWithProgram h (Some Examples.options) (Examples.emptySession h))
       = Returns [f].
Proof. split; [reflexivity|]. eexists. reflexivity. Qed.

(** When [next] has no failures and the oldest install has some, the
    result is that of the backward scan. *)
Lemma applyWithProgram_scan
    (h : Host) (options : Options) (s : Session h) minInstall f fs :
  runAt h options s (nextInstall options) None = Some [] ->
  nth_error (olderInstalls options) 0 = Some minInstall ->
  runAt h options (cached h options s (nextInstall options)) minInstall None
  = Some (f :: fs) ->
  applyWithProgram h (Some options) s
  = scanVersions h options (length (olderInstalls options))
      (cached h options (cached h options s (nextInstall options)) minInstall).
Proof.
  intros Hnext Hmin0 Hmin. cbn [applyWithProgram].
  rewrite (getFailures_runAt h options (nextInstall options)), Hnext.
  destruct (olderInstalls options) as [|m rest] eqn:Hinstalls; [done|].
  cbn in Hmin0. injection Hmin0 as ->.
  by rewrite getFailures_runAt, Hmin.
Qed.

(** C3, as the code has it.  In the multi-version configuration with
    distinct version names, none of them [next]: when the run against
    [next] yields no failures and the oldest configured version yields
    failures, the coordinator scans the configured versions from newest to
    oldest, logging each, and returns the failures of the first (newest)
    version that reports failures.  The next-higher version of that run is
    the next entry up in the version list, and the literal [next] exactly
    when the boundary version is the newest configured version.  The
    messages of the returned compile errors (the failures added with
    [addFailureAt]) begin with the sentence that names the boundary version
    and the next-higher version, and then the remedy: that the features of
    [next] are not yet supported when the next-higher version is [next],
    else the version comment to add.  The other returned failures (type
    mismatch, duplicate, missing error, unmatched assertion) are added
    without that introduction: their messages are the three fixed texts and
    the type-mismatch text of an expected and an actual type, and they are
    the failures a run on the same program yields under any other version
    names. *)
Theorem applyWithProgram_boundary
    (h : Host) (options : Options) (s : Session h)
    (i : nat) (boundary : Install) (f : Failure) (fs : list Failure) :
  let installs := olderInstalls options in
  NoDup (js "next" :: List.map versionName installs) ->
  runAt h options s (nextInstall options) None = Some [] ->
  (exists minInstall f0 fs0,
      nth_error installs 0 = Some minInstall
      /\ runAt h options s minInstall None = Some (f0 :: fs0)) ->
  nth_error installs i = Some boundary ->
  (forall j install,
      (i < j)%nat -> nth_error installs j = Some install ->
      runAt h options s install (nextHigherVersionAt installs j) = Some []) ->
  runAt h options s boundary (nextHigherVersionAt installs i) = Some (f :: fs) ->
  exists s' nextHigherVersion,
    applyWithProgram h (Some options) s = (Returns (f :: fs), s')
    /\ console s' = console s ++ testedDownTo installs i
    /\ nextHigherVersionAt installs i = Some nextHigherVersion
    /\ (nextHigherVersion = js "next" <-> i = (length installs - 1)%nat)
    /\ (forall up, nth_error installs (i + 1) = Some up ->
                   nextHigherVersion = versionName up)
    /\ (forall start width message,
          In (AddFailureAt start width message) (f :: fs) ->
          exists rest,
            message
            = js "Compile error in typescript@" ++ versionName boundary
              ++ js " but not in typescript@" ++ nextHigherVersion ++ js "." ++ LF
              ++ (if decide (nextHigherVersion = js "next")
                  then js "TypeScript@next features not yet supported."
                  else js "Fix with a comment '// TypeScript Version: "
                       ++ nextHigherVersion ++ js "' just under the header.")
              ++ LF ++ rest)
    /\ (forall other,
          In other (f :: fs) -> isCompileError other = false ->
          In (failureMessage other)
            [FAILURE_STRING_DUPLICATE_ASSERTION; FAILURE_STRING_EXPECTED_ERROR;
             FAILURE_STRING_ASSERTION_MISSING_NODE]
          \/ isTypeMismatch other)
    /\ (forall versionName' nextHigherVersion' fs',
          walk (view h (programFor h options s boundary) (require h (path boundary)))
            versionName' nextHigherVersion' = Some fs' ->
          List.filter (fun other => negb (isCompileError other)) fs'
          = List.filter (fun other => negb (isCompileError other)) (f :: fs)).
Proof.
  intros installs Hnd Hnext (minInstall & f0 & fs0 & Hmin0 & Hmin) Hb Habove Hrun.
  subst installs.
  assert (Hi : (i < length (olderInstalls options))%nat)
    by (apply nth_error_Some; congruence).
  destruct (nextHigherVersionAt_Some options i Hi) as [nh Hnh].
  set (all := nextInstall options :: olderInstalls options).
  assert (Hinmin : In minInstall all) by (right; by apply nth_error_In in Hmin0).
  (* the two runs before the scan *)
  set (s1 := cached h options s (nextInstall options)).
  set (s2 := cached h options s1 minInstall).
  assert (Hagree1 : forall j, In j all ->
            programFor h options s1 j = programFor h options s j).
  { intros j Hj. apply (programFor_cached h options all); [done|by left|done]. }
  assert (Hagree2 : forall j, In j all ->
            programFor h options s2 j = programFor h options s j).
  { intros j Hj. subst s2. rewrite (programFor_cached h options all) by done.
    by apply Hagree1. }
  destruct (scanVersions_boundary h options s i boundary f fs Hnd Hb Habove Hrun
              (length (olderInstalls options)) s2) as (s' & Hscan & Hconsole);
    [lia|done|].
  exists s', nh. split; [|split; [|split; [done|split; [|split; [|split; [|split]]]]]].
  - rewrite (applyWithProgram_scan h options s minInstall f0 fs0); [done|done|done|].
    fold s1. rewrite (runAt_programFor h options s1 s) by (by apply Hagree1).
    exact Hmin.
  - rewrite Hconsole. subst s2 s1. rewrite !cached_console. f_equal.
    unfold testedDownTo. do 2 f_equal. apply firstn_all2.
    rewrite length_skipn. lia.
  - unfold nextHigherVersionAt in Hnh. case_decide as Hlast.
    + injection Hnh as <-. done.
    + destruct (nth_error (olderInstalls options) (i + 1)) as [up|] eqn:Hup; [|done].
      injection Hnh as <-. split; [|done]. intros Hname. exfalso.
      apply NoDup_cons in Hnd as [Hnotin _]. apply Hnotin.
      rewrite <- Hname. apply list_elem_of_In, in_map. by apply nth_error_In in Hup.
  - intros up Hup. unfold nextHigherVersionAt in Hnh. case_decide as Hlast.
    + assert (i + 1 < length (olderInstalls options))%nat
        by (apply nth_error_Some; congruence).
      lia.
    + rewrite Hup in Hnh. by injection Hnh as <-.
  - intros start width message Hin. rewrite Hnh in Hrun.
    destruct (walk_AddFailureAt _ _ _ _ _ _ _ Hrun Hin) as [rest ->].
    exists rest. unfold getIntro. by rewrite <- !app_assoc.
  - intros other Hin Hother. rewrite Hnh in Hrun.
    exact (walk_other_messages _ _ _ _ _ Hrun Hin Hother).
  - intros v' nh' fs' Hwalk'. rewrite Hnh in Hrun.
    exact (walk_other_failures _ _ _ _ _ _ _ Hwalk' Hrun).
Qed.

Lemma applyWithProgram_boundary_witness :
  let h := Examples.host (mkProgramView Examples.plainFile [Examples.cannotFindFoo]) in
  exists s',
    applyWithProgram h (Some Examples.options) (Examples.emptySession h)
    = (Returns
         [AddFailureAt 0 3
            (js "Compile error in typescript@2.1 but not in typescript@2.2." ++ LF
             ++ js "Fix with a comment '// TypeScript Version: 2.2' just under the header."
             ++ LF ++ js "Cannot find name 'foo'.")], s')
    /\ console s' = [js "Test with 2.2"; js "Test with 2.1"].
Proof.
  intros h.
  destruct (applyWithProgram_boundary h Examples.options (Examples.emptySession h)
              1 (mkInstall (js "2.1") (js "ts2.1"))
              (AddFailureAt 0 3
                 (js "Compile error in typescript@2.1 but not in typescript@2.2." ++ LF
                  ++ js "Fix with a comment '// TypeScript Version: 2.2' just under the header."
                  ++ LF ++ js "Cannot find name 'foo'.")) [])
    as (s' & nh & H1 & H2 & _).
  - apply (bool_decide_unpack _). vm_compute. exact I.
  - reflexivity.
  - exists (mkInstall (js "2.0") (js "ts2.0")). eexists. eexists.
    split; reflexivity.
  - reflexivity.
  - intros j install Hj Hnth.
    destruct j as [|[|[|j]]]; try lia.
    + injection Hnth as <-. reflexivity.
    + destruct j; discriminate Hnth.
  - reflexivity.
  - exists s'. split; [exact H1|exact H2].
Defined.

(** C3, as stated, fails: when the boundary version reports a type
    mismatch, the returned failure's message does not name the next-higher
    version.  Here the boundary is 2.1, the next-higher version is 2.2, and
    the message is that of the type mismatch, without any version. *)
Lemma boundary_message_without_version :
  let h := Examples.host (mkProgramView Examples.commentTrailingOld []) in
  exists node,
    fst (applyWithProgram h (Some Examples.options) (Examples.emptySession h))
    = Returns [AddFailureAtNode node (FAILURE_STRING (js "number") (js "1"))]
    /\ nextHigherVersionAt (olderInstalls Examples.options) 1 = Some (js "2.2")
    /\ includes (FAILURE_STRING (js "number") (js "1")) (js "2.2") = false.
Proof. eexists. repeat split. Qed.

(** ** The loops end by themselves

    The fuel given to [split] and to [getLine] is never used up: [split]
    satisfies the equation of the loop it stands for, and [getLine] leaves
    its loop by the loop's own test. *)

Section Fuel.

Lemma cut_shorter sep s before rest :
  sep <> [] -> cut sep s = Some (before, rest) -> (length rest < length s)%nat.
Proof.
  intros Hsep ->%cut_Some. rewrite !length_app.
  destruct sep; [done|]. cbn [length]. lia.
Qed.

Lemma split_fuel_enough sep s n m :
  sep <> [] -> (length s <= n)%nat -> (length s <= m)%nat ->
  split_fuel n sep s = split_fuel m sep s.
Proof.
  intros Hsep. revert s m. induction n as [|n IH]; intros s m Hn Hm.
  - destruct s; [|cbn in Hn; lia]. destruct m; [done|]. cbn [split_fuel].
    rewrite cut_eq. destruct sep; done.
  - destruct m as [|m].
    + destruct s; [|cbn in Hm; lia]. cbn [split_fuel].
      rewrite cut_eq. destruct sep; done.
    + cbn [split_fuel]. destruct (cut sep s) as [[before rest]|] eqn:E; [|done].
      pose proof (cut_shorter _ _ _ _ Hsep E). f_equal. apply IH; lia.
Qed.

(** [split] cuts at the first occurrence and goes on with the rest. *)
Lemma split_eq sep s :
  sep <> [] ->
  split sep s
  = match cut sep s with
    | None => [s]
    | Some (before, rest) => before :: split sep rest
    end.
Proof.
  intros Hsep. unfold split.
  rewrite (split_fuel_enough sep s (length s) (S (length s))) by (done || lia).
  cbn [split_fuel]. destruct (cut sep s) as [[before rest]|] eqn:E; [|done].
  pose proof (cut_shorter _ _ _ _ Hsep E). f_equal.
  apply split_fuel_enough; (done || lia).
Qed.

(** [advanceLine] stops where the test of the [while] loop fails. *)
Lemma advanceLine_exit fuel ls cur pos :
  (length ls <= fuel + cur + 1)%nat ->
  match nth_error ls (advanceLine fuel ls cur pos + 1) with
  | Some s => pos < s
  | None => True
  end.
Proof.
  revert cur. induction fuel as [|fuel IH]; intros cur Hfuel; cbn [advanceLine].
  - destruct (nth_error ls (cur + 1)) eqn:E; [|done].
    assert (cur + 1 < length ls)%nat by (apply nth_error_Some; congruence). lia.
  - destruct (nth_error ls (cur + 1)) as [s|] eqn:E.
    + destruct (Z.leb_spec s pos).
      * apply IH. lia.
      * rewrite E. lia.
    + by rewrite E.
Qed.

Lemma getLine_exit ls prev cur pos :
  match nth_error ls (snd (getLine ls prev cur pos) + 1) with
  | Some s => pos < s
  | None => True
  end.
Proof. unfold getLine. cbn [snd]. apply advanceLine_exit. lia. Qed.

End Fuel.

(** ** The scenarios of the specification *)

Section Scenarios.

Example scenario_expected_type_met :
  walk (mkProgramView Examples.commentTrailing []) (js "next") None = Some [].
Proof. reflexivity. Qed.

Example scenario_expected_type_unmet :
  exists node,
    walk (mkProgramView Examples.expectedString []) (js "next") None
    = Some [AddFailureAtNode node (FAILURE_STRING (js "string") (js "number"))].
Proof. eexists. reflexivity. Qed.

Example scenario_expected_error_met :
  walk (mkProgramView Examples.expectedError [Examples.cannotFindFoo]) (js "next") None
  = Some [].
Proof. reflexivity. Qed.

Example scenario_expected_error_missing :
  walk (mkProgramView Examples.expectedError []) (js "next") None
  = Some [AddFailure 0 22 FAILURE_STRING_EXPECTED_ERROR].
Proof. reflexivity. Qed.

(** A diagnostic without file counts for the middle line: with
    [// $ExpectError] above [b; // $ExpectError], the middle line of three,
    it stands for the expected error and is not reported itself. *)
Example scenario_diagnostic_without_file :
  walk (mkProgramView Edge.twoErrorsOnMiddleLine [Edge.unknownOption]) (js "next") None
  = Some [AddFailure 16 34 FAILURE_STRING_DUPLICATE_ASSERTION]
  /\ walk (mkProgramView Edge.twoErrorsOnMiddleLine []) (js "next") None
     = Some [AddFailure 16 34 FAILURE_STRING_DUPLICATE_ASSERTION;
             AddFailure 16 34 FAILURE_STRING_EXPECTED_ERROR]
  /\ walk (mkProgramView Examples.twoExpectErrors [Edge.unknownOption]) (js "next") None
     = Some [AddFailure 16 38 FAILURE_STRING_DUPLICATE_ASSERTION;
             AddFailureAt 0 0
               (js "TypeScript@next compile error: " ++ LF
                ++ js "Unknown compiler option 'foo'.");
             AddFailure 16 38 FAILURE_STRING_EXPECTED_ERROR].
Proof. repeat split. Qed.

Example scenario_comment_above :
  parseAssertions Examples.commentAbove
  = mkAssertions [] [(1%nat, js "number")] [].
Proof. reflexivity. Qed.

End Scenarios.

(** * Further properties *)

(** ** The normaliser only reorders *)

Section Reordering.

Lemma split_fuel_cons n sep s : exists t l, split_fuel n sep s = t :: l.
Proof.
  destruct n as [|n]; cbn [split_fuel]; [eauto|].
  destruct (cut sep s) as [[before rest]|]; eauto.
Qed.

(** Joining the pieces of a split gives the text back. *)
Lemma join_split_fuel n sep s : join sep (split_fuel n sep s) = s.
Proof.
  revert s. induction n as [|n IH]; intros s; cbn [split_fuel]; [done|].
  destruct (cut sep s) as [[before rest]|] eqn:E; [|done].
  destruct (split_fuel_cons n sep rest) as (t & l & Hl).
  specialize (IH rest). rewrite Hl in IH |- *.
  rewrite join_cons, IH. symmetry. by apply cut_Some.
Qed.

Lemma join_split sep s : join sep (split sep s) = s.
Proof. apply join_split_fuel. Qed.

Lemma join_flat_map sep l :
  l <> [] -> sep ++ join sep l = flat_map (fun s => sep ++ s) l.
Proof.
  induction l as [|s l IH]; [done|]. intros _.
  destruct l as [|t l]; [by cbn; rewrite app_nil_r|].
  rewrite join_cons. cbn [flat_map] in IH |- *.
  rewrite <- IH by done. by rewrite <- !app_assoc.
Qed.

Lemma join_Permutation sep l l' : l ≡ₚ l' -> join sep l ≡ₚ join sep l'.
Proof.
  intros HP. destruct l as [|s l].
  - apply Permutation_nil_l in HP. by subst.
  - assert (Hl' : l' <> []).
    { intros ->. by apply Permutation_nil_r in HP. }
    apply (Permutation_app_inv_l sep).
    rewrite !join_flat_map by done. by apply Permutation_flat_map.
Qed.

Lemma join_Forall2_Permutation sep l l' :
  Forall2 Permutation l l' -> join sep l ≡ₚ join sep l'.
Proof.
  induction 1 as [|s s' l l' Hs Hl IH]; [done|].
  destruct Hl as [|t t' l l' Ht Hl]; [done|].
  rewrite !join_cons. by rewrite Hs, IH.
Qed.

(** A text that starts with [(] and ends with [)] is its inner slice in
    parentheses. *)
Lemma parenthesized_inner s :
  parenthesized s = true -> s = js "(" ++ slice 1 (length s - 1) s ++ js ")".
Proof.
  unfold parenthesized. intros [Hs He]%andb_true_iff.
  unfold startsWith in Hs. destruct (strip_prefix (js "(") s) as [r|] eqn:E; [|done].
  apply strip_prefix_Some in E. subst s.
  unfold endsWith, startsWith in He.
  destruct (strip_prefix (rev (js ")")) (rev (js "(" ++ r))) as [r'|] eqn:E'; [|done].
  apply strip_prefix_Some in E'. apply (f_equal (@rev N)) in E'.
  rewrite rev_involutive, rev_app_distr in E'. cbn [rev js app List.map] in E'.
  change (List.map N_of_ascii (list_ascii_of_string ")")) with [41%N] in E'.
  change (js "(") with [40%N] in *. change (js ")") with [41%N].
  cbn [rev app] in E'.
  destruct (rev r') as [|c mid]; cbn [app] in E'; [discriminate E'|].
  injection E' as <- ->.
  unfold slice. cbn [app skipn length].
  rewrite length_app. cbn [length].
  replace (S (length mid + 1) - 1 - 1)%nat with (length mid + 0)%nat by lia.
  change (drop 0 ?x) with x. rewrite Nat.add_0_r, take_app_length. reflexivity.
Qed.

Lemma fixupIntersections_fuel_Permutation n s : fixupIntersections_fuel n s ≡ₚ s.
Proof.
  revert s. induction n as [|n IH]; intros s; cbn [fixupIntersections_fuel].
  - destruct (parenthesized s); [done|].
    rewrite (join_Permutation _ _ _ (sort_Permutation _)). by rewrite join_split.
  - destruct (parenthesized s) eqn:E.
    + pose proof (parenthesized_inner s E) as Hs.
      transitivity (js "(" ++ slice 1 (length s - 1) s ++ js ")");
        [by rewrite IH|by rewrite <- Hs].
    + rewrite (join_Permutation _ _ _ (sort_Permutation _)). by rewrite join_split.
Qed.

End Reordering.

(** X1.  The normaliser only moves code units: whatever the text, the result
    has the code units of the text, each as often as the text has it, and so
    the same length.  It never adds or drops one. *)
Theorem fixupUnions_Permutation (s : jsstring) :
  fixupUnions s ≡ₚ s /\ length (fixupUnions s) = length s.
Proof.
  assert (H : fixupUnions s ≡ₚ s).
  { unfold fixupUnions.
    rewrite (join_Permutation _ _ _ (sort_Permutation _)).
    rewrite <- (join_split union_splitter s) at 2.
    apply join_Forall2_Permutation.
    induction (split union_splitter s) as [|p l IH]; [done|].
    constructor; [apply fixupIntersections_fuel_Permutation|exact IH]. }
  split; [exact H|]. by apply Permutation_length.
Qed.

Section Unchanged.

Lemma split_fuel_absent n sep s : includes s sep = false -> split_fuel n sep s = [s].
Proof.
  unfold includes. intros H. destruct n as [|n]; cbn [split_fuel]; [done|].
  by destruct (cut sep s).
Qed.

Lemma sort_singleton s : sort [s] = [s].
Proof. apply sort_of_Sorted. repeat constructor. Qed.

Lemma includes_inner s p :
  parenthesized s = true -> includes s p = false ->
  includes (slice 1 (length s - 1) s) p = false.
Proof.
  intros Hs Hp. apply not_true_iff_false. intros (a & b & E)%includes_spec.
  apply not_true_iff_false in Hp. apply Hp, includes_spec.
  exists (js "(" ++ a), (b ++ js ")").
  rewrite (parenthesized_inner s Hs) at 1. rewrite E. by rewrite <- !app_assoc.
Qed.

Lemma fixupIntersections_fuel_absent n s :
  includes s intersection_splitter = false -> fixupIntersections_fuel n s = s.
Proof.
  revert s. induction n as [|n IH]; intros s H; cbn [fixupIntersections_fuel].
  - destruct (parenthesized s); [done|].
    unfold split. by rewrite split_fuel_absent, sort_singleton.
  - destruct (parenthesized s) eqn:E.
    + rewrite IH by (by apply includes_inner). symmetry. by apply parenthesized_inner.
    + unfold split. by rewrite split_fuel_absent, sort_singleton.
Qed.

End Unchanged.

(** X2.  A type text with no union and no intersection in it, that is without
    [" | "] and without [" & "], is left as it is, parentheses and all. *)
Theorem fixupUnions_unchanged (s : jsstring) :
  includes s (js " | ") = false -> includes s (js " & ") = false ->
  fixupUnions s = s.
Proof.
  intros Hu Hi. unfold fixupUnions, split.
  rewrite split_fuel_absent by exact Hu. cbn [List.map].
  rewrite sort_singleton. cbn [join].
  by apply fixupIntersections_fuel_absent.
Qed.

Lemma fixupUnions_unchanged_witness :
  fixupUnions (js "(x: number) => Promise<string[]>")
  = js "(x: number) => Promise<string[]>".
Proof. apply fixupUnions_unchanged; reflexivity. Defined.

(** ** What the scanner records *)

Section ScannerRecords.

#[local] Arguments getLine : simpl never.

Lemma scanDirectives_none ls ts prev cur :
  Forall (fun t => tokenKind t = SingleLineCommentTrivia ->
                   matchDirective (tokenText t) = None) ts ->
  scanDirectives ls ts prev cur = [].
Proof.
  intros H. revert prev cur.
  induction H as [|t ts Ht _ IH]; intros prev cur; [done|].
  cbn [scanDirectives]. destruct (tokenKind t) eqn:E; try done.
  by rewrite Ht.
Qed.

Lemma advanceLine_bound fuel ls cur pos :
  (cur <= length ls)%nat -> (advanceLine fuel ls cur pos <= length ls)%nat.
Proof.
  revert cur. induction fuel as [|fuel IH]; intros cur Hcur; [done|].
  cbn [advanceLine].
  destruct (nth_error ls (cur + 1)) as [s|] eqn:E; [|done].
  destruct (s <=? pos); [|done]. apply IH.
  assert (cur + 1 < length ls)%nat by (apply nth_error_Some; congruence). lia.
Qed.

Lemma getLine_bound ls prev cur pos :
  (cur <= length ls)%nat ->
  (fst (getLine ls prev cur pos) <= length ls)%nat
  /\ (snd (getLine ls prev cur pos) <= length ls)%nat.
Proof.
  intros Hcur. unfold getLine. cbn [fst snd].
  pose proof (advanceLine_bound (length ls) ls cur pos Hcur) as Hadv.
  split; [|done].
  destruct (nth_error ls (advanceLine (length ls) ls cur pos)) as [s|] eqn:E; [|done].
  destruct (prev <? s); [|done].
  assert (advanceLine (length ls) ls cur pos < length ls)%nat
    by (apply nth_error_Some; congruence).
  lia.
Qed.

Lemma scanDirectives_bound ls ts prev cur line d :
  (cur <= length ls)%nat ->
  In (line, d) (scanDirectives ls ts prev cur) -> (line <= length ls)%nat.
Proof.
  revert prev cur. induction ts as [|t ts IH]; intros prev cur Hcur; [done|].
  cbn [scanDirectives]. destruct (tokenKind t); try done; try (by apply IH).
  destruct (matchDirective (tokenText t)) as [d'|]; [|by apply IH].
  destruct (getLine_bound ls prev cur (tokenPos t) Hcur) as [H1 H2].
  destruct (getLine ls prev cur (tokenPos t)) as [line' cur']. cbn [fst snd] in H1, H2.
  intros [E|Hin]; [injection E as -> _; done|]. by apply (IH prev cur').
Qed.

Lemma recordDirective_recordedLines d l a line :
  In line (recordedLines (recordDirective d l a)) ->
  line = l \/ In line (recordedLines a).
Proof.
  unfold recordedLines. rewrite !in_app_iff. destruct d as [t|]; cbn [recordDirective].
  - destruct (map_delete l (typeAssertions a)) as [deleted wasThere] eqn:E.
    assert (Hdel : deleted = fst (map_delete l (typeAssertions a))) by (by rewrite E).
    destruct wasThere; cbn [errorLines typeAssertions duplicates].
    + rewrite in_app_iff. intros [H|[H|[H|[->|[]]]]]; auto.
      subst deleted. apply map_delete_keys in H. auto.
    + rewrite map_set_keys. naive_solver.
  - cbn [errorLines typeAssertions duplicates]. rewrite set_add_In.
    destruct (set_has l (errorLines a)); [rewrite in_app_iff; cbn|]; naive_solver.
Qed.

Lemma recordAll_recordedLines ds a line :
  In line (recordedLines (recordAll ds a)) ->
  In line (List.map fst ds) \/ In line (recordedLines a).
Proof.
  revert a. induction ds as [|[l d] ds IH]; intros a; [by right|].
  cbn [recordAll fold_left List.map fst snd].
  change (fold_left _ ds ?x) with (recordAll ds x).
  intros [H|H]%IH; [left; by right|].
  apply recordDirective_recordedLines in H as [->|H]; [left; by left|by right].
Qed.

Lemma recordAll_snoc ds l d a :
  recordAll (ds ++ [(l, d)]) a = recordDirective d l (recordAll ds a).
Proof. unfold recordAll. by rewrite fold_left_app. Qed.

Lemma countExpectType_snoc line ds l d :
  countExpectType line (ds ++ [(l, d)])
  = (countExpectType line ds
     + if Nat.eqb l line && isExpectType d then 1 else 0)%nat.
Proof.
  unfold countExpectType. rewrite List.filter_app, length_app.
  cbn [List.filter fst snd].
  by destruct (Nat.eqb l line && isExpectType d).
Qed.

Lemma lastExpectType_snoc line ds l d :
  lastExpectType line (ds ++ [(l, d)])
  = match d with
    | ExpectType expectedType =>
        if Nat.eqb l line then Some expectedType else lastExpectType line ds
    | ExpectError => lastExpectType line ds
    end.
Proof. unfold lastExpectType. by rewrite fold_left_app. Qed.

Lemma lastExpectType_Some line ds :
  (0 < countExpectType line ds)%nat -> exists t, lastExpectType line ds = Some t.
Proof.
  induction ds as [|[l d] ds IH] using rev_ind; [cbn; lia|].
  rewrite countExpectType_snoc, lastExpectType_snoc.
  destruct d as [t|]; cbn [isExpectType].
  - destruct (Nat.eqb l line); cbn [andb]; [eauto|].
    rewrite Nat.add_0_r. exact IH.
  - rewrite andb_false_r, Nat.add_0_r. exact IH.
Qed.

Lemma recordAll_expected line ds :
  map_get line (typeAssertions (recordAll ds (mkAssertions [] [] [])))
  = if Nat.odd (countExpectType line ds) then lastExpectType line ds else None.
Proof.
  induction ds as [|[l d] ds IH] using rev_ind; [done|].
  rewrite recordAll_snoc, countExpectType_snoc.
  rewrite lastExpectType_snoc.
  pose proof (recordAll_NoDup ds (mkAssertions [] [] []) NoDup_nil_2) as Hnd.
  set (a := recordAll ds (mkAssertions [] [] [])) in *.
  destruct d as [t|]; cbn [recordDirective isExpectType].
  - pose proof (map_delete_there l (typeAssertions a)) as Hthere.
    pose proof (map_get_delete line l (typeAssertions a) Hnd) as Hdel.
    destruct (map_delete l (typeAssertions a)) as [deleted wasThere].
    cbn [fst snd] in Hthere, Hdel.
    destruct (Nat.eqb_spec l line) as [->|Hne]; cbn [andb].
    + rewrite decide_True in Hdel by done.
      replace (countExpectType line ds + 1)%nat with (S (countExpectType line ds))
        by lia.
      rewrite Nat.odd_succ, <- Nat.negb_odd.
      destruct (map_get line (typeAssertions a)) as [old|] eqn:Hold; subst wasThere;
        cbn [typeAssertions].
      * destruct (Nat.odd (countExpectType line ds)); [done|discriminate IH].
      * rewrite map_get_set, decide_True by done.
        destruct (Nat.odd (countExpectType line ds)) eqn:Hodd; [|done].
        destruct (lastExpectType_Some line ds) as [t' Ht']; [|congruence].
        destruct (countExpectType line ds); [discriminate Hodd|lia].
    + rewrite decide_False in Hdel by congruence. rewrite Nat.add_0_r.
      destruct wasThere; cbn [typeAssertions].
      * by rewrite Hdel.
      * rewrite map_get_set, decide_False by congruence. done.
  - cbn [typeAssertions]. rewrite andb_false_r, Nat.add_0_r. done.
Qed.

End ScannerRecords.

(** X3.  Only single-line comments that carry a directive are assertions: when
    no single-line comment token of the file matches the directive pattern,
    whatever the other tokens are (a block comment or a string that mentions
    [$ExpectType], say), the scanner records nothing. *)
Theorem parseAssertions_no_directive (source : SourceFile) :
  Forall (fun t => tokenKind t = SingleLineCommentTrivia ->
                   matchDirective (tokenText t) = None) (tokens source) ->
  parseAssertions source = mkAssertions [] [] [].
Proof.
  intros H. rewrite parseAssertions_directives. unfold directives.
  by rewrite scanDirectives_none.
Qed.

Lemma parseAssertions_no_directive_witness :
  parseAssertions Edge.blockComment = mkAssertions [] [] [].
Proof.
  apply parseAssertions_no_directive.
  repeat (apply List.Forall_cons; [cbn; discriminate|]). apply List.Forall_nil.
Defined.

(** X4.  Every line the scanner records, in the error lines, the type
    assertions or the duplicates, is at most the number of lines of the
    file: a directive never applies further than one line past the last. *)
Theorem parseAssertions_line_bound (source : SourceFile) (line : nat) :
  In line (recordedLines (parseAssertions source)) ->
  (line <= length (lineStarts source))%nat.
Proof.
  rewrite parseAssertions_directives.
  intros [H|H]%recordAll_recordedLines; [|done].
  apply in_map_iff in H as ([l d] & <- & Hin).
  apply (scanDirectives_bound _ _ _ _ _ _ (Nat.le_0_l _) Hin).
Qed.

Lemma parseAssertions_line_bound_witness :
  In 2%nat (recordedLines (parseAssertions Edge.lastLineDirective))
  /\ (2 <= length (lineStarts Edge.lastLineDirective))%nat.
Proof.
  assert (H : In 2%nat (recordedLines (parseAssertions Edge.lastLineDirective)))
    by (vm_compute; auto).
  split; [exact H|]. exact (parseAssertions_line_bound Edge.lastLineDirective 2 H).
Defined.

(** X5.  The expected type the scanner keeps for a line is that of the last
    [$ExpectType] comment that applies to the line, and it keeps one exactly
    when an odd number of them applies: every second one deletes the entry
    the one before it has set. *)
Theorem parseAssertions_expected (source : SourceFile) (line : nat) :
  map_get line (typeAssertions (parseAssertions source))
  = if Nat.odd (countExpectType line (directives source))
    then lastExpectType line (directives source)
    else None.
Proof. rewrite parseAssertions_directives. apply recordAll_expected. Qed.

(** ** What the node matcher reports *)

(** X6.  An [$ExpectType] assertion is reported as unused exactly when it is
    pending after the scan and no node of the tree starts on its line; such
    a line has no type mismatch. *)
Theorem getExpectTypeFailures_unused (sourceFile : SourceFile) (line : nat) :
  let assertions := typeAssertions (parseAssertions sourceFile) in
  let r := getExpectTypeFailures sourceFile assertions in
  (In line (unusedAssertions r)
   <-> pendingAt line (parseAssertions sourceFile) = true
       /\ firstOnLine sourceFile line = None)
  /\ (In line (unusedAssertions r) -> unmetOnLine sourceFile line (unmet r) = []).
Proof.
  intros ta r. subst r. unfold getExpectTypeFailures. cbn [unmet unusedAssertions].
  destruct (statements_visited sourceFile (mkMatchState ta []))
    as [_ H]; [apply parseAssertions_NoDup|].
  specialize (H line). cbn zeta in H. cbn [pending unmetExpectations] in H.
  unfold pendingAt, firstOnLine. fold ta.
  set (st' := fold_left _ _ _) in *.
  pose proof (map_get_None_keys line (pending st')) as Hkeys.
  destruct (map_get line ta) as [expected|].
  - destruct (List.find _ _) as [n|]; destruct H as [H1 H2].
    + split; [split; [|by intros [_ ?]]|]; intros Hin; by apply Hkeys in Hin.
    + split; [split; [done|]|done]. intros _.
      destruct (in_dec Nat.eq_dec line (map_keys (pending st'))) as [|Hn]; [done|].
      apply Hkeys in Hn. congruence.
  - destruct H as [H1 H2].
    split; [split; [|by intros [? _]]|]; intros Hin; by apply Hkeys in Hin.
Qed.

(** X7.  Every type mismatch the matcher reports comes from an assertion: its
    node is the first node in pre-order that starts on its line (an
    expression statement standing for its expression), the expected text is
    the one pending for that line, the actual text is the normalised type of
    the node and differs from the expected one; and it is the only mismatch
    reported for the line. *)
Theorem getExpectTypeFailures_unmet (sourceFile : SourceFile) (u : UnmetExpectation) :
  let assertions := typeAssertions (parseAssertions sourceFile) in
  let r := getExpectTypeFailures sourceFile assertions in
  let line := lineOfPosition (getStart (unmetNode u)) sourceFile in
  In u (unmet r) ->
  (exists node,
      firstOnLine sourceFile line = Some node /\ unmetNode u = unwrap node)
  /\ map_get line assertions = Some (unmetExpected u)
  /\ unmetActual u = fixupUnions (typeToString (unmetNode u))
  /\ unmetActual u <> unmetExpected u
  /\ unmetOnLine sourceFile line (unmet r) = [u].
Proof.
  intros ta r line Hin. subst r. unfold getExpectTypeFailures in *.
  cbn [unmet unusedAssertions] in *.
  destruct (statements_visited sourceFile (mkMatchState ta []))
    as [_ H]; [apply parseAssertions_NoDup|].
  specialize (H line). cbn zeta in H. cbn [pending unmetExpectations] in H.
  set (st' := fold_left _ _ _) in *.
  assert (Hon : In u (unmetOnLine sourceFile line (unmetExpectations st'))).
  { apply filter_In. split; [done|]. unfold startsOnLine. apply Nat.eqb_refl. }
  unfold firstOnLine.
  destruct (map_get line ta) as [expected|].
  - destruct (List.find _ _) as [n|]; destruct H as [H1 H2]; rewrite H2 in Hon |- *;
      [|done].
    cbn [unmetOnLine List.filter app] in Hon |- *.
    destruct (decide (fixupUnions (typeToString (unwrap n)) = expected)) as [|Hne];
      [done|].
    destruct Hon as [<-|[]]. cbn [unmetNode unmetExpected unmetActual].
    split; [by exists n|]. done.
  - destruct H as [H1 H2]. by rewrite H2 in Hon.
Qed.

Lemma getExpectTypeFailures_unmet_witness :
  let source := Examples.expectedString in
  let r := getExpectTypeFailures source (typeAssertions (parseAssertions source)) in
  length (unmet r) = 1%nat
  /\ Forall (fun u => unmetExpected u = js "string"
                      /\ unmetActual u <> unmetExpected u) (unmet r).
Proof.
  intros source r. split; [reflexivity|].
  apply Forall_forall. intros u Hin%list_elem_of_In.
  destruct (getExpectTypeFailures_unmet source u Hin) as (_ & Hget & _ & Hne & _).
  split; [|exact Hne].
  assert (Hline : lineOfPosition (getStart (unmetNode u)) source = 0%nat)
    by reflexivity.
  assert (E : map_get 0%nat (typeAssertions (parseAssertions source))
              = Some (js "string")) by reflexivity.
  rewrite Hline, E in Hget. by injection Hget.
Defined.

(** ** The failures of a run *)

Section RunFailures.

(** The result of the matcher, line by line. *)
Lemma getExpectTypeFailures_by_line source ta line :
  NoDup (map_keys ta) ->
  let r := getExpectTypeFailures source ta in
  match map_get line ta with
  | None => ~ In line (unusedAssertions r) /\ unmetOnLine source line (unmet r) = []
  | Some expected =>
      match firstOnLine source line with
      | None => In line (unusedAssertions r) /\ unmetOnLine source line (unmet r) = []
      | Some n =>
          let actual := fixupUnions (typeToString (unwrap n)) in
          ~ In line (unusedAssertions r)
          /\ unmetOnLine source line (unmet r)
             = if decide (actual = expected) then []
               else [mkUnmet (unwrap n) expected actual]
      end
  end.
Proof.
  intros Hnd r. subst r. unfold getExpectTypeFailures. cbn [unmet unusedAssertions].
  destruct (statements_visited source (mkMatchState ta [])) as [_ H]; [done|].
  specialize (H line). cbn zeta in H. cbn [pending unmetExpectations] in H.
  unfold firstOnLine.
  set (st' := fold_left _ _ _) in *.
  pose proof (map_get_None_keys line (pending st')) as Hkeys.
  destruct (map_get line ta) as [expected|].
  - destruct (List.find _ _) as [n|]; destruct H as [H1 H2].
    + split; [by apply Hkeys|exact H2].
    + split; [|exact H2].
      destruct (in_dec Nat.eq_dec line (map_keys (pending st'))) as [|Hn]; [done|].
      apply Hkeys in Hn. congruence.
  - destruct H as [H1 H2]. split; [by apply Hkeys|exact H2].
Qed.

Lemma unmet_on_its_line source (us : list UnmetExpectation) u :
  In u us ->
  In u (unmetOnLine source (lineOfPosition (getStart (unmetNode u)) source) us).
Proof.
  intros Hin. apply filter_In. split; [done|]. unfold startsOnLine. apply Nat.eqb_refl.
Qed.

Lemma no_member_nil {A} (l : list A) : (forall x, ~ In x l) -> l = [].
Proof. destruct l as [|a l]; [done|]. intros H. destruct (H a). by left. Qed.


Lemma addFailureAtLine_hasLine source line msg :
  hasLine source line = true <-> exists f, addFailureAtLine source line msg = Some f.
Proof.
  unfold hasLine, addFailureAtLine, getPositionOfLineAndCharacter.
  rewrite andb_true_iff, !Nat.ltb_lt, <- !nth_error_Some.
  destruct (nth_error (lineStarts source) line) as [s|]; cbn [mbind option_bind].
  - destruct (nth_error (split LF (text source)) line) as [t|]; cbn [mbind option_bind].
    + split; [eauto|]. done.
    + split; [by intros [_ ?]|by intros [? ?]].
  - split; [by intros [? _]|by intros [? ?]].
Qed.

Lemma addFailureAtLine_throws source line msg :
  hasLine source line = false <-> addFailureAtLine source line msg = None.
Proof.
  pose proof (addFailureAtLine_hasLine source line msg) as H.
  destruct (hasLine source line), (addFailureAtLine source line msg) as [f|].
  - done.
  - destruct (proj1 H eq_refl) as [f ?]. done.
  - split; [|done]. intros _. destruct H as [_ H]. discriminate H. eauto.
  - done.
Qed.

Lemma mapM_addFailureAtLine_None source msg ls :
  mapM (fun line => addFailureAtLine source line msg) ls = None
  <-> exists line, In line ls /\ hasLine source line = false.
Proof.
  rewrite mapM_None, List.Exists_exists.
  split; intros (line & Hin & H); exists line; (split; [done|]);
    by apply (addFailureAtLine_throws source line msg).
Qed.

Lemma walk_expect_file_None program v nh :
  let source := sourceFile program in
  let a := parseAssertions source in
  let r := getExpectTypeFailures source (typeAssertions a) in
  isExpectFile source = true ->
  (walk program v nh = None
   <-> exists line,
         hasLine source line = false
         /\ (In line (duplicates a)
             \/ (In line (errorLines a)
                 /\ diagnosticOnLine source line (diagnostics program) = false)
             \/ In line (unusedAssertions r))).
Proof.
  intros source a r Hexpect.
  rewrite (walk_expect_file program v nh Hexpect). cbn zeta. fold source a r.
  pose proof (mapM_addFailureAtLine_None source FAILURE_STRING_DUPLICATE_ASSERTION
                (duplicates a)) as Hdup.
  pose proof (mapM_addFailureAtLine_None source FAILURE_STRING_EXPECTED_ERROR
                (List.filter
                   (fun line => negb (diagnosticOnLine source line (diagnostics program)))
                   (errorLines a))) as Herr.
  pose proof (mapM_addFailureAtLine_None source FAILURE_STRING_ASSERTION_MISSING_NODE
                (unusedAssertions r)) as Hun.
  destruct (mapM _ (duplicates a)) as [dupF|]; cbn [mbind option_bind].
  - destruct (mapM _ (List.filter _ (errorLines a))) as [errF|];
      cbn [mbind option_bind].
    + destruct (mapM _ (unusedAssertions r)) as [unF|]; cbn [mbind option_bind].
      * split; [done|]. intros (line & Hno & [Hin|[[Hin Hd]|Hin]]); exfalso.
        -- assert (H : @None (list Failure) = None -> False); [|by apply H].
           intros _. destruct Hdup as [_ Hdup]. discriminate Hdup. eauto.
        -- destruct Herr as [_ Herr]. discriminate Herr. exists line. split; [|done].
           apply filter_In. by rewrite Hd.
        -- destruct Hun as [_ Hun]. discriminate Hun. eauto.
      * split; [|done]. intros _. destruct (proj1 Hun eq_refl) as (line & Hin & Hno).
        exists line. auto.
    + split; [|done]. intros _. destruct (proj1 Herr eq_refl) as (line & Hin & Hno).
      apply filter_In in Hin as [Hin Hd]. apply negb_true_iff in Hd.
      exists line. auto.
  - split; [|done]. intros _. destruct (proj1 Hdup eq_refl) as (line & Hin & Hno).
    exists line. auto.
Qed.

Lemma getExpectTypeFailures_nil source :
  getExpectTypeFailures source [] = mkExpectTypeFailures [] [].
Proof.
  pose proof (fun line => getExpectTypeFailures_by_line source [] line (NoDup_nil_2))
    as H. cbn zeta in H. cbn [map_get] in H.
  destruct (getExpectTypeFailures source []) as [us ls].
  cbn [unmet unusedAssertions] in H.
  f_equal.
  - apply no_member_nil. intros u Hin.
    apply (unmet_on_its_line source) in Hin.
    by rewrite (proj2 (H _)) in Hin.
  - apply no_member_nil. intros line. apply (H line).
Qed.

End RunFailures.





(** X10.  With a program that has the file, and the calls on the compiler
    returning, a run throws exactly when, in a file with directives, it has
    to add a failure for a line the file does not have: a duplicate
    assertion, a missing expected error or an unmatched assertion recorded
    for a line past the last one.  Every other run returns its failures. *)
Theorem walk_throws
    (program : ProgramView) (versionName : jsstring)
    (nextHigherVersion : option jsstring) :
  let source := sourceFile program in
  let a := parseAssertions source in
  let r := getExpectTypeFailures source (typeAssertions a) in
  walk program versionName nextHigherVersion = None
  <-> isExpectFile source = true
      /\ exists line,
           hasLine source line = false
           /\ (In line (duplicates a)
               \/ (In line (errorLines a)
                   /\ diagnosticOnLine source line (diagnostics program) = false)
               \/ In line (unusedAssertions r)).
Proof.
  intros source a r. destruct (isExpectFile source) eqn:Hexpect.
  - rewrite (walk_expect_file_None program versionName nextHigherVersion Hexpect).
    fold source a r. naive_solver.
  - split; [|by intros [? _]]. unfold walk. fold source.
    unfold isExpectFile in Hexpect. apply negb_false_iff in Hexpect.
    by rewrite Hexpect.
Qed.

(** X11.  A directive that the scanner records for the line past the last line
    of the file (a directive comment that is the first token of the last
    line) makes the run throw, instead of reporting anything. *)
Theorem walk_throws_past_last_line
    (program : ProgramView) (versionName : jsstring)
    (nextHigherVersion : option jsstring) (line : nat) :
  let source := sourceFile program in
  isExpectFile source = true ->
  lineStarts source <> [] ->
  In line (recordedLines (parseAssertions source)) ->
  (length (lineStarts source) <= line)%nat ->
  walk program versionName nextHigherVersion = None.
Proof.
  intros source Hexpect Hne Hin Hline.
  apply (walk_expect_file_None program versionName nextHigherVersion Hexpect).
  fold source. exists line.
  assert (Hno : hasLine source line = false).
  { unfold hasLine. apply andb_false_iff. left. apply Nat.ltb_ge. exact Hline. }
  assert (Hpos : forall pos, lineOfPosition pos source <> line).
  { intros pos. unfold lineOfPosition.
    pose proof (lineIndex_bound (lineStarts source) pos).
    destruct (lineStarts source); [done|]. cbn [length] in *. lia. }
  split; [done|].
  unfold recordedLines in Hin. rewrite !in_app_iff in Hin.
  destruct Hin as [Hin|[Hin|Hin]]; [right; left|right; right|by left].
  - split; [done|]. unfold diagnosticOnLine.
    apply not_true_iff_false. intros (d & _ & Hd)%existsb_exists.
    apply Nat.eqb_eq in Hd. unfold diagnosticLine in Hd.
    destruct (diagStart d) as [start|]; [by apply (Hpos start)|].
    pose proof (Nat.div_mod_eq (length (lineStarts source) - 1) 2).
    destruct (lineStarts source); [done|]. cbn [length] in *. lia.
  - pose proof (getExpectTypeFailures_by_line source
                  (typeAssertions (parseAssertions source)) line
                  (parseAssertions_NoDup source)) as H.
    cbn zeta in H.
    destruct (map_get line (typeAssertions (parseAssertions source))) eqn:Hget;
      [|by apply map_get_None_keys in Hget].
    destruct (firstOnLine source line) as [n|] eqn:Hfirst; [|by destruct H].
    unfold firstOnLine in Hfirst. apply find_some in Hfirst as [_ Hn].
    unfold startsOnLine in Hn. apply Nat.eqb_eq in Hn. by apply Hpos in Hn.
Qed.

Lemma walk_throws_past_last_line_witness :
  walk (mkProgramView Edge.lastLineDirective []) (js "next") None = None.
Proof.
  apply (walk_throws_past_last_line _ _ _ 2); [reflexivity|discriminate| |cbn; lia].
  vm_compute. auto.
Defined.

(** X12.  The test for [$Expect] in the text is a shortcut only: whenever the
    scanner would find no directive (the text may mention one inside a block
    comment or a string), the run reports every diagnostic, one for one and
    in order, and nothing else, as it does for a normal file: a diagnostic
    of the file at its start, of its length, with the introduction, a line
    feed and its flattened message text; any other diagnostic at position 0
    with length 0, with the introduction, a line feed, the name of its file
    and a colon when it has a file, and its message text. *)
Theorem walk_without_directives
    (program : ProgramView) (versionName : jsstring)
    (nextHigherVersion : option jsstring) :
  Forall (fun t => tokenKind t = SingleLineCommentTrivia ->
                   matchDirective (tokenText t) = None)
    (tokens (sourceFile program)) ->
  let intro := getIntro versionName nextHigherVersion in
  walk program versionName nextHigherVersion
  = Some (List.map
            (fun d =>
               match diagFile d with
               | SameFile start length =>
                   AddFailureAt start length (intro ++ LF ++ flattenedMessageText d)
               | OtherFile fileName _ _ =>
                   AddFailureAt 0 0
                     (intro ++ LF ++ fileName ++ js ": " ++ messageText d)
               | NoFile => AddFailureAt 0 0 (intro ++ LF ++ messageText d)
               end)
            (diagnostics program)).
Proof.
  intros Hnone intro.
  rewrite <- (map_ext _ _ (addDiagnosticFailure_eq versionName nextHigherVersion)).
  assert (Ha : parseAssertions (sourceFile program) = mkAssertions [] [] []).
  { rewrite parseAssertions_directives. unfold directives.
    by rewrite scanDirectives_none. }
  destruct (isExpectFile (sourceFile program)) eqn:Hexpect.
  - rewrite (walk_expect_file program versionName nextHigherVersion Hexpect).
    cbn zeta. rewrite Ha. cbn [duplicates errorLines typeAssertions].
    rewrite getExpectTypeFailures_nil. cbn [unmet unusedAssertions List.filter].
    cbn [mapM mbind option_bind mret option_ret List.map app].
    rewrite app_nil_r. do 2 f_equal.
    rewrite (filter_ext _ (fun _ => true)) by done.
    induction (diagnostics program) as [|d ds IH]; [done|].
    cbn [List.filter]. by rewrite IH.
  - unfold walk. unfold isExpectFile in Hexpect. apply negb_false_iff in Hexpect.
    by rewrite Hexpect.
Qed.

Lemma walk_without_directives_witness :
  walk (mkProgramView Edge.blockComment [Edge.cannotFindFoo; Edge.unknownOption])
    (js "2.0") None
  = Some [AddFailureAt 19 3
            (js "TypeScript@2.0 compile error: " ++ LF
             ++ js "Cannot find name 'foo'.");
          AddFailureAt 0 0
            (js "TypeScript@2.0 compile error: " ++ LF
             ++ js "Unknown compiler option 'foo'.")].
Proof.
  apply (walk_without_directives
           (mkProgramView Edge.blockComment [Edge.cannotFindFoo; Edge.unknownOption])).
  repeat (apply List.Forall_cons; [cbn; discriminate|]). apply List.Forall_nil.
Defined.

(** X13.  A failure added for a line starts on that line, as the line map of
    the file counts lines, and carries the message given. *)
Theorem addFailureAtLine_line
    (sourceFile : SourceFile) (line : nat) (failure : jsstring) (f : Failure) :
  lineMapOk (lineStarts sourceFile) = true ->
  addFailureAtLine sourceFile line failure = Some f ->
  failureLine sourceFile f = line /\ failureMessage f = failure.
Proof.
  intros Hok Hf.
  destruct (addFailureAtLine_Some sourceFile line failure f Hf) as [Hm Hs].
  split; [|done]. unfold failureLine, lineOfPosition.
  apply lineIndex_of_start; [|done].
  unfold lineMapOk in Hok. destruct (lineStarts sourceFile) as [|[| |] ?]; done.
Qed.

Lemma addFailureAtLine_line_witness :
  let f := AddFailure 16 38 FAILURE_STRING_EXPECTED_ERROR in
  failureLine Examples.twoExpectErrors f = 1%nat
  /\ failureMessage f = FAILURE_STRING_EXPECTED_ERROR.
Proof.
  intros f.
  apply (addFailureAtLine_line Examples.twoExpectErrors 1
           FAILURE_STRING_EXPECTED_ERROR f); reflexivity.
Defined.

(** ** The span of a failure added for a line *)

Section LineSpan.

Lemma cut_LF s before rest :
  cut LF s = Some (before, rest) -> s = before ++ LF ++ rest /\ 10%N ∉ before.
Proof.
  intros H. split; [by apply cut_Some|].
  revert before H. induction s as [|c s IH]; intros before; rewrite cut_eq.
  - done.
  - cbn [strip_prefix LF].
    destruct (N.eqb_spec 10 c) as [<-|Hne].
    + intros [= <- <-]. apply not_elem_of_nil.
    + destruct (cut LF s) as [[b r]|]; [|done].
      intros [= <- <-]. apply not_elem_of_cons. split; [done|]. by apply IH.
Qed.

Lemma lineStartsFrom_app pos before rest :
  10%N ∉ before ->
  lineStartsFrom pos (before ++ LF ++ rest)
  = (pos + Z.of_nat (length before) + 1)
    :: lineStartsFrom (pos + Z.of_nat (length before) + 1) rest.
Proof.
  revert pos. induction before as [|c before IH]; intros pos Hno.
  - cbn. by rewrite Z.add_0_r.
  - apply not_elem_of_cons in Hno as [Hc Hno]. cbn [app lineStartsFrom].
    destruct (N.eqb_spec c 10) as [->|_]; [done|].
    rewrite IH by done. cbn [length]. do 2 f_equal; lia.
Qed.

(** Line [line] of [text.split("\n")], and where the line map has it. *)
Lemma split_LF_line text line lineText pos :
  nth_error (split LF text) line = Some lineText ->
  exists pre post,
    text = pre ++ lineText ++ post
    /\ nth_error (pos :: lineStartsFrom pos text) line
       = Some (pos + Z.of_nat (length pre))
    /\ (pre = [] \/ exists pre', pre = pre' ++ LF).
Proof.
  revert text pos. induction line as [|line IH]; intros text pos;
    rewrite split_eq by done.
  - destruct (cut LF text) as [[before rest]|] eqn:E.
    + intros [= <-]. apply cut_LF in E as [-> _].
      exists [], (LF ++ rest). cbn. rewrite Z.add_0_r. auto.
    + intros [= <-]. exists [], []. cbn. rewrite app_nil_r, Z.add_0_r. auto.
  - destruct (cut LF text) as [[before rest]|] eqn:E; [|by destruct line].
    cbn [nth_error]. intros H. apply cut_LF in E as [-> Hno].
    destruct (IH rest (pos + Z.of_nat (length before) + 1) H)
      as (pre & post & Hrest & Hnth & Hpre).
    exists (before ++ LF ++ pre), post. split; [|split].
    + rewrite Hrest at 1. by rewrite <- !app_assoc.
    + rewrite lineStartsFrom_app by done. rewrite Hnth. f_equal.
      rewrite !length_app. cbn [length LF]. lia.
    + right. destruct Hpre as [->|[pre' ->]].
      * exists before. by rewrite app_nil_r.
      * exists (before ++ LF ++ pre'). by rewrite <- !app_assoc.
Qed.

Lemma charAt_app_length pre c post :
  charAt (pre ++ c :: post) (Z.of_nat (length pre)) = Some c.
Proof.
  unfold charAt. destruct (Z.ltb_spec (Z.of_nat (length pre)) 0) as [|_]; [lia|].
  rewrite Nat2Z.id. by rewrite nth_error_app2, Nat.sub_diag by lia.
Qed.

Lemma slice_middle pre mid post :
  slice (length pre) (length pre + length mid) (pre ++ mid ++ post) = mid.
Proof.
  unfold slice. rewrite drop_app_length.
  replace (length pre + length mid - length pre)%nat with (length mid) by lia.
  apply take_app_length.
Qed.

End LineSpan.

(** X14.  In a file whose lines end with a line feed, alone or after a carriage
    return, the failure added for a line the file has spans the text of that
    line, from its first code unit to its last, without the line break: a
    carriage return at the end of the line is left out. *)
Theorem addFailureAtLine_span
    (sourceFile : SourceFile) (line : nat) (failure lineText : jsstring) :
  lineStarts sourceFile = lfLineStarts (text sourceFile) ->
  nth_error (split LF (text sourceFile)) line = Some lineText ->
  exists start end_ : nat,
    addFailureAtLine sourceFile line failure
    = Some (AddFailure (Z.of_nat start) (Z.of_nat end_) failure)
    /\ (start <= end_)%nat
    /\ slice start end_ (text sourceFile) = withoutCR lineText.
Proof.
  intros Hmap Hline.
  destruct (split_LF_line (text sourceFile) line lineText 0 Hline)
    as (pre & post & Htext & Hnth & Hpre).
  unfold addFailureAtLine, getPositionOfLineAndCharacter.
  rewrite Hmap. unfold lfLineStarts. rewrite Hnth, Hline.
  cbn [mbind option_bind]. rewrite !Z.add_0_l, Z.add_0_r.
  destruct lineText as [|c lineText _] using rev_ind.
  - (* an empty line: the code unit before it is a line feed, or there is none *)
    exists (length pre), (length pre). cbn [length]. rewrite Z.add_0_r.
    rewrite decide_False.
    + split; [done|]. split; [done|].
      rewrite Htext. unfold slice. by rewrite Nat.sub_diag.
    + rewrite Htext. destruct Hpre as [->|[pre' ->]].
      * done.
      * rewrite length_app. cbn [length LF].
        replace (Z.of_nat (length pre' + 1) - 1) with (Z.of_nat (length pre')) by lia.
        rewrite <- !app_assoc. cbn [app LF]. by rewrite charAt_app_length.
  - assert (Hlast : charAt (text sourceFile)
                      (Z.of_nat (length pre) + Z.of_nat (length (lineText ++ [c])) - 1)
                    = Some c).
    { rewrite Htext, length_app. cbn [length].
      replace (Z.of_nat (length pre) + Z.of_nat (length lineText + 1) - 1)
        with (Z.of_nat (length (pre ++ lineText))) by (rewrite length_app; lia).
      rewrite <- !app_assoc. cbn [app]. rewrite app_assoc. apply charAt_app_length. }
    rewrite Hlast. unfold withoutCR. rewrite rev_app_distr. cbn [rev app].
    destruct (N.eqb_spec c 13) as [->|Hne].
    + rewrite decide_True by done.
      exists (length pre), (length pre + length lineText)%nat.
      split; [|split; [lia|]].
      * do 2 f_equal. rewrite length_app. cbn [length]. lia.
      * rewrite rev_involutive, Htext, <- !app_assoc. apply slice_middle.
    + rewrite decide_False by congruence.
      exists (length pre), (length pre + length (lineText ++ [c]))%nat.
      split; [|split; [lia|]].
      * do 2 f_equal. lia.
      * rewrite Htext. apply slice_middle.
Qed.

Lemma addFailureAtLine_span_witness :
  exists start end_ : nat,
    addFailureAtLine Edge.crlf 0 FAILURE_STRING_EXPECTED_ERROR
    = Some (AddFailure (Z.of_nat start) (Z.of_nat end_) FAILURE_STRING_EXPECTED_ERROR)
    /\ (start <= end_)%nat
    /\ slice start end_ (text Edge.crlf) = js "a; // $ExpectError".
Proof.
  exact (addFailureAtLine_span Edge.crlf 0 FAILURE_STRING_EXPECTED_ERROR
           (js "a; // $ExpectError" ++ [13%N]) eq_refl eq_refl).
Defined.

(** ** A type assertion, from the comment to the failure *)

Section TypeAssertionFailures.
Variable program : ProgramView.
Let source := sourceFile program.

Lemma getExpectTypeFailures_unused_NoDup ta :
  NoDup (map_keys ta) ->
  NoDup (unusedAssertions (getExpectTypeFailures source ta)).
Proof.
  intros Hnd. unfold getExpectTypeFailures. cbn [unusedAssertions].
  by destruct (statements_visited source (mkMatchState ta [])) as [H _].
Qed.

(** The five parts of the failures of a run. *)
Lemma walk_parts v nh fs :
  isExpectFile source = true ->
  walk program v nh = Some fs ->
  let a := parseAssertions source in
  let r := getExpectTypeFailures source (typeAssertions a) in
  exists dupF errF unusedF,
    Forall (fun f => failureMessage f = FAILURE_STRING_DUPLICATE_ASSERTION) dupF
    /\ Forall (fun f => failureMessage f = FAILURE_STRING_EXPECTED_ERROR) errF
    /\ Forall2 (fun l f => addFailureAtLine source l
                             FAILURE_STRING_ASSERTION_MISSING_NODE = Some f)
         (unusedAssertions r) unusedF
    /\ fs = dupF
            ++ List.map (addDiagnosticFailure v nh)
                 (unexpectedDiagnostics source (errorLines a) (diagnostics program))
            ++ errF
            ++ List.map (fun u => AddFailureAtNode (unmetNode u)
                                    (FAILURE_STRING (unmetExpected u) (unmetActual u)))
                 (unmet r)
            ++ unusedF.
Proof.
  intros Hexpect Hwalk a r.
  rewrite (walk_expect_file program v nh Hexpect) in Hwalk.
  cbn zeta in Hwalk. fold source a r in Hwalk.
  destruct (mapM _ (duplicates a)) as [dupF|] eqn:Hdup; [|done].
  cbn [mbind option_bind] in Hwalk.
  destruct (mapM _ (List.filter _ (errorLines a))) as [errF|] eqn:Herr; [|done].
  cbn [mbind option_bind] in Hwalk.
  destruct (mapM _ (unusedAssertions r)) as [unusedF|] eqn:Hunused; [|done].
  cbn [mbind option_bind] in Hwalk. injection Hwalk as <-.
  exists dupF, errF, unusedF.
  split; [by apply mapM_addFailureAtLine_messages in Hdup|].
  split; [by apply mapM_addFailureAtLine_messages in Herr|].
  split; [by apply mapM_Some|done].
Qed.

End TypeAssertionFailures.

(** X15.  A pending [$ExpectType] assertion, end to end.  In a completed run
    over a file with directives, take a line with a pending assertion.  When
    no node starts on the line, the run reports the unmatched assertion
    once, and no type mismatch on the line.  When a node does, the first in
    pre-order (an expression statement standing for its expression), the
    run reports no unmatched assertion; it reports a type mismatch at that
    node, with the expected text and the normalised type of the node in the
    message, when the two differ, and it reports no other type mismatch on
    the line. *)
Theorem walk_type_assertion
    (program : ProgramView) (versionName : jsstring)
    (nextHigherVersion : option jsstring) (fs : list Failure)
    (line : nat) (expected : jsstring) :
  let source := sourceFile program in
  isExpectFile source = true ->
  lineMapOk (lineStarts source) = true ->
  walk program versionName nextHigherVersion = Some fs ->
  map_get line (typeAssertions (parseAssertions source)) = Some expected ->
  let unmatched :=
    countFailures source FAILURE_STRING_ASSERTION_MISSING_NODE line fs in
  match firstOnLine source line with
  | None =>
      unmatched = 1%nat
      /\ forall f, In f fs -> failureLine source f = line -> ~ isTypeMismatch f
  | Some node =>
      let actual := fixupUnions (typeToString (unwrap node)) in
      let mismatch := AddFailureAtNode (unwrap node) (FAILURE_STRING expected actual) in
      unmatched = 0%nat
      /\ (actual <> expected -> In mismatch fs)
      /\ forall f, In f fs -> failureLine source f = line -> isTypeMismatch f ->
                   f = mismatch /\ actual <> expected
  end.
Proof.
  intros source Hexpect Hok Hwalk Hget unmatched. subst unmatched.
  destruct (walk_parts program versionName nextHigherVersion fs Hexpect Hwalk)
    as (dupF & errF & unusedF & Mdup & Merr & Hunused & ->).
  clear Hwalk.
  fold source in Mdup, Merr, Hunused |- *.
  pose proof (getExpectTypeFailures_by_line source
                (typeAssertions (parseAssertions source)) line
                (parseAssertions_NoDup source)) as Hline.
  pose proof (getExpectTypeFailures_unused_NoDup program
                (typeAssertions (parseAssertions source))
                (parseAssertions_NoDup source)) as Hnd.
  fold source in Hnd. cbn zeta in Hline. rewrite Hget in Hline.
  remember (getExpectTypeFailures source (typeAssertions (parseAssertions source)))
    as r eqn:Hr.
  remember (parseAssertions source) as a eqn:Ha. clear Hr Ha.
  set (diagF := List.map (addDiagnosticFailure versionName nextHigherVersion) _) in *.
  set (unmetF := List.map _ (unmet r)) in *.
  (* the unmatched assertions reported for the line *)
  assert (Hcount :
    countFailures source FAILURE_STRING_ASSERTION_MISSING_NODE line
      (dupF ++ diagF ++ errF ++ unmetF ++ unusedF)
    = count_occ Nat.eq_dec (unusedAssertions r) line).
  { rewrite !countFailures_app.
    rewrite (countFailures_other source _ line dupF)
      by (eapply Forall_impl; [exact Mdup|]; by intros f ->).
    rewrite (countFailures_other source _ line diagF).
    2:{ apply Forall_forall. intros f Hf.
        apply list_elem_of_In, in_map_iff in Hf as (d & <- & _).
        apply addDiagnosticFailure_not_fixed. left. cbn. tauto. }
    rewrite (countFailures_other source _ line errF)
      by (eapply Forall_impl; [exact Merr|]; by intros f ->).
    rewrite (countFailures_other source _ line unmetF).
    2:{ apply Forall_forall. intros f Hf.
        apply list_elem_of_In, in_map_iff in Hf as (u & <- & _).
        apply FAILURE_STRING_not_fixed. cbn. tauto. }
    by rewrite (countFailures_lines source _ line (unusedAssertions r) unusedF Hok
                  Hunused). }
  (* the type mismatches reported on the line *)
  assert (Hmis : forall f,
    In f (dupF ++ diagF ++ errF ++ unmetF ++ unusedF) ->
    failureLine source f = line -> isTypeMismatch f ->
    exists u, In u (unmetOnLine source line (unmet r))
              /\ f = AddFailureAtNode (unmetNode u)
                       (FAILURE_STRING (unmetExpected u) (unmetActual u))).
  { intros f Hf Hfl (e & t & Hmsg).
    rewrite !in_app_iff in Hf. destruct Hf as [Hf|[Hf|[Hf|[Hf|Hf]]]].
    - rewrite Forall_forall in Mdup. apply list_elem_of_In, Mdup in Hf.
      rewrite Hf in Hmsg. symmetry in Hmsg.
      by apply FAILURE_STRING_not_fixed in Hmsg; [|cbn; tauto].
    - apply in_map_iff in Hf as (d & <- & _).
      by apply addDiagnosticFailure_not_fixed in Hmsg; [|right; eauto].
    - rewrite Forall_forall in Merr. apply list_elem_of_In, Merr in Hf.
      rewrite Hf in Hmsg. symmetry in Hmsg.
      by apply FAILURE_STRING_not_fixed in Hmsg; [|cbn; tauto].
    - apply in_map_iff in Hf as (u & <- & Hu). exists u. split; [|done].
      apply filter_In. split; [done|]. unfold startsOnLine.
      apply Nat.eqb_eq. exact Hfl.
    - apply (Forall2_Forall_r _ (fun f => failureMessage f
                                          = FAILURE_STRING_ASSERTION_MISSING_NODE))
        in Hunused.
      + rewrite Forall_forall in Hunused. apply list_elem_of_In, Hunused in Hf.
        rewrite Hf in Hmsg. symmetry in Hmsg.
        by apply FAILURE_STRING_not_fixed in Hmsg; [|cbn; tauto].
      + apply Forall_forall. intros l _ f' Hf'.
        by apply addFailureAtLine_Some in Hf' as [? _]. }
  destruct (firstOnLine source line) as [node|]; destruct Hline as [Hun Hunmet].
  - cbn zeta. split; [|split].
    + rewrite Hcount. by apply (count_occ_not_In Nat.eq_dec).
    + intros Hne.
      assert (Hin : In (mkUnmet (unwrap node) expected
                          (fixupUnions (typeToString (unwrap node))))
                      (unmetOnLine source line (unmet r))).
      { rewrite Hunmet, decide_False by done. by left. }
      apply filter_In in Hin as [Hin _].
      rewrite !in_app_iff. do 3 right. left.
      apply in_map_iff.
      exists (mkUnmet (unwrap node) expected (fixupUnions (typeToString (unwrap node)))).
      by split.
    + intros f Hf Hfl Hty. destruct (Hmis f Hf Hfl Hty) as (u & Hu & ->).
      rewrite Hunmet in Hu.
      destruct (decide (fixupUnions (typeToString (unwrap node)) = expected));
        [done|].
      by destruct Hu as [<-|[]].
  - split.
    + rewrite Hcount. apply NoDup_ListNoDup in Hnd.
      pose proof (proj1 (List.NoDup_count_occ Nat.eq_dec _) Hnd line).
      apply (count_occ_In Nat.eq_dec) in Hun. lia.
    + intros f Hf Hfl Hty. destruct (Hmis f Hf Hfl Hty) as (u & Hu & _).
      by rewrite Hunmet in Hu.
Qed.

Lemma walk_type_assertion_witness :
  let program := mkProgramView Examples.expectedString [] in
  exists fs,
    walk program (js "next") None = Some fs
    /\ countFailures Examples.expectedString FAILURE_STRING_ASSERTION_MISSING_NODE 0 fs
       = 0%nat.
Proof.
  intros program. eexists. split; [reflexivity|].
  pose proof (walk_type_assertion program (js "next") None _ 0 (js "string")
                eq_refl eq_refl eq_refl eq_refl) as H.
  cbn zeta in H.
  destruct (firstOnLine (sourceFile program) 0) as [node|] eqn:E;
    [|vm_compute in E; discriminate E].
  destruct H as [H _]. exact H.
Defined.

(** ** The program cache and the outcomes of the coordinator *)

Section Outcomes.
Variable h : Host.
Variable options : Options.

Lemma scanVersions_no_assertion n s :
  fst (scanVersions h options n s) <> Throws AssertionError.
Proof.
  revert s. induction n as [|i IH]; intros s; [done|]. cbn [scanVersions].
  destruct (nth_error (olderInstalls options) i) as [install|]; [|done].
  destruct (nextHigherVersionAt (olderInstalls options) i) as [nh|]; [|done].
  destruct (getFailures h options _ _ _ _) as [[[|f fs]|] s']; [apply IH|done|done].
Qed.

Lemma extends_refl (s : Session h) : extends s s.
Proof. split; [done|]. exists []. by rewrite app_nil_r. Qed.

Lemma extends_trans (s1 s2 s3 : Session h) : extends s1 s2 -> extends s2 s3 -> extends s1 s3.
Proof.
  intros [H1 [l1 E1]] [H2 [l2 E2]]. split; [by auto|].
  exists (l1 ++ l2). by rewrite E2, E1, <- app_assoc.
Qed.

Lemma extends_cached (s : Session h) install : extends s (cached h options s install).
Proof.
  split; [intros v p; apply cached_keeps|].
  exists []. by rewrite cached_console, app_nil_r.
Qed.

Lemma extends_log (s : Session h) line :
  extends s (mkSession (versionToProgram s) (console s ++ [line])).
Proof. split; [done|]. by exists [line]. Qed.

Lemma scanVersions_extends n s : extends s (snd (scanVersions h options n s)).
Proof.
  revert s. induction n as [|i IH]; intros s; [apply extends_refl|].
  cbn [scanVersions].
  destruct (nth_error (olderInstalls options) i) as [install|]; [|apply extends_refl].
  destruct (nextHigherVersionAt (olderInstalls options) i) as [nh|];
    [|apply extends_log].
  rewrite getFailures_runAt.
  set (s1 := mkSession (versionToProgram s) _).
  assert (H1 : extends s (cached h options s1 install)).
  { apply (extends_trans _ s1); [apply extends_log|apply extends_cached]. }
  destruct (runAt h options s1 install (Some nh)) as [[|f fs]|]; cbn [snd]; [|done|done].
  by apply (extends_trans _ (cached h options s1 install)).
Qed.


End Outcomes.

(** X16.  The cache of programs is keyed by the version name alone: once a
    program has been requested for a version name, every later request for
    that name is answered with the same program and leaves the session as it
    is, whatever configuration file and compiler the request names.  A
    request keeps the programs of the other names, and logs nothing. *)
Theorem getProgram_cached
    (h : Host) (configFile configFile' : jsstring) (ts ts' : TsModule h)
    (versionName : jsstring) (s : Session h) :
  let program := fst (getProgram h configFile ts versionName s) in
  let s' := snd (getProgram h configFile ts versionName s) in
  getProgram h configFile' ts' versionName s' = (program, s')
  /\ (forall v cachedProgram,
        map_get v (versionToProgram s) = Some cachedProgram ->
        map_get v (versionToProgram s') = Some cachedProgram)
  /\ (forall v, v <> versionName ->
                map_get v (versionToProgram s') = map_get v (versionToProgram s))
  /\ console s' = console s.
Proof.
  unfold getProgram.
  destruct (map_get versionName (versionToProgram s)) as [p|] eqn:E; cbn [fst snd].
  - by rewrite E.
  - cbn [versionToProgram console]. rewrite map_get_set, decide_True by done.
    split; [done|]. split; [|split; [|done]].
    + intros v p Hv. rewrite map_get_set.
      destruct (decide (v = versionName)) as [->|]; [congruence|done].
    + intros v Hv. by rewrite map_get_set, decide_False.
Qed.

(** X17.  The assertion on the configured versions fails exactly when the run
    against [next] yields no failures and no older version is configured;
    no other step of the coordinator raises it. *)
Theorem applyWithProgram_assertion
    (h : Host) (options : Options) (s : Session h) :
  fst (applyWithProgram h (Some options) s) = Throws AssertionError
  <-> runAt h options s (nextInstall options) None = Some []
      /\ olderInstalls options = [].
Proof.
  cbn [applyWithProgram].
  rewrite (getFailures_runAt h options (nextInstall options)).
  destruct (runAt h options s (nextInstall options) None) as [[|f fs]|];
    [|by split; [|intros [? _]]|by split; [|intros [? _]]].
  destruct (olderInstalls options) as [|minInstall rest] eqn:Hinstalls; [done|].
  rewrite getFailures_runAt.
  destruct (runAt h options _ minInstall None) as [[|f fs]|];
    [by split; [|intros [_ ?]]| |by split; [|intros [_ ?]]].
  split; [|by intros [_ ?]]. intros H. by apply scanVersions_no_assertion in H.
Qed.

(** X18.  A call never drops or replaces a cached program, and only adds lines
    to the log; without options it leaves the session as it is. *)
Theorem applyWithProgram_session
    (h : Host) (options : option Options) (s : Session h) :
  let s' := snd (applyWithProgram h options s) in
  (forall v program,
      map_get v (versionToProgram s) = Some program ->
      map_get v (versionToProgram s') = Some program)
  /\ (exists lines, console s' = console s ++ lines)
  /\ (options = None -> s' = s).
Proof.
  destruct options as [options|]; cbn [applyWithProgram snd].
  - cut (extends s (snd (applyWithProgram h (Some options) s))).
    { intros [H1 H2]. split; [exact H1|]. split; [exact H2|done]. }
    cbn [applyWithProgram].
    rewrite (getFailures_runAt h options (nextInstall options)).
    set (s1 := cached h options s (nextInstall options)).
    assert (H1 : extends s s1) by apply extends_cached.
    destruct (runAt h options s (nextInstall options) None) as [[|f fs]|];
      [|done|done].
    destruct (olderInstalls options) as [|minInstall rest] eqn:Hinstalls; [done|].
    rewrite getFailures_runAt.
    set (s2 := cached h options s1 minInstall).
    assert (H2 : extends s s2).
    { apply (extends_trans _ _ s1); [done|apply extends_cached]. }
    destruct (runAt h options s1 minInstall None) as [[|f fs]|]; [done| |done].
    apply (extends_trans _ _ s2); [done|apply scanVersions_extends].
  - split; [done|]. split; [|done]. exists []. by rewrite app_nil_r.
Qed.



(** X20.  The kinds of failure can be told apart by their messages: a compile
    error, a type mismatch, a duplicate assertion, a missing expected error
    and an unmatched assertion never have the same message, whatever the
    versions, the diagnostic and the types are. *)
Theorem failure_messages_distinct
    (versionName : jsstring) (nextHigherVersion : option jsstring)
    (diagnostic : Diagnostic) (expectedType actualType : jsstring) :
  NoDup [failureMessage (addDiagnosticFailure versionName nextHigherVersion diagnostic);
         FAILURE_STRING expectedType actualType;
         FAILURE_STRING_DUPLICATE_ASSERTION;
         FAILURE_STRING_EXPECTED_ERROR;
         FAILURE_STRING_ASSERTION_MISSING_NODE].
Proof.
  pose proof (addDiagnosticFailure_not_fixed versionName nextHigherVersion diagnostic)
    as Hdiag.
  pose proof (FAILURE_STRING_not_fixed expectedType actualType) as Htype.
  repeat apply NoDup_cons_2; try apply NoDup_nil_2.
  - intros Hin. repeat (apply elem_of_cons in Hin as [Hin|Hin]).
    + apply (Hdiag (FAILURE_STRING expectedType actualType)); [right; eauto|done].
    + apply (Hdiag FAILURE_STRING_DUPLICATE_ASSERTION); [left; cbn; auto|done].
    + apply (Hdiag FAILURE_STRING_EXPECTED_ERROR); [left; cbn; auto|done].
    + apply (Hdiag FAILURE_STRING_ASSERTION_MISSING_NODE); [left; cbn; auto|done].
    + by apply elem_of_nil in Hin.
  - intros Hin. repeat (apply elem_of_cons in Hin as [Hin|Hin]).
    + apply (Htype FAILURE_STRING_DUPLICATE_ASSERTION); [cbn; auto|done].
    + apply (Htype FAILURE_STRING_EXPECTED_ERROR); [cbn; auto|done].
    + apply (Htype FAILURE_STRING_ASSERTION_MISSING_NODE); [cbn; auto|done].
    + by apply elem_of_nil in Hin.
  - intros Hin. repeat (apply elem_of_cons in Hin as [Hin|Hin]); try done.
    by apply elem_of_nil in Hin.
  - intros Hin. repeat (apply elem_of_cons in Hin as [Hin|Hin]); try done.
    by apply elem_of_nil in Hin.
  - apply not_elem_of_nil.
Qed.
